(** * sjson: a shallow embedding of the encoding pipeline

    The development follows the Go sources of the encoder:
    the numeric primitives ([appendUint], [appendInt], [parseIntFromBytes],
    [parseUintFromBytes], [parseFloatFromBytes]), the string escaper
    ([escapeStringToBytes], [stringEncoder], [byteSliceEncoder]), the scalar
    encoders, the struct encoder, and the pooled stream with [Marshal].

    Conventions.  Go's [byte] is [Byte.byte]; [int], [int64] and [uint64]
    are integers of [Z] with the wrap-around written out ([int64], [uint64]);
    a slice seen only through its content is a [list byte]; an index that
    leaves the slice, which panics in Go, is [None] / [Panic] here. *)

From Stdlib Require Import ZArith List Lia Bool String.
From Stdlib.Strings Require Import Byte.
From Stdlib Require Import SpecFloat.
Import ListNotations.

Local Open Scope Z_scope.

#[local] Set Warnings "-register-all,-abstract-large-number".

(* ================================================================== *)
(** * Go values: bytes, machine integers, slices *)
(* ================================================================== *)

Definition byte_val (b : byte) : Z := Z.of_N (Byte.to_N b).

(** Conversion to [byte] keeps the low eight bits. *)
Definition byte_of (z : Z) : byte :=
  match Byte.of_N (Z.to_N (z mod 256)) with
  | Some b => b
  | None => x00
  end.

Definition bytes (s : string) : list byte := list_byte_of_string s.

Definition MaxInt64 : Z := 9223372036854775807.
Definition MinInt64 : Z := -9223372036854775808.
Definition MaxUint64 : Z := 18446744073709551615.
Definition MaxInt8 : Z := 127.
Definition MinInt8 : Z := -128.
Definition MaxInt16 : Z := 32767.
Definition MinInt16 : Z := -32768.
Definition MaxInt32 : Z := 2147483647.
Definition MinInt32 : Z := -2147483648.
Definition MaxUint8 : Z := 255.
Definition MaxUint16 : Z := 65535.
Definition MaxUint32 : Z := 4294967295.

(** Two's-complement wrap-around of 64-bit arithmetic. *)
Definition uint64 (z : Z) : Z := z mod 2 ^ 64.
Definition int64 (z : Z) : Z := (z + 2 ^ 63) mod 2 ^ 64 - 2 ^ 63.

Definition len {A : Type} (l : list A) : Z := Z.of_nat (List.length l).

(** [l[i]]: [None] is the run-time panic "index out of range". *)
Definition lookup {A : Type} (l : list A) (i : Z) : option A :=
  if i <? 0 then None else nth_error l (Z.to_nat i).

Fixpoint set_nth {A : Type} (l : list A) (n : nat) (x : A) : option (list A) :=
  match l, n with
  | [], _ => None
  | _ :: t, O => Some (x :: t)
  | h :: t, S n' => option_map (cons h) (set_nth t n' x)
  end.

(** [l[i] = x]. *)
Definition store {A : Type} (l : list A) (i : Z) (x : A) : option (list A) :=
  if i <? 0 then None else set_nth l (Z.to_nat i) x.

(** [l[lo:hi]] for in-range bounds. *)
Definition slice {A : Type} (l : list A) (lo hi : Z) : list A :=
  firstn (Z.to_nat (hi - lo)) (skipn (Z.to_nat lo) l).

Definition error : Type := string.

(** The two results [(value, error)] of a Go function, or a panic. *)
Inductive ret (A : Type) : Type :=
| Return (a : A) (err : option error)
| Panic.
Arguments Return {A} a err.
Arguments Panic {A}.

(** What one round of a loop body decides. *)
Inductive flow (S A : Type) : Type :=
| Next (s : S)
| Exit (r : ret A).
Arguments Next {S A} s.
Arguments Exit {S A} r.

(* ================================================================== *)
(** * The parts of Go's [strconv] the encoder calls *)
(* ================================================================== *)

Module strconv.

Definition digitChars : list byte := bytes "0123456789abcdefghijklmnopqrstuvwxyz".

Definition digitChar (d : Z) : byte := nth (Z.to_nat d) digitChars x00.

(** Digits of [u] in [base], most significant first, in front of [acc]. *)
Fixpoint formatBits (fuel : nat) (u base : Z) (acc : list byte) : list byte :=
  match fuel with
  | O => acc
  | S fuel' =>
      if u <? base then digitChar u :: acc
      else formatBits fuel' (u / base) base (digitChar (u mod base) :: acc)
  end.

Definition legalBase (base : Z) : bool := (2 <=? base) && (base <=? 36).

(** [strconv.AppendUint]; an illegal base panics. *)
Definition AppendUint (dst : list byte) (u base : Z) : option (list byte) :=
  if legalBase base then Some (dst ++ formatBits 64 u base []) else None.

(** [strconv.AppendInt]. *)
Definition AppendInt (dst : list byte) (i base : Z) : option (list byte) :=
  if legalBase base then
    if i <? 0 then Some (dst ++ "-"%byte :: formatBits 64 (uint64 (- i)) base [])
    else Some (dst ++ formatBits 64 i base [])
  else None.

End strconv.

(** The decimal numeral of a natural number, the reference the renderers
    are compared with. *)
Definition decimal (u : Z) : list byte := strconv.formatBits 64 u 10 [].

(* ================================================================== *)
(** * Numeric primitives: rendering *)
(* ================================================================== *)

Definition singleDigits : list byte := bytes "0123456789".

(** [digits], as [init] fills it: the numerals of 0..9999. *)
Definition digits : list (list byte) :=
  map (fun i => match strconv.AppendInt [] (Z.of_nat i) 10 with
                | Some s => s
                | None => []
                end) (seq 0 (Z.to_nat 10000)).

(** The digit-counting loop of [appendUintOptimized]. *)
Fixpoint countDigits (fuel : nat) (temp digitCount : Z) : Z :=
  match fuel with
  | O => digitCount
  | S fuel' =>
      let digitCount := digitCount + 1 in
      let temp := temp / 10 in
      if temp =? 0 then digitCount else countDigits fuel' temp digitCount
  end.

(** The loop [for u >= 100] of [appendUintOptimized]; the state is
    [(dst, pos, u)]. *)
Fixpoint fillPairs (fuel : nat) (dst : list byte) (pos u : Z)
  : option (list byte * Z * Z) :=
  if u >=? 100 then
    match fuel with
    | O => None
    | S fuel' =>
        let q := u / 100 in
        let r := u mod 100 in
        if r <? 10 then
          match lookup singleDigits r with
          | Some c =>
              match store dst pos c with
              | Some dst => fillPairs fuel' dst (pos - 1) q
              | None => None
              end
          | None => None
          end
        else
          match lookup digits r with
          | Some twoDigits =>
              match lookup twoDigits 1, lookup twoDigits 0 with
              | Some d1, Some d0 =>
                  match store dst pos d1 with
                  | Some dst =>
                      match store dst (pos - 1) d0 with
                      | Some dst => fillPairs fuel' dst (pos - 2) q
                      | None => None
                      end
                  | None => None
                  end
              | _, _ => None
              end
          | None => None
          end
    end
  else Some (dst, pos, u).

(** [appendUintOptimized]; [None] is a panic. *)
Definition appendUintOptimized (dst : list byte) (u : Z) : option (list byte) :=
  let digitCount := countDigits 64 u 0 in
  let start := len dst in
  let dst := dst ++ repeat x00 (Z.to_nat digitCount) in
  let pos := start + digitCount - 1 in
  match fillPairs 64 dst pos u with
  | None => None
  | Some (dst, pos, u) =>
      if u >=? 10 then
        match lookup digits u with
        | Some twoDigits =>
            match lookup twoDigits 1, lookup twoDigits 0 with
            | Some d1, Some d0 =>
                match store dst pos d1 with
                | Some dst => store dst (pos - 1) d0
                | None => None
                end
            | _, _ => None
            end
        | None => None
        end
      else
        match lookup singleDigits u with
        | Some c => store dst pos c
        | None => None
        end
  end.

(** [appendUint]. *)
Definition appendUint (dst : list byte) (u : Z) (base : Z) : option (list byte) :=
  if u <? 10 then
    option_map (fun c => dst ++ [c]) (lookup singleDigits u)
  else if u <? 10000 then
    option_map (fun s => dst ++ s) (lookup digits u)
  else if u <? 100000000 then
    appendUintOptimized dst u
  else strconv.AppendUint dst u base.

(** [appendInt]; [-i] and the conversion to [uint64] wrap. *)
Definition appendInt (dst : list byte) (i : Z) (base : Z) : option (list byte) :=
  if i <? 0 then
    appendUint (dst ++ ["-"%byte]) (uint64 (int64 (- i))) base
  else appendUint dst (uint64 i) base.

(* ================================================================== *)
(** * Numeric primitives: parsing integers *)
(* ================================================================== *)

Definition inRange (lo hi d : byte) : bool :=
  (byte_val lo <=? byte_val d) && (byte_val d <=? byte_val hi).

(** The [switch] that maps a digit character to its value. *)
Definition digitValue (d : byte) : option byte :=
  if inRange "0" "9" d then Some (byte_of (byte_val d - byte_val "0"))
  else if inRange "a" "z" d then Some (byte_of (byte_val d - byte_val "a" + 10))
  else if inRange "A" "Z" d then Some (byte_of (byte_val d - byte_val "A" + 10))
  else None.

(** The accumulation loop of [parseIntFromBytes] over [b[i:]]. *)
Fixpoint parseIntDigits (rest : list byte) (base : Z) (negative : bool) (n : Z)
  : flow Z Z :=
  match rest with
  | [] => Next n
  | d :: rest' =>
      match digitValue d with
      | None => Exit (Return 0 (Some "无效的数字字符"%string))
      | Some v =>
          if byte_val v >=? base then
            Exit (Return 0 (Some "数字超出进制范围"%string))
          else if n >? Z.quot MaxInt64 (int64 base) then
            Exit (Return (if negative then MinInt64 else MaxInt64) None)
          else
            let n := int64 (n * int64 base) in
            let n := int64 (n + byte_val v) in
            parseIntDigits rest' base negative n
      end
  end.

Definition parseIntFromBytes (b : list byte) (base bitSize : Z) : ret Z :=
  match b with
  | [] => Return 0 (Some "空字节切片"%string)
  | b0 :: _ =>
      let '(negative, i) :=
        if Byte.eqb b0 "+" then (false, 1)
        else if Byte.eqb b0 "-" then (true, 1)
        else (false, 0) in
      if i >=? len b then Return 0 (Some "无效的数字格式"%string)
      else
        match parseIntDigits (skipn (Z.to_nat i) b) base negative 0 with
        | Exit r => r
        | Next n =>
            let n := if negative then int64 (- n) else n in
            if (bitSize =? 8) && ((n <? MinInt8) || (n >? MaxInt8)) then
              Return 0 (Some "数值超出int8范围"%string)
            else if (bitSize =? 16) && ((n <? MinInt16) || (n >? MaxInt16)) then
              Return 0 (Some "数值超出int16范围"%string)
            else if (bitSize =? 32) && ((n <? MinInt32) || (n >? MaxInt32)) then
              Return 0 (Some "数值超出int32范围"%string)
            else Return n None
      end
  end.

(** The accumulation loop of [parseUintFromBytes] over [b[i:]]. *)
Fixpoint parseUintDigits (rest : list byte) (base : Z) (n : Z) : flow Z Z :=
  match rest with
  | [] => Next n
  | d :: rest' =>
      match digitValue d with
      | None => Exit (Return 0 (Some "无效的数字字符"%string))
      | Some v =>
          if byte_val v >=? base then
            Exit (Return 0 (Some "数字超出进制范围"%string))
          else if n >? MaxUint64 / uint64 base then
            Exit (Return MaxUint64 None)
          else
            let n := uint64 (n * uint64 base) in
            let n := uint64 (n + byte_val v) in
            parseUintDigits rest' base n
      end
  end.

Definition parseUintFromBytes (b : list byte) (base bitSize : Z) : ret Z :=
  match b with
  | [] => Return 0 (Some "空字节切片"%string)
  | b0 :: _ =>
      let i := if Byte.eqb b0 "+" then 1 else 0 in
      if i >=? len b then Return 0 (Some "无效的数字格式"%string)
      else
        match parseUintDigits (skipn (Z.to_nat i) b) base 0 with
        | Exit r => r
        | Next n =>
            if (bitSize =? 8) && (n >? MaxUint8) then
              Return 0 (Some "数值超出uint8范围"%string)
            else if (bitSize =? 16) && (n >? MaxUint16) then
              Return 0 (Some "数值超出uint16范围"%string)
            else if (bitSize =? 32) && (n >? MaxUint32) then
              Return 0 (Some "数值超出uint32范围"%string)
            else Return n None
      end
  end.

(* ================================================================== *)
(** * Floating point: binary64 and binary32 on [SpecFloat] *)
(* ================================================================== *)

(** A [float64] is a [spec_float] in the canonical form of precision 53,
    a [float32] one in the canonical form of precision 24. *)
Definition float64 : Type := spec_float.
Definition float32 : Type := spec_float.

Module f64.
Definition prec : Z := 53.
Definition emax : Z := 1024.
Definition ofZ (z : Z) : float64 := binary_normalize prec emax z 0 false.
Definition add : float64 -> float64 -> float64 := SFadd prec emax.
Definition mul : float64 -> float64 -> float64 := SFmul prec emax.
Definition div : float64 -> float64 -> float64 := SFdiv prec emax.
Definition neg : float64 -> float64 := SFopp.
Definition zero : float64 := S754_zero false.
(** The constant [0.1]: the double nearest to one tenth. *)
Definition tenth : float64 := S754_finite false 7205759403792794 (-56).
End f64.

Module f32.
Definition prec : Z := 24.
Definition emax : Z := 128.
Definition ofZ (z : Z) : float32 := binary_normalize prec emax z 0 false.
End f32.

(** Rounding conversion between the formats: [float32(f)], [float64(f)]. *)
Definition convert (prec emax : Z) (f : spec_float) : spec_float :=
  match f with
  | S754_finite s m e =>
      binary_normalize prec emax (if s then Z.neg m else Z.pos m) e s
  | _ => f
  end.
Definition to_float32 (f : float64) : float32 := convert f32.prec f32.emax f.
Definition to_float64 (f : float32) : float64 := convert f64.prec f64.emax f.

(** The integer part of a finite float, rounded toward zero. *)
Definition truncate (f : spec_float) : option Z :=
  match f with
  | S754_zero _ => Some 0
  | S754_finite s m e =>
      let mag := if 0 <=? e then Z.pos m * 2 ^ e else Z.pos m / 2 ^ (- e) in
      Some (if s then - mag else mag)
  | _ => None
  end.

(** [int64(f)] and [int32(f)].  Go leaves the result open when the value
    does not fit; the model takes the "integer indefinite" value of the
    amd64 conversion instructions, the smallest integer of the type. *)
Definition float_to_int64 (f : spec_float) : Z :=
  match truncate f with
  | Some z => if (MinInt64 <=? z) && (z <=? MaxInt64) then z else MinInt64
  | None => MinInt64
  end.
Definition float_to_int32 (f : spec_float) : Z :=
  match truncate f with
  | Some z => if (MinInt32 <=? z) && (z <=? MaxInt32) then z else MinInt32
  | None => MinInt32
  end.

(* ================================================================== *)
(** * Numeric primitives: parsing floats *)
(* ================================================================== *)

Definition isDigit (c : byte) : bool := inRange "0" "9" c.
Definition isExpMark (c : byte) : bool := Byte.eqb c "e" || Byte.eqb c "E".

(** [float64(b[i]-'0')]. *)
Definition digitFloat (c : byte) : float64 :=
  f64.ofZ (byte_val (byte_of (byte_val c - byte_val "0"))).

(** The integer-part loop over [b[i:]]; the state is [(i, n, sawDigit)]. *)
Fixpoint floatIntPart (rest : list byte) (i : Z) (n : float64) (sawDigit : bool)
  : flow (Z * float64 * bool) float64 :=
  match rest with
  | [] => Next (i, n, sawDigit)
  | c :: rest' =>
      if Byte.eqb c "." then Next (i + 1, n, sawDigit)
      else if isExpMark c then Next (i, n, sawDigit)
      else if isDigit c then
        floatIntPart rest' (i + 1) (f64.add (f64.mul n (f64.ofZ 10)) (digitFloat c)) true
      else Exit (Return f64.zero (Some "无效的数字字符"%string))
  end.

(** The fractional-part loop over [b[i:]]; the state adds [decimal]. *)
Fixpoint floatFracPart (rest : list byte) (i : Z) (n decimal : float64)
  (sawDigit : bool) : flow (Z * float64 * bool) float64 :=
  match rest with
  | [] => Next (i, n, sawDigit)
  | c :: rest' =>
      if isExpMark c then Next (i, n, sawDigit)
      else if isDigit c then
        floatFracPart rest' (i + 1)
          (f64.add n (f64.mul decimal (digitFloat c)))
          (f64.mul decimal f64.tenth) true
      else Exit (Return f64.zero (Some "无效的数字字符"%string))
  end.

(** The exponent-digit loop over [b[i:]]; [exp] is an [int] and wraps. *)
Fixpoint floatExpDigits (rest : list byte) (exp : Z) : flow Z float64 :=
  match rest with
  | [] => Next exp
  | c :: rest' =>
      if isDigit c then
        floatExpDigits rest'
          (int64 (int64 (exp * 10) + byte_val (byte_of (byte_val c - byte_val "0"))))
      else Exit (Return f64.zero (Some "无效的指数字符"%string))
  end.

(** [for j := 0; j < exp; j++ { n = step n }]. *)
Definition repeatExp (exp : Z) (step : float64 -> float64) (n : float64) : float64 :=
  Z.iter exp step n.

(** The exponent part, entered when [b[i]] is ['e'] or ['E']. *)
Definition floatExponent (b : list byte) (i : Z) (n : float64) : flow float64 float64 :=
  let i := i + 1 in
  if i >=? len b then Exit (Return f64.zero (Some "无效的指数格式"%string))
  else
    match lookup b i with
    | None => Exit Panic
    | Some c =>
        let '(expSign, i) :=
          if Byte.eqb c "+" then (1, i + 1)
          else if Byte.eqb c "-" then (-1, i + 1)
          else (1, i) in
        if i >=? len b then Exit (Return f64.zero (Some "无效的指数格式"%string))
        else
          match lookup b i with
          | None => Exit Panic
          | Some c =>
              if (byte_val c <? byte_val "0") || (byte_val c >? byte_val "9") then
                Exit (Return f64.zero (Some "无效的指数格式"%string))
              else
                match floatExpDigits (skipn (Z.to_nat i) b) 0 with
                | Exit r => Exit r
                | Next exp =>
                    if expSign >? 0 then
                      Next (repeatExp exp (fun n => f64.mul n (f64.ofZ 10)) n)
                    else
                      Next (repeatExp exp (fun n => f64.div n (f64.ofZ 10)) n)
                end
          end
    end.

Definition parseFloatFromBytes (b : list byte) (bitSize : Z) : ret float64 :=
  match b with
  | [] => Return f64.zero (Some "空字节切片"%string)
  | b0 :: _ =>
      let '(negative, i) :=
        if Byte.eqb b0 "+" then (false, 1)
        else if Byte.eqb b0 "-" then (true, 1)
        else (false, 0) in
      match floatIntPart (skipn (Z.to_nat i) b) i f64.zero false with
      | Exit r => r
      | Next (i, n, sawDigit) =>
          (* if i < len(b) && b[i-1] == '.' *)
          let frac :=
            if i <? len b then
              match lookup b (i - 1) with
              | None => Exit Panic
              | Some c =>
                  if Byte.eqb c "." then
                    floatFracPart (skipn (Z.to_nat i) b) i n f64.tenth sawDigit
                  else Next (i, n, sawDigit)
              end
            else Next (i, n, sawDigit) in
          match frac with
          | Exit r => r
          | Next (i, n, sawDigit) =>
              if negb sawDigit then Return f64.zero (Some "无效的数字格式"%string)
              else
                let expo :=
                  if i <? len b then
                    match lookup b i with
                    | None => Exit Panic
                    | Some c =>
                        if isExpMark c then floatExponent b i n else Next n
                    end
                  else Next n in
                match expo with
                | Exit r => r
                | Next n =>
                    let n := if negative then f64.neg n else n in
                    if bitSize =? 32 then Return (to_float64 (to_float32 n)) None
                    else Return n None
                end
          end
      end
  end.

(* ================================================================== *)
(** * The part of Go's [unicode/utf8] the encoder calls *)
(* ================================================================== *)

Module utf8.

Definition RuneSelf : Z := 128.

(** The table [first]: what the first byte of a sequence announces. *)
Definition first (p0 : byte) : Z :=
  let v := byte_val p0 in
  if v <? 128 then 240          (* as: ASCII *)
  else if v <? 194 then 241     (* xx: not a lead byte *)
  else if v <? 224 then 2       (* s1 *)
  else if v =? 224 then 19      (* s2 *)
  else if v <? 237 then 3       (* s3 *)
  else if v =? 237 then 35      (* s4 *)
  else if v <? 240 then 3       (* s3 *)
  else if v =? 240 then 52      (* s5 *)
  else if v <? 244 then 4       (* s6 *)
  else if v =? 244 then 68      (* s7 *)
  else 241.

(** [acceptRanges]: the bounds of the second byte. *)
Definition acceptRanges (k : Z) : Z * Z :=
  match k with
  | 0 => (128, 191)
  | 1 => (160, 191)
  | 2 => (128, 159)
  | 3 => (144, 191)
  | 4 => (128, 143)
  | _ => (0, 0)
  end.

Definition locb : Z := 128.
Definition hicb : Z := 191.

Definition outside (lo hi : Z) (b : byte) : bool :=
  (byte_val b <? lo) || (hi <? byte_val b).

(** The [size] result of [utf8.DecodeRune] and [utf8.DecodeRuneInString]. *)
Definition DecodeRuneSize (p : list byte) : Z :=
  match p with
  | [] => 0
  | p0 :: _ =>
      let x := first p0 in
      if x >=? 240 then 1
      else
        let sz := Z.land x 7 in
        let '(lo, hi) := acceptRanges (Z.shiftr x 4) in
        if len p <? sz then 1
        else
          match lookup p 1 with
          | None => 1
          | Some b1 =>
              if outside lo hi b1 then 1
              else if sz <=? 2 then 2
              else
                match lookup p 2 with
                | None => 1
                | Some b2 =>
                    if outside locb hicb b2 then 1
                    else if sz <=? 3 then 3
                    else
                      match lookup p 3 with
                      | None => 1
                      | Some b3 => if outside locb hicb b3 then 1 else 4
                      end
                end
          end
  end.

End utf8.

(* ================================================================== *)
(** * String escaping *)
(* ================================================================== *)

Definition quote : byte := x22.
Definition backslash : byte := x5c.

(** Modelled from the spec: the literals the encoders append are declared
    outside the files at hand; the spec names "the 4-character null
    literal" and "the two-character empty string literal". *)
Definition nullString : list byte := bytes "null".
Definition trueString : list byte := bytes "true".
Definition falseString : list byte := bytes "false".
Definition emptyString : list byte := [quote; quote].

(** [unicodeHex]: the pre-rendered forms of the control bytes. *)
Definition unicodeHex : list (list byte) :=
  map bytes
    [ "\u0000"; "\u0001"; "\u0002"; "\u0003"; "\u0004"; "\u0005"; "\u0006"; "\u0007";
      "\u0008"; "\u0009"; "\u000a"; "\u000b"; "\u000c"; "\u000d"; "\u000e"; "\u000f";
      "\u0010"; "\u0011"; "\u0012"; "\u0013"; "\u0014"; "\u0015"; "\u0016"; "\u0017";
      "\u0018"; "\u0019"; "\u001a"; "\u001b"; "\u001c"; "\u001d"; "\u001e"; "\u001f" ]%string.

(** The keys of the composite literal that initialises [safeSet]. *)
Definition safeSetKeys : list byte :=
  bytes " !#$%&'()*+,-./0123456789:;<=>?@ABCDEFGHIJKLMNOPQRSTUVWXYZ[]^_`abcdefghijklmnopqrstuvwxyz{|}~".

Definition safeSetLiteral : list bool :=
  map (fun i => existsb (Byte.eqb (byte_of (Z.of_nat i))) safeSetKeys) (seq 0 128).

Definition clear (t : list bool) (i : Z) : list bool :=
  match store t i false with
  | Some t' => t'
  | None => t
  end.

(** [init]: the bytes that must be escaped are reset, then all of 0..31. *)
Definition safeSetInit (t : list bool) : list bool :=
  let t := clear t (byte_val quote) in
  let t := clear t (byte_val backslash) in
  let t := clear t 9 in
  let t := clear t 10 in
  let t := clear t 13 in
  let t := clear t 8 in
  let t := clear t 12 in
  fold_left (fun t i => clear t (Z.of_nat i)) (seq 0 32) t.

Definition safeSet : list bool := Eval vm_compute in safeSetInit safeSetLiteral.

(** [safeSet[c]] for a byte below [utf8.RuneSelf]. *)
Definition isSafe (c : byte) : option bool := lookup safeSet (byte_val c).

Definition escapeStringToBytes (buf : list byte) (c : byte) : option (list byte) :=
  if Byte.eqb c quote then Some (buf ++ [backslash; quote])
  else if Byte.eqb c backslash then Some (buf ++ [backslash; backslash])
  else if Byte.eqb c x08 then Some (buf ++ [backslash; "b"%byte])
  else if Byte.eqb c x0c then Some (buf ++ [backslash; "f"%byte])
  else if Byte.eqb c x0a then Some (buf ++ [backslash; "n"%byte])
  else if Byte.eqb c x0d then Some (buf ++ [backslash; "r"%byte])
  else if Byte.eqb c x09 then Some (buf ++ [backslash; "t"%byte])
  else if byte_val c <? 32 then
    option_map (fun h => buf ++ h) (lookup unicodeHex (byte_val c))
  else Some (buf ++ [c]).

(** The scanning loop of [stringEncoder.appendToBytes]; the state is
    [(start, i, buffer)], the result [(start, buffer)] at the exit.
    [None] is a panic (or the fuel running out, which [len s] rounds
    never do). *)
Fixpoint stringScan (fuel : nat) (s : list byte) (start i : Z) (buf : list byte)
  : option (Z * list byte) :=
  if i <? len s then
    match fuel with
    | O => None
    | S fuel' =>
        match lookup s i with
        | None => None
        | Some c =>
            if byte_val c <? utf8.RuneSelf then
              match isSafe c with
              | None => None
              | Some false =>
                  let buf := if start <? i then buf ++ slice s start i else buf in
                  match escapeStringToBytes buf c with
                  | None => None
                  | Some buf => stringScan fuel' s (i + 1) (i + 1) buf
                  end
              | Some true => stringScan fuel' s start (i + 1) buf
              end
            else
              let size := utf8.DecodeRuneSize (skipn (Z.to_nat i) s) in
              stringScan fuel' s start (i + size) buf
        end
    end
  else Some (start, buf).

(** The body of [stringEncoder.appendToBytes] on the string [s]. *)
Definition appendString (buf : list byte) (s : list byte) : option (list byte) :=
  match s with
  | [] => Some (buf ++ emptyString)
  | _ =>
      let buf := buf ++ [quote] in
      match stringScan (List.length s) s 0 0 buf with
      | None => None
      | Some (start, buf) =>
          let buf := if start <? len s then buf ++ slice s start (len s) else buf in
          Some (buf ++ [quote])
      end
  end.

(** The loop of [byteSliceEncoder.appendToBytes]. *)
Fixpoint bytesScan (fuel : nat) (b : list byte) (i : Z) (buf : list byte)
  : option (list byte) :=
  if i <? len b then
    match fuel with
    | O => None
    | S fuel' =>
        match lookup b i with
        | None => None
        | Some c =>
            if byte_val c <? utf8.RuneSelf then
              match isSafe c with
              | None => None
              | Some true => bytesScan fuel' b (i + 1) (buf ++ [c])
              | Some false =>
                  match escapeStringToBytes buf c with
                  | None => None
                  | Some buf => bytesScan fuel' b (i + 1) buf
                  end
              end
            else
              let size := utf8.DecodeRuneSize (skipn (Z.to_nat i) b) in
              bytesScan fuel' b (i + size) (buf ++ slice b i (i + size))
        end
    end
  else Some buf.

(** The body of [byteSliceEncoder.appendToBytes] on a non-nil slice. *)
Definition appendBytes (buf : list byte) (b : list byte) : option (list byte) :=
  match b with
  | [] => Some (buf ++ emptyString)
  | _ =>
      match bytesScan (List.length b) b 0 (buf ++ [quote]) with
      | None => None
      | Some buf => Some (buf ++ [quote])
      end
  end.

(* ================================================================== *)
(** * Values seen through [reflect], and the [Encoder] interface *)
(* ================================================================== *)

(** The element types [estimateJSONSize] tells apart. *)
Inductive ElemType : Type := EInterface | EString | EOther.

(** A [reflect.Value], as far as the encoders look into it. *)
Inductive Value : Type :=
| VInvalid
| VBool (b : bool)
| VInt (i : Z)
| VUint (u : Z)
| VFloat (f : float64)
| VString (s : list byte)
| VBytes (b : option (list byte))
| VSlice (elem : ElemType) (xs : option (list Value))
| VMap (elem : ElemType) (kvs : option (list (list byte * Value)))
| VPtr (p : option Value)
| VStruct (fs : list Value).

(** The accessors of [reflect.Value]; [None] is the panic of an accessor
    called on a value of another kind. *)
Module reflect.

Definition Bool (v : Value) : option bool :=
  match v with VBool b => Some b | _ => None end.

(** [Int] returns an [int64]. *)
Definition Int (v : Value) : option Z :=
  match v with VInt i => Some (int64 i) | _ => None end.

(** [Uint] returns a [uint64]. *)
Definition Uint (v : Value) : option Z :=
  match v with VUint u => Some (uint64 u) | _ => None end.

Definition Float (v : Value) : option float64 :=
  match v with VFloat f => Some f | _ => None end.

(** [String] does not panic: another kind gives ["<T Value>"]. *)
Definition String (typeName : Value -> string) (v : Value) : list byte :=
  match v with
  | VString s => s
  | VInvalid => bytes "<invalid Value>"
  | _ => bytes ("<" ++ typeName v ++ " Value>")
  end.

Definition IsNil (v : Value) : option bool :=
  match v with
  | VBytes b => Some (match b with None => true | Some _ => false end)
  | VSlice _ xs => Some (match xs with None => true | Some _ => false end)
  | VMap _ kvs => Some (match kvs with None => true | Some _ => false end)
  | VPtr p => Some (match p with None => true | Some _ => false end)
  | _ => None
  end.

Definition Bytes (v : Value) : option (list byte) :=
  match v with
  | VBytes (Some b) => Some b
  | VBytes None => Some []
  | _ => None
  end.

Definition isPtr (v : Value) : bool :=
  match v with VPtr _ => true | _ => false end.

Definition Elem (v : Value) : option Value :=
  match v with VPtr (Some x) => Some x | _ => None end.

Definition Field (v : Value) (i : Z) : option Value :=
  match v with VStruct fs => lookup fs i | _ => None end.

(** [Type] panics on the zero [Value]. *)
Definition Type_ (typeName : Value -> string) (v : Value) : option string :=
  match v with VInvalid => None | _ => Some (typeName v) end.

End reflect.

Record encoderStream : Type := mkStream { buffer : list byte }.

(** [stream.buffer = append(stream.buffer, bs...)]. *)
Definition write (stream : encoderStream) (bs : list byte) : encoderStream :=
  {| buffer := buffer stream ++ bs |}.

(** [stream.buffer = buf], where a panic while [buf] was computed goes on. *)
Definition assign (buf : option (list byte)) : ret encoderStream :=
  match buf with
  | Some b => Return {| buffer := b |} None
  | None => Panic
  end.

(** The interface [Encoder]: the stream after the call and the error. *)
Record Encoder : Type := mkEncoder
  { appendToBytes : encoderStream -> Value -> ret encoderStream }.

(** [err := m; if err != nil { return err }; k]. *)
Definition andThen (m : ret encoderStream) (k : encoderStream -> ret encoderStream)
  : ret encoderStream :=
  match m with
  | Return stream None => k stream
  | Return stream (Some err) => Return stream (Some err)
  | Panic => Panic
  end.

Notation "stream <- m ;; k" := (andThen m (fun stream => k))
  (at level 61, m at next level, right associativity).

Section Encoders.

(** [strconv.AppendFloat(dst, f, fmt, prec, bitSize)] and the name of a
    value's type are left to the Go library. *)
Variable AppendFloat : list byte -> float64 -> byte -> Z -> Z -> list byte.
Variable typeName : Value -> string.
(** [isEmptyValue] is declared outside the files at hand. *)
Variable isEmptyValue : Value -> bool.

Definition nullEncoder : Encoder :=
  {| appendToBytes := fun stream _ => Return (write stream nullString) None |}.

Definition boolEncoder : Encoder :=
  {| appendToBytes := fun stream src =>
       match reflect.Bool src with
       | None => Panic
       | Some true => Return (write stream trueString) None
       | Some false => Return (write stream falseString) None
       end |}.

Definition intEncoder : Encoder :=
  {| appendToBytes := fun stream src =>
       match reflect.Int src with
       | None => Panic
       | Some intValue => assign (appendInt (buffer stream) intValue 10)
       end |}.

Definition uintEncoder : Encoder :=
  {| appendToBytes := fun stream src =>
       match reflect.Uint src with
       | None => Panic
       | Some u => assign (appendUint (buffer stream) u 10)
       end |}.

Definition appendFloat32 (stream : encoderStream) (f : float32) : ret encoderStream :=
  if SFeqb f (f32.ofZ (float_to_int32 f))
     && SFleb (f32.ofZ (-2147483648)) f
     && SFleb f (f32.ofZ 2147483647)
  then assign (appendInt (buffer stream) (float_to_int64 f) 10)
  else Return {| buffer := AppendFloat (buffer stream) (to_float64 f) "g" 6 32 |} None.

Definition appendFloat64 (stream : encoderStream) (f : float64) : ret encoderStream :=
  if SFeqb f (f64.ofZ (float_to_int64 f))
     && SFleb (f64.ofZ (-9223372036854775808)) f
     && SFleb f (f64.ofZ 9223372036854775807)
  then assign (appendInt (buffer stream) (float_to_int64 f) 10)
  else Return {| buffer := AppendFloat (buffer stream) f "g" 6 64 |} None.

Definition float32Encoder : Encoder :=
  {| appendToBytes := fun stream src =>
       match reflect.Float src with
       | None => Panic
       | Some f => appendFloat32 stream (to_float32 f)
       end |}.

Definition float64Encoder : Encoder :=
  {| appendToBytes := fun stream src =>
       match reflect.Float src with
       | None => Panic
       | Some f => appendFloat64 stream f
       end |}.

Definition stringEncoder : Encoder :=
  {| appendToBytes := fun stream src =>
       let s := reflect.String typeName src in
       assign (appendString (buffer stream) s) |}.

Definition byteSliceEncoder : Encoder :=
  {| appendToBytes := fun stream src =>
       match reflect.IsNil src with
       | None => Panic
       | Some true => Return (write stream nullString) None
       | Some false =>
           match reflect.Bytes src with
           | None => Panic
           | Some b => assign (appendBytes (buffer stream) b)
           end
       end |}.

Definition stringEncoderInst : Encoder := stringEncoder.

Definition defaultEncoder : Encoder :=
  {| appendToBytes := fun stream src => appendToBytes stringEncoderInst stream src |}.

Definition noSupportEncoder : Encoder :=
  {| appendToBytes := fun stream src =>
       match reflect.Type_ typeName src with
       | None => Panic
       | Some t => Return stream (Some ("unsupported map key type: " ++ t)%string)
       end |}.

(* ------------------------------------------------------------------ *)
(** ** The struct encoder *)

(** The field [typ] of both records is not read while encoding and is
    left out. *)
Record structField : Type := mkField
  { name : list byte; index : Z; omitempty : bool; encoder : Encoder }.

Record structEncoder : Type := mkStructEncoder
  { fields : list structField; numFields : Z; hasOmitEmpty : bool }.

Definition estimateSize (e : structEncoder) : Z :=
  fold_left (fun size field => size + (len (name field) + 4 + 20)) (fields e) 2.

(** [make] and [copy] into a larger array: the content stays. *)
Definition reserve (stream : encoderStream) (estimatedSize : Z) : encoderStream :=
  {| buffer := buffer stream |}.

(** The field name between quotes, and the colon. *)
Definition writeName (stream : encoderStream) (field : structField) : encoderStream :=
  let stream := write stream [quote] in
  let stream := write stream (name field) in
  write stream [quote; ":"%byte].

Definition encodeSingleField (e : structEncoder) (stream : encoderStream)
  (src : Value) : ret encoderStream :=
  match lookup (fields e) 0 with
  | None => Panic
  | Some field =>
      match reflect.Field src (index field) with
      | None => Panic
      | Some f =>
          if omitempty field && isEmptyValue f then
            Return (write stream ["}"%byte]) None
          else
            let stream := writeName stream field in
            stream <- appendToBytes (encoder field) stream f ;;
            Return (write stream ["}"%byte]) None
      end
  end.

(** The loop of [encodeFieldsFast], [i] being the position of the field. *)
Fixpoint encodeFieldsFastLoop (fs : list structField) (i : Z)
  (stream : encoderStream) (src : Value) : ret encoderStream :=
  match fs with
  | [] => Return stream None
  | field :: rest =>
      let stream := if i >? 0 then write stream [","%byte] else stream in
      let stream := writeName stream field in
      match reflect.Field src (index field) with
      | None => Panic
      | Some f =>
          stream <- appendToBytes (encoder field) stream f ;;
          encodeFieldsFastLoop rest (i + 1) stream src
      end
  end.

Definition encodeFieldsFast (e : structEncoder) (stream : encoderStream)
  (src : Value) : ret encoderStream :=
  stream <- encodeFieldsFastLoop (fields e) 0 stream src ;;
  Return (write stream ["}"%byte]) None.

(** The loop of [encodeFieldsWithOmitEmpty], with its flag [firstField]. *)
Fixpoint encodeFieldsWithOmitEmptyLoop (fs : list structField) (firstField : bool)
  (stream : encoderStream) (src : Value) : ret encoderStream :=
  match fs with
  | [] => Return stream None
  | field :: rest =>
      match reflect.Field src (index field) with
      | None => Panic
      | Some f =>
          if omitempty field && isEmptyValue f then
            encodeFieldsWithOmitEmptyLoop rest firstField stream src
          else
            let stream := if negb firstField then write stream [","%byte] else stream in
            let stream := writeName stream field in
            stream <- appendToBytes (encoder field) stream f ;;
            encodeFieldsWithOmitEmptyLoop rest false stream src
      end
  end.

Definition encodeFieldsWithOmitEmpty (e : structEncoder) (stream : encoderStream)
  (src : Value) : ret encoderStream :=
  stream <- encodeFieldsWithOmitEmptyLoop (fields e) true stream src ;;
  Return (write stream ["}"%byte]) None.

(** The method [appendToBytes] of the struct encoder. *)
Definition structEncoder_appendToBytes (e : structEncoder)
  (stream : encoderStream) (src : Value) : ret encoderStream :=
  match src with
  | VPtr None => Return (write stream nullString) None
  | _ =>
      let src := match src with VPtr (Some x) => x | _ => src end in
      let stream := reserve stream (estimateSize e) in
      let stream := write stream ["{"%byte] in
      if numFields e =? 0 then Return (write stream ["}"%byte]) None
      else if numFields e =? 1 then encodeSingleField e stream src
      else if hasOmitEmpty e then encodeFieldsWithOmitEmpty e stream src
      else encodeFieldsFast e stream src
  end.

Definition structEncoderOf (e : structEncoder) : Encoder :=
  {| appendToBytes := structEncoder_appendToBytes e |}.

End Encoders.

(* ================================================================== *)
(** * The stream pool and [Marshal], over a store *)
(* ================================================================== *)

(** Here slices are what they are in Go: a header that points into a
    backing array.  The store holds the backing arrays, the stream
    objects (a [*encoderStream] is the position of the object) and the
    idle streams of [encoderStreamPool]. *)
Record sliceHeader : Type := mkSlice
  { s_array : option nat; s_len : Z; s_cap : Z }.

Definition nilSlice : sliceHeader := {| s_array := None; s_len := 0; s_cap := 0 |}.

Record memory : Type := mkMemory
  { arrays : list (list byte);
    streams : list sliceHeader;
    encoderStreamPool : list nat }.

Definition emptyMemory : memory :=
  {| arrays := []; streams := []; encoderStreamPool := [] |}.

(** [make([]byte, 0, c)]: a fresh zeroed array. *)
Definition make (m : memory) (c : Z) : memory * sliceHeader :=
  ({| arrays := arrays m ++ [repeat x00 (Z.to_nat c)];
      streams := streams m;
      encoderStreamPool := encoderStreamPool m |},
   {| s_array := Some (List.length (arrays m)); s_len := 0; s_cap := c |}).

(** [stream.buffer]. *)
Definition streamBuffer (m : memory) (stream : nat) : sliceHeader :=
  nth stream (streams m) nilSlice.

Fixpoint replace_nth {A : Type} (l : list A) (n : nat) (x : A) : list A :=
  match l, n with
  | [], _ => []
  | _ :: t, O => x :: t
  | h :: t, S n' => h :: replace_nth t n' x
  end.

(** [stream.buffer = h]. *)
Definition setBuffer (m : memory) (stream : nat) (h : sliceHeader) : memory :=
  {| arrays := arrays m;
     streams := replace_nth (streams m) stream h;
     encoderStreamPool := encoderStreamPool m |}.

(** The bytes a slice shows. *)
Definition contents (m : memory) (h : sliceHeader) : list byte :=
  match s_array h with
  | Some l => firstn (Z.to_nat (s_len h)) (nth l (arrays m) [])
  | None => []
  end.

(** The [New] function of the pool: a stream with a 2048-byte buffer. *)
Definition poolNew (m : memory) : memory * nat :=
  let '(m, buf) := make m 2048 in
  ({| arrays := arrays m;
      streams := streams m ++ [buf];
      encoderStreamPool := encoderStreamPool m |},
   List.length (streams m)).

Fixpoint remove_nth {A : Type} (l : list A) (n : nat) : list A :=
  match l, n with
  | [], _ => []
  | _ :: t, O => t
  | h :: t, S n' => h :: remove_nth t n'
  end.

(** [encoderStreamPool.Get()]: the pool hands out whichever idle stream,
    here the one at [choice], or a new stream when there is none. *)
Definition poolGet (choice : nat) (m : memory) : memory * nat :=
  match nth_error (encoderStreamPool m) choice with
  | Some stream =>
      ({| arrays := arrays m;
          streams := streams m;
          encoderStreamPool := remove_nth (encoderStreamPool m) choice |},
       stream)
  | None => poolNew m
  end.

(** [encoderStreamPool.Put(stream)]. *)
Definition poolPut (m : memory) (stream : nat) : memory :=
  {| arrays := arrays m;
     streams := streams m;
     encoderStreamPool := stream :: encoderStreamPool m |}.


Definition releaseEncoderStream (m : memory) (stream : nat) : memory :=
  let buf := streamBuffer m stream in
  let m :=
    if s_cap buf >? 8192 then
      let '(m, fresh) := make m 2048 in
      setBuffer m stream fresh
    else
      setBuffer m stream {| s_array := s_array buf; s_len := 0; s_cap := s_cap buf |} in
  poolPut m stream.

Definition mapLen {A : Type} (kvs : option (list A)) : Z :=
  match kvs with Some l => len l | None => 0 end.

Definition estimateJSONSize (v : Value) : Z :=
  match v with
  | VMap EInterface kvs => mapLen kvs * 32
  | VSlice EInterface xs => mapLen xs * 16
  | VString s => len s + 16
  | VMap EString kvs => mapLen kvs * 24
  | VSlice EString xs => mapLen xs * 12
  | _ => 256
  end.

Definition getEncoderStreamWithSize (choice : nat) (m : memory) (estimatedSize : Z)
  : memory * nat :=
  let '(m, stream) := poolGet choice m in
  if s_cap (streamBuffer m stream) <? estimatedSize then
    let '(m, fresh) := make m estimatedSize in
    (setBuffer m stream fresh, stream)
  else (m, stream).

(** [append([]byte(nil), buf...)]: nothing to copy leaves the nil slice,
    otherwise the bytes go to a fresh array. *)
Definition copyOut (m : memory) (buf : sliceHeader) : memory * sliceHeader :=
  match contents m buf with
  | [] => (m, nilSlice)
  | c =>
      ({| arrays := arrays m ++ [c];
          streams := streams m;
          encoderStreamPool := encoderStreamPool m |},
       {| s_array := Some (List.length (arrays m)); s_len := len c; s_cap := len c |})
  end.

(** How a call on a stream ends: with its error result, or in a panic. *)
Inductive status : Type :=
| Finished (err : option error)
| Panicked.

Section Marshal.

(** [encodeValueToBytes], the dispatcher on the type of the value, is
    declared outside the files at hand: any function on the store. *)
Variable encodeValueToBytes : memory -> nat -> Value -> memory * status.

(** [Marshal]; the deferred release runs on every way out. *)
Definition Marshal (choice : nat) (m : memory) (v : Value)
  : memory * ret sliceHeader :=
  let estimatedSize := estimateJSONSize v in
  let '(m, stream) := getEncoderStreamWithSize choice m estimatedSize in
  let '(m, st) := encodeValueToBytes m stream v in
  let '(m, result) :=
    match st with
    | Panicked => (m, Panic)
    | Finished (Some err) => (m, Return nilSlice (Some err))
    | Finished None =>
        let '(m, result) := copyOut m (streamBuffer m stream) in
        (m, Return result None)
    end in
  (releaseEncoderStream m stream, result).

End Marshal.

(** An encoder of the content level run on a stream of the store: the
    bytes it leaves in [stream.buffer] stay in the backing array while
    they fit its capacity and move to a larger array otherwise. *)
Definition storeContent (m : memory) (stream : nat) (buf : list byte) : memory :=
  let h := streamBuffer m stream in
  match s_array h with
  | Some l =>
      if len buf <=? s_cap h then
        {| arrays := replace_nth (arrays m) l
                       (buf ++ skipn (List.length buf) (nth l (arrays m) []));
           streams := replace_nth (streams m) stream
                        {| s_array := Some l; s_len := len buf; s_cap := s_cap h |};
           encoderStreamPool := encoderStreamPool m |}
      else
        {| arrays := arrays m ++ [buf ++ repeat x00 (List.length buf)];
           streams := replace_nth (streams m) stream
                        {| s_array := Some (List.length (arrays m));
                           s_len := len buf; s_cap := 2 * len buf |};
           encoderStreamPool := encoderStreamPool m |}
  | None =>
      {| arrays := arrays m ++ [buf ++ repeat x00 (List.length buf)];
         streams := replace_nth (streams m) stream
                      {| s_array := Some (List.length (arrays m));
                         s_len := len buf; s_cap := 2 * len buf |};
         encoderStreamPool := encoderStreamPool m |}
  end.

Definition runEncoder (enc : Encoder) (m : memory) (stream : nat) (v : Value)
  : memory * status :=
  match appendToBytes enc {| buffer := contents m (streamBuffer m stream) |} v with
  | Return s err => (storeContent m stream (buffer s), Finished err)
  | Panic => (m, Panicked)
  end.

(** Every stream points into the store. *)
Definition allocated (m : memory) (h : sliceHeader) : bool :=
  match s_array h with
  | Some l => (l <? List.length (arrays m))%nat
  | None => true
  end.

Definition wf (m : memory) : bool := forallb (allocated m) (streams m).

(** The state of a buffer that rests in the pool. *)
Definition idle (h : sliceHeader) : Prop := s_len h = 0 /\ s_cap h <= 8192.

Definition poolInvariant (m : memory) : Prop :=
  Forall (fun stream => idle (streamBuffer m stream)) (encoderStreamPool m).

(** The streams of the pool are distinct objects of the store. *)
Definition poolDistinct (m : memory) : Prop :=
  NoDup (encoderStreamPool m)
  /\ Forall (fun stream => (stream < List.length (streams m))%nat) (encoderStreamPool m).

(** The buffer a release leaves in the stream. *)
Definition released (m : memory) (old : sliceHeader) : sliceHeader :=
  if s_cap old >? 8192 then
    {| s_array := Some (List.length (arrays m)); s_len := 0; s_cap := 2048 |}
  else {| s_array := s_array old; s_len := 0; s_cap := s_cap old |}.


(* ================================================================== *)
(** * What the specification says, in its own words *)
(* ================================================================== *)

(** ** JSON strings *)

Definition hexDigit (d : Z) : byte := nth (Z.to_nat d) (bytes "0123456789abcdef") x00.

(** The escaped form of a byte: the named escapes first, then the
    [\u00XX] form for what is left of the control bytes 0..31; every
    other byte stands for itself. *)
Definition escapedForm (c : byte) : list byte :=
  if Byte.eqb c x0a then [backslash; "n"%byte]
  else if Byte.eqb c x09 then [backslash; "t"%byte]
  else if Byte.eqb c x0d then [backslash; "r"%byte]
  else if Byte.eqb c x08 then [backslash; "b"%byte]
  else if Byte.eqb c x0c then [backslash; "f"%byte]
  else if Byte.eqb c quote then [backslash; quote]
  else if Byte.eqb c backslash then [backslash; backslash]
  else if byte_val c <? 32 then
    [backslash; "u"%byte; "0"%byte; "0"%byte;
     hexDigit (byte_val c / 16); hexDigit (byte_val c mod 16)]
  else [c].

(** A safe byte: printable ASCII other than the quote and the backslash. *)
Definition safeByte (c : byte) : bool :=
  (32 <=? byte_val c) && (byte_val c <? 127)
  && negb (Byte.eqb c quote) && negb (Byte.eqb c backslash).

(** The rendering of a text as a JSON string. *)
Definition jsonString (s : list byte) : list byte :=
  quote :: flat_map escapedForm s ++ [quote].

Definition isHex (c : byte) : bool :=
  inRange "0" "9" c || inRange "a" "f" c || inRange "A" "F" c.

(** The content of a JSON string in which a control byte, a quote or a
    backslash occurs in escaped form only: a backslash opens one of the
    escapes, and no control byte and no quote stands outside of one. *)
Fixpoint escapedOnly (out : list byte) : bool :=
  match out with
  | [] => true
  | c :: rest =>
      if Byte.eqb c backslash then
        match rest with
        | [] => false
        | e :: rest' =>
            if existsb (Byte.eqb e) [quote; backslash; "b"; "f"; "n"; "r"; "t"]%byte
            then escapedOnly rest'
            else if Byte.eqb e "u" then
              match rest' with
              | h1 :: h2 :: h3 :: h4 :: rest'' =>
                  isHex h1 && isHex h2 && isHex h3 && isHex h4 && escapedOnly rest''
              | _ => false
              end
            else false
        end
      else if (byte_val c <? 32) || Byte.eqb c quote then false
      else escapedOnly rest
  end.

(** A byte of a multi-byte UTF-8 sequence. *)
Definition high (b : byte) : Prop := 128 <= byte_val b.

(** ** JSON objects *)

(** One member: the key between quotes, a colon, the rendered value. *)
Definition member (key out : list byte) : list byte :=
  quote :: key ++ [quote; ":"%byte] ++ out.

(** The members with one comma between two neighbours. *)
Fixpoint joinComma (items : list (list byte)) : list byte :=
  match items with
  | [] => []
  | [x] => x
  | x :: rest => x ++ ","%byte :: joinComma rest
  end.

Definition object (members : list (list byte)) : list byte :=
  "{"%byte :: joinComma members ++ ["}"%byte].

Fixpoint members (keys outs : list (list byte)) : list (list byte) :=
  match keys, outs with
  | k :: keys', o :: outs' => member k o :: members keys' outs'
  | _, _ => []
  end.

Section StructSpec.

Variable isEmptyValue : Value -> bool.

(** The encoder holds the count and the flag that its fields give. *)
Definition wellFormed (e : structEncoder) : Prop :=
  numFields e = len (fields e)
  /\ hasOmitEmpty e = existsb omitempty (fields e).

(** The field of [src] is zero-valued and marked [omitempty]. *)
Definition omitted (src : Value) (field : structField) : Prop :=
  exists f, reflect.Field src (index field) = Some f
            /\ omitempty field = true /\ isEmptyValue f = true.

(** The field of [src] is to be written, and its encoder renders it
    as [out]. *)
Definition emits (src : Value) (field : structField) (out : list byte) : Prop :=
  exists f, reflect.Field src (index field) = Some f
            /\ omitempty field && isEmptyValue f = false
            /\ forall stream,
                 appendToBytes (encoder field) stream f = Return (write stream out) None.

(** What a field contributes: its rendered value, or nothing when it
    is left out. *)
Definition fieldOutcome (src : Value) (field : structField)
  (o : option (list byte)) : Prop :=
  match o with
  | Some out => emits src field out
  | None => omitted src field
  end.

End StructSpec.

(** The members of the fields that are written. *)
Fixpoint kept (fs : list structField) (os : list (option (list byte)))
  : list (list byte) :=
  match fs, os with
  | field :: fs', Some out :: os' => member (name field) out :: kept fs' os'
  | _ :: fs', None :: os' => kept fs' os'
  | _, _ => []
  end.

(** The bytes a loop with the flag [firstField] writes for the members. *)
Fixpoint joinFrom (firstField : bool) (items : list (list byte)) : list byte :=
  match items with
  | [] => []
  | x :: rest => (if firstField then [] else [","%byte]) ++ x ++ joinFrom false rest
  end.

(* ================================================================== *)
(** * Sample values *)
(* ================================================================== *)

Module Sample.

Definition typeName (v : Value) : string :=
  match v with
  | VBool _ => "bool"
  | VInt _ => "int"
  | VUint _ => "uint"
  | VFloat _ => "float64"
  | VString _ => "string"
  | VBytes _ => "[]uint8"
  | _ => "T"
  end.

(** Zero numbers, the empty text, [false] and nil references are empty. *)
Definition isEmptyValue (v : Value) : bool :=
  match v with
  | VBool b => negb b
  | VInt i => i =? 0
  | VUint u => u =? 0
  | VString [] => true
  | VBytes None | VBytes (Some []) => true
  | VSlice _ None | VSlice _ (Some []) => true
  | VMap _ None | VMap _ (Some []) => true
  | VPtr None => true
  | _ => false
  end.

(** [struct { A int `json:"a"`; B string `json:"b,omitempty"`;
             C int `json:"c,omitempty"` }]. *)
Definition fieldA : structField := mkField (bytes "a") 0 false intEncoder.
Definition fieldB : structField := mkField (bytes "b") 1 true (stringEncoder typeName).
Definition fieldC : structField := mkField (bytes "c") 2 true intEncoder.

Definition abc : structEncoder := mkStructEncoder [fieldA; fieldB; fieldC] 3 true.
Definition bc : structEncoder := mkStructEncoder [fieldB; fieldC] 2 true.
Definition none : structEncoder := mkStructEncoder [] 0 false.

End Sample.

(* ================================================================== *)
(** * The vocabulary of the further results *)
(* ================================================================== *)

(** The value of a digit character, 0 for any other byte. *)
Definition digitOf (d : byte) : Z :=
  match digitValue d with
  | Some v => byte_val v
  | None => 0
  end.

(** A digit character of [base]. *)
Definition validDigit (base : Z) (d : byte) : bool :=
  match digitValue d with
  | Some v => byte_val v <? base
  | None => false
  end.

(** The number the digit string [ds] denotes in [base], on top of [n]. *)
Definition numeral (base : Z) (ds : list byte) (n : Z) : Z :=
  fold_left (fun n d => n * base + digitOf d) ds n.

(** The value fits the width that [bitSize] asks for. *)
Definition fitsUint (bitSize n : Z) : bool :=
  if bitSize =? 8 then n <=? MaxUint8
  else if bitSize =? 16 then n <=? MaxUint16
  else if bitSize =? 32 then n <=? MaxUint32
  else true.

Definition fitsInt (bitSize n : Z) : bool :=
  if bitSize =? 8 then (MinInt8 <=? n) && (n <=? MaxInt8)
  else if bitSize =? 16 then (MinInt16 <=? n) && (n <=? MaxInt16)
  else if bitSize =? 32 then (MinInt32 <=? n) && (n <=? MaxInt32)
  else true.

(** The error of the width check. *)
Definition uintRangeError (bitSize : Z) : error :=
  if bitSize =? 8 then "数值超出uint8范围"%string
  else if bitSize =? 16 then "数值超出uint16范围"%string
  else "数值超出uint32范围"%string.

Definition intRangeError (bitSize : Z) : error :=
  if bitSize =? 8 then "数值超出int8范围"%string
  else if bitSize =? 16 then "数值超出int16范围"%string
  else "数值超出int32范围"%string.

(** The result is an error (with the zero value). *)
Definition failed {A : Type} (zero : A) (r : ret A) : Prop :=
  exists msg, r = Return zero (Some msg).


(** The decimal numeral of a signed number. *)
Definition signedDecimal (i : Z) : list byte :=
  (if i <? 0 then ["-"%byte] else []) ++ decimal (Z.abs i).

(** The input starts with an exponent mark. *)
Definition startsWithExpMark (b : list byte) : bool :=
  match b with
  | c :: _ => isExpMark c
  | [] => false
  end.

(** The bytes the pair loop writes for one pair: a pair below ten gets a
    single digit. *)
Definition pairBytes (r : Z) : list byte :=
  if r <? 10 then [strconv.digitChar r]
  else [strconv.digitChar (r / 10); strconv.digitChar (r mod 10)].

(** The bytes [appendUintOptimized] writes for [u], pair by pair. *)
Fixpoint pairsBytes (fuel : nat) (u : Z) : list byte :=
  match fuel with
  | O => pairBytes u
  | S fuel' =>
      if u >=? 100 then pairsBytes fuel' (u / 100) ++ pairBytes (u mod 100)
      else pairBytes u
  end.

(** Every pair of [u] after the leading one is at least ten. *)
Fixpoint pairsFull (fuel : nat) (u : Z) : bool :=
  match fuel with
  | O => true
  | S fuel' =>
      if u >=? 100 then (10 <=? u mod 100) && pairsFull fuel' (u / 100) else true
  end.

(** No member has been written yet. *)
Definition noneKept (items : list (list byte)) : bool :=
  match items with [] => true | _ => false end.

(** ** Reading a JSON string back *)

(** The value of a hexadecimal digit. *)
Definition hexValue (c : byte) : option Z :=
  if inRange "0" "9" c then Some (byte_val c - 48)
  else if inRange "a" "f" c then Some (byte_val c - 87)
  else if inRange "A" "F" c then Some (byte_val c - 55)
  else None.

(** The byte a named escape stands for. *)
Definition namedEscape (e : byte) : option byte :=
  if Byte.eqb e quote then Some quote
  else if Byte.eqb e backslash then Some backslash
  else if Byte.eqb e "b" then Some x08
  else if Byte.eqb e "f" then Some x0c
  else if Byte.eqb e "n" then Some x0a
  else if Byte.eqb e "r" then Some x0d
  else if Byte.eqb e "t" then Some x09
  else None.

(** A reference reader for the content of a JSON string, on bytes: a
    named escape or a [\u00XX] escape gives its byte, any other byte but
    a quote, a backslash and a control byte stands for itself. *)
Fixpoint unescape (out : list byte) : option (list byte) :=
  match out with
  | [] => Some []
  | c :: rest =>
      if Byte.eqb c backslash then
        match rest with
        | [] => None
        | e :: rest' =>
            match namedEscape e with
            | Some b => option_map (cons b) (unescape rest')
            | None =>
                if Byte.eqb e "u" then
                  match rest' with
                  | h1 :: h2 :: h3 :: h4 :: rest'' =>
                      match hexValue h1, hexValue h2, hexValue h3, hexValue h4 with
                      | Some 0, Some 0, Some a, Some b =>
                          option_map (cons (byte_of (16 * a + b))) (unescape rest'')
                      | _, _, _, _ => None
                      end
                  | _ => None
                  end
                else None
            end
        end
      else if (byte_val c <? 32) || Byte.eqb c quote then None
      else option_map (cons c) (unescape rest)
  end.

(** A byte that the encoders do not copy as it is. *)
Definition needsEscape (c : byte) : bool :=
  (byte_val c <? 32) || Byte.eqb c quote || Byte.eqb c backslash.

(** The store between two calls: every buffer in the pool is idle, the
    streams of the pool are distinct objects, and every stream points
    into the store. *)
Definition poolReady (m : memory) : Prop :=
  poolInvariant m /\ poolDistinct m /\ wf m = true.

(** The array [l] is in the store and is the array of no stream: only
    slices outside of the pool show it. *)
Definition untouched (l : nat) (m : memory) : Prop :=
  (l < List.length (arrays m))%nat
  /\ forall id, s_array (streamBuffer m id) <> Some l.

(** A step of the store that leaves such an array and its bytes alone. *)
Definition frame (m m' : memory) : Prop :=
  forall l, untouched l m ->
            untouched l m' /\ nth l (arrays m') [] = nth l (arrays m) [].

(* ================================================================== *)
(** * Results: integer rendering *)
(* ================================================================== *)

Lemma lookup_Some {A : Type} (l : list A) (i : Z) :
  0 <= i < len l -> exists x, lookup l i = Some x.
Proof.
  intros [Hlo Hhi]. unfold lookup, len in *.
  destruct (Z.ltb_spec i 0) as [Hneg | _]; [lia |].
  destruct (nth_error l (Z.to_nat i)) as [x |] eqn:E; [now exists x |].
  apply nth_error_None in E. lia.
Qed.

Lemma set_nth_length {A : Type} (l : list A) (n : nat) (x : A) (l' : list A) :
  set_nth l n x = Some l' -> List.length l' = List.length l.
Proof.
  revert n l'. induction l as [| h t IH]; intros n l' E; [destruct n; discriminate |].
  destruct n as [| n]; cbn in E.
  - injection E as <-. reflexivity.
  - destruct (set_nth t n x) as [t' |] eqn:Et; [| discriminate].
    injection E as <-. cbn. f_equal. eapply IH, Et.
Qed.

Lemma set_nth_Some {A : Type} (l : list A) (n : nat) (x : A) :
  (n < List.length l)%nat -> exists l', set_nth l n x = Some l'.
Proof.
  revert n. induction l as [| h t IH]; intros n Hn; cbn in Hn; [lia |].
  destruct n as [| n]; cbn; [eauto |].
  destruct (IH n ltac:(lia)) as [t' ->]. cbn. eauto.
Qed.

Lemma store_Some {A : Type} (l : list A) (i : Z) (x : A) :
  0 <= i < len l -> exists l', store l i x = Some l' /\ len l' = len l.
Proof.
  intros [Hlo Hhi]. unfold store, len in *.
  destruct (Z.ltb_spec i 0) as [Hneg | _]; [lia |].
  destruct (set_nth_Some l (Z.to_nat i) x ltac:(lia)) as [l' E].
  exists l'. split; [exact E |]. f_equal. eapply set_nth_length, E.
Qed.

(** The rendering of the smallest [int64]: the negation wraps back to the
    same value, whose conversion to [uint64] is the magnitude. *)
Lemma appendInt_MinInt64 :
  appendInt [] MinInt64 10 = Some (bytes "-9223372036854775808").
Proof. vm_compute. reflexivity. Qed.

Lemma appendUint_MaxUint64 :
  appendUint [] MaxUint64 10 = Some (bytes "18446744073709551615").
Proof. vm_compute. reflexivity. Qed.

(** Above the optimised range the rendering is the library's. *)
Lemma appendUint_large (dst : list byte) (u : Z) :
  100000000 <= u -> appendUint dst u 10 = Some (dst ++ decimal u).
Proof.
  intros Hu. unfold appendUint.
  destruct (Z.ltb_spec u 10); [lia |].
  destruct (Z.ltb_spec u 10000); [lia |].
  destruct (Z.ltb_spec u 100000000); [lia |].
  reflexivity.
Qed.

(** C1.  [appendUint] does not append the decimal numeral of every
    [uint64]: between 10 000 and 100 000 000 the two-digits-per-round loop
    of [appendUintOptimized] writes a single digit for a pair below ten
    and loses the zero in front of it, so that the numeral is short and
    the pre-sized span keeps zero bytes.  For 10005 the bytes appended are
    0, 0, '1', '0', '5', where the decimal numeral is "10005"; [appendInt]
    inherits the defect. *)
Theorem appendUint_10005_loses_zero :
  appendUint [] 10005 10 = Some [x00; x00; "1"; "0"; "5"]%byte
  /\ decimal 10005 = bytes "10005"
  /\ appendUint [] 10005 10 <> Some (decimal 10005)
  /\ appendInt [] (-10005) 10 = Some ["-"; x00; x00; "1"; "0"; "5"]%byte.
Proof.
  repeat split; try (vm_compute; reflexivity).
  vm_compute. discriminate.
Qed.

(* ================================================================== *)
(** * Results: integer parsing *)
(* ================================================================== *)


(** C2.  The overflow test of the parsers looks at the accumulator before
    the multiplication only.  With the accumulator equal to [Max / base]
    the test passes and the last digit carries the sum over the top:
    "9223372036854775808" wraps to [MinInt64] where saturation gives
    [MaxInt64], "-9223372036854775809" comes out as [MaxInt64] where it
    gives [MinInt64], and "18446744073709551616" wraps to 0 where it gives
    [MaxUint64], each time without an error. *)
Theorem parse_wraps_at_the_boundary :
  parseIntFromBytes (bytes "9223372036854775808") 10 64 = Return MinInt64 None
  /\ parseIntFromBytes (bytes "-9223372036854775809") 10 64 = Return MaxInt64 None
  /\ parseUintFromBytes (bytes "18446744073709551616") 10 64 = Return 0 None.
Proof. repeat split; vm_compute; reflexivity. Qed.

(* ================================================================== *)
(** * Results: float parsing *)
(* ================================================================== *)

Lemma parseFloat_empty (bitSize : Z) :
  parseFloatFromBytes [] bitSize = Return f64.zero (Some "空字节切片"%string).
Proof. reflexivity. Qed.

Lemma parseFloat_bare_sign (bitSize : Z) :
  parseFloatFromBytes (bytes "+") bitSize = Return f64.zero (Some "无效的数字格式"%string)
  /\ parseFloatFromBytes (bytes "-") bitSize = Return f64.zero (Some "无效的数字格式"%string).
Proof. split; reflexivity. Qed.

Lemma parseFloat_malformed_exponent (bitSize : Z) :
  parseFloatFromBytes (bytes "1e") bitSize
  = Return f64.zero (Some "无效的指数格式"%string)
  /\ parseFloatFromBytes (bytes "1E+") bitSize
     = Return f64.zero (Some "无效的指数格式"%string)
  /\ parseFloatFromBytes (bytes "1.5e-") bitSize
     = Return f64.zero (Some "无效的指数格式"%string)
  /\ parseFloatFromBytes (bytes "1e5x") bitSize
     = Return f64.zero (Some "无效的指数字符"%string).
Proof. repeat split; reflexivity. Qed.

(** C7.  [parseFloatFromBytes] panics on an input that begins with the
    exponent mark: the integer loop stops at once with [i = 0], and the
    test for the fractional part then reads [b[i-1]], the index -1. *)
Theorem parseFloat_panics_on_leading_exponent_mark (rest : list byte) (bitSize : Z) :
  parseFloatFromBytes ("e"%byte :: rest) bitSize = Panic
  /\ parseFloatFromBytes ("E"%byte :: rest) bitSize = Panic.
Proof.
  split; unfold parseFloatFromBytes; cbn -[len];
    (replace (0 <? len _) with true by (symmetry; apply Z.ltb_lt; unfold len; cbn; lia));
    reflexivity.
Qed.

(* ================================================================== *)
(** * Results: the renderers never panic *)
(* ================================================================== *)

Lemma len_app {A : Type} (l1 l2 : list A) : len (l1 ++ l2) = len l1 + len l2.
Proof. unfold len. rewrite length_app. lia. Qed.

Lemma len_repeat {A : Type} (x : A) (n : nat) : len (repeat x n) = Z.of_nat n.
Proof. unfold len. now rewrite repeat_length. Qed.

Lemma len_nonneg {A : Type} (l : list A) : 0 <= len l.
Proof. unfold len. lia. Qed.

Lemma countDigits_bound (fuel : nat) :
  forall temp digitCount,
    (0 < fuel)%nat -> 0 <= temp < 10 ^ Z.of_nat fuel ->
    digitCount < countDigits fuel temp digitCount
    /\ temp < 10 ^ (countDigits fuel temp digitCount - digitCount).
Proof.
  induction fuel as [| fuel IH]; intros temp dc Hfuel Htemp; [lia |].
  cbn [countDigits].
  destruct (Z.eqb_spec (temp / 10) 0) as [E | NE].
  - split; [lia |]. replace (dc + 1 - dc) with 1 by lia.
    assert (temp < 10) by (apply Z.div_small_iff in E; lia). lia.
  - assert (Hq : 0 <= temp / 10 < 10 ^ Z.of_nat fuel).
    { split; [apply Z.div_pos; lia |].
      apply Z.div_lt_upper_bound; [lia |].
      replace (Z.of_nat (S fuel)) with (Z.of_nat fuel + 1) in Htemp by lia.
      rewrite Z.pow_add_r in Htemp by lia. lia. }
    assert (Hf : (0 < fuel)%nat).
    { destruct fuel; [cbn in Hq; lia | lia]. }
    destruct (IH (temp / 10) (dc + 1) Hf Hq) as [H1 H2].
    split; [lia |].
    set (r := countDigits fuel (temp / 10) (dc + 1)) in *.
    replace (r - dc) with ((r - (dc + 1)) + 1) by lia.
    rewrite Z.pow_add_r by lia.
    pose proof (Z.div_mod temp 10 ltac:(lia)) as Hdm.
    pose proof (Z.mod_pos_bound temp 10 ltac:(lia)). lia.
Qed.

Lemma digits_length : len digits = 10000.
Proof. unfold len, digits. rewrite length_map, length_seq. lia. Qed.

(** The entries of [digits] from 10 to 99 are the two digits of the index. *)
Lemma digits_two (r : Z) :
  10 <= r < 100 ->
  lookup digits r = Some [strconv.digitChar (r / 10); strconv.digitChar (r mod 10)].
Proof.
  intros Hr. unfold lookup.
  destruct (Z.ltb_spec r 0) as [H | _]; [lia |].
  unfold digits. rewrite nth_error_map.
  rewrite (nth_error_nth' _ 0%nat) by (rewrite length_seq; lia).
  rewrite seq_nth by lia. cbn [option_map Nat.add].
  rewrite Z2Nat.id by lia.
  unfold strconv.AppendInt. cbn [strconv.legalBase Z.leb Z.compare Pos.compare
    Pos.compare_cont andb].
  destruct (Z.ltb_spec r 0) as [H | _]; [lia |].
  cbn [app]. change 64%nat with (S (S 62)). cbn [strconv.formatBits].
  destruct (Z.ltb_spec r 10) as [H | _]; [lia |].
  destruct (Z.ltb_spec (r / 10) 10) as [_ | H]; [reflexivity |].
  exfalso. assert (r / 10 < 10) by (apply Z.div_lt_upper_bound; lia). lia.
Qed.

Lemma lookup_pair_0 {A : Type} (a b : A) : lookup [a; b] 0 = Some a.
Proof. reflexivity. Qed.

Lemma lookup_pair_1 {A : Type} (a b : A) : lookup [a; b] 1 = Some b.
Proof. reflexivity. Qed.

Lemma pow10_pos_ge (u pos k : Z) :
  10 ^ k <= u -> u < 10 ^ (pos + 1) -> 0 <= k -> k <= pos.
Proof.
  intros Hu Hp Hk. destruct (Z_lt_le_dec pos k) as [Hlt | Hge]; [| exact Hge].
  exfalso.
  assert (10 ^ (pos + 1) <= 10 ^ k).
  { destruct (Z_lt_le_dec (pos + 1) 0) as [Hn | Hn].
    - rewrite (Z.pow_neg_r 10 (pos + 1)) by lia.
      apply Z.lt_le_incl, Z.pow_pos_nonneg; lia.
    - apply Z.pow_le_mono_r; lia. }
  lia.
Qed.

Lemma div100_bound (u pos : Z) :
  0 <= u -> 2 <= pos -> u < 10 ^ (pos + 1) -> u / 100 < 10 ^ (pos - 1).
Proof.
  intros Hu Hp Hb. apply Z.div_lt_upper_bound; [lia |].
  replace (pos + 1) with (2 + (pos - 1)) in Hb by lia.
  rewrite Z.pow_add_r in Hb by lia. lia.
Qed.

(** The pair loop neither leaves the span nor runs out of rounds. *)
Lemma fillPairs_total (fuel : nat) :
  forall dst pos u,
    0 <= u < 100 * 100 ^ Z.of_nat fuel ->
    0 <= pos < len dst -> u < 10 ^ (pos + 1) ->
    exists dst' pos' u',
      fillPairs fuel dst pos u = Some (dst', pos', u')
      /\ len dst' = len dst /\ 0 <= pos' < len dst'
      /\ 0 <= u' < 100 /\ u' < 10 ^ (pos' + 1).
Proof.
  induction fuel as [| fuel IH]; intros dst pos u Hu Hpos Hb.
  - cbn [fillPairs]. cbn in Hu.
    destruct (Z.geb_spec u 100) as [H | H]; [lia |].
    exists dst, pos, u. repeat split; lia.
  - cbn [fillPairs].
    destruct (Z.geb_spec u 100) as [Hge | Hlt];
      [| exists dst, pos, u; repeat split; lia].
    assert (Hp2 : 2 <= pos) by (apply (pow10_pos_ge u pos 2); cbn; lia).
    assert (Hq : 0 <= u / 100 < 100 * 100 ^ Z.of_nat fuel).
    { split; [apply Z.div_pos; lia |].
      apply Z.div_lt_upper_bound; [lia |].
      replace (Z.of_nat (S fuel)) with (Z.of_nat fuel + 1) in Hu by lia.
      rewrite Z.pow_add_r in Hu by lia. lia. }
    pose proof (div100_bound u pos ltac:(lia) Hp2 Hb) as Hqb.
    pose proof (Z.mod_pos_bound u 100 ltac:(lia)) as Hr.
    destruct (Z.ltb_spec (u mod 100) 10) as [Hr10 | Hr10].
    + destruct (lookup_Some singleDigits (u mod 100)) as [c ->];
        [unfold len; cbn; lia |].
      destruct (store_Some dst pos c Hpos) as [dst1 [-> Hl1]].
      destruct (IH dst1 (pos - 1) (u / 100) Hq ltac:(lia)) as (d & p & v & E & R).
      { eapply Z.lt_le_trans; [exact Hqb |].
        apply Z.pow_le_mono_r; lia. }
      exists d, p, v. rewrite E. intuition lia.
    + rewrite digits_two by lia. rewrite lookup_pair_1, lookup_pair_0.
      destruct (store_Some dst pos (strconv.digitChar (u mod 100 mod 10)) Hpos)
        as [dst1 [-> Hl1]].
      destruct (store_Some dst1 (pos - 1) (strconv.digitChar (u mod 100 / 10))
                  ltac:(lia)) as [dst2 [-> Hl2]].
      destruct (IH dst2 (pos - 2) (u / 100) Hq ltac:(lia)) as (d & p & v & E & R).
      { replace (pos - 2 + 1) with (pos - 1) by lia. exact Hqb. }
      exists d, p, v. rewrite E. intuition lia.
Qed.

Lemma appendUintOptimized_total (dst : list byte) (u : Z) :
  0 <= u < 100000000 -> exists out, appendUintOptimized dst u = Some out.
Proof.
  intros Hu. unfold appendUintOptimized.
  assert (H64 : 0 <= u < 10 ^ Z.of_nat 64) by (split; [lia |];
    eapply Z.lt_trans; [apply Hu | vm_compute; reflexivity]).
  destruct (countDigits_bound 64 u 0 ltac:(lia) H64) as [Hn Hb].
  set (n := countDigits 64 u 0) in *. rewrite Z.sub_0_r in Hb.
  destruct (fillPairs_total 64 (dst ++ repeat x00 (Z.to_nat n)) (len dst + n - 1) u)
    as (d & p & v & -> & Hl & Hp & Hv & Hvb).
  - split; [lia |]. eapply Z.lt_trans; [apply Hu | vm_compute; reflexivity].
  - rewrite len_app, len_repeat. pose proof (len_nonneg dst). lia.
  - eapply Z.lt_le_trans; [exact Hb |].
    apply Z.pow_le_mono_r; pose proof (len_nonneg dst); lia.
  - destruct (Z.geb_spec v 10) as [Hge | Hlt].
    + assert (1 <= p) by (apply (pow10_pos_ge v p 1); cbn; lia).
      rewrite digits_two by lia. rewrite lookup_pair_1, lookup_pair_0.
      destruct (store_Some d p (strconv.digitChar (v mod 10)) Hp) as [d1 [-> Hl1]].
      destruct (store_Some d1 (p - 1) (strconv.digitChar (v / 10)) ltac:(lia))
        as [d2 [-> _]].
      eauto.
    + destruct (lookup_Some singleDigits v) as [c ->]; [unfold len; cbn; lia |].
      destruct (store_Some d p c Hp) as [d1 [-> _]]. eauto.
Qed.

Lemma appendUint_total (dst : list byte) (u : Z) :
  0 <= u -> exists out, appendUint dst u 10 = Some out.
Proof.
  intros Hu. unfold appendUint.
  destruct (Z.ltb_spec u 10).
  { destruct (lookup_Some singleDigits u) as [c ->]; [unfold len; cbn; lia |].
    cbn. eauto. }
  destruct (Z.ltb_spec u 10000).
  { destruct (lookup_Some digits u) as [s ->]; [rewrite digits_length; lia |].
    cbn. eauto. }
  destruct (Z.ltb_spec u 100000000).
  { apply appendUintOptimized_total. lia. }
  unfold strconv.AppendUint. cbn. eauto.
Qed.

Lemma appendInt_total (dst : list byte) (i : Z) :
  exists out, appendInt dst i 10 = Some out.
Proof.
  unfold appendInt. destruct (i <? 0); apply appendUint_total;
    unfold uint64; apply Z.mod_pos_bound; reflexivity.
Qed.

(** ** Where the rendering is exact *)

Lemma digits_lookup (u : Z) :
  0 <= u < 10000 -> lookup digits u = Some (decimal u).
Proof.
  intros Hu. unfold lookup.
  destruct (Z.ltb_spec u 0) as [H | _]; [lia |].
  unfold digits. rewrite nth_error_map.
  rewrite (nth_error_nth' _ 0%nat) by (rewrite length_seq; lia).
  rewrite seq_nth by lia. cbn [option_map Nat.add].
  rewrite Z2Nat.id by lia.
  unfold strconv.AppendInt, decimal.
  change (strconv.legalBase 10) with true. cbv iota.
  destruct (Z.ltb_spec u 0) as [H | _]; [lia | reflexivity].
Qed.

(** Below 10 000 the two tables hold the decimal numeral. *)
Lemma appendUint_small (dst : list byte) (u : Z) :
  0 <= u < 10000 -> appendUint dst u 10 = Some (dst ++ decimal u).
Proof.
  intros Hu. unfold appendUint.
  destruct (Z.ltb_spec u 10) as [Hlt | Hge].
  - assert (Hcases : u = 0 \/ u = 1 \/ u = 2 \/ u = 3 \/ u = 4
                     \/ u = 5 \/ u = 6 \/ u = 7 \/ u = 8 \/ u = 9) by lia.
    repeat (destruct Hcases as [-> | Hcases]; [reflexivity |]).
    subst u. reflexivity.
  - destruct (Z.ltb_spec u 10000) as [_ | H]; [| lia].
    rewrite digits_lookup by lia. reflexivity.
Qed.

(* ================================================================== *)
(** * Results: string escaping *)
(* ================================================================== *)

(** ** One byte *)

Lemma escapeStringToBytes_app (buf : list byte) (c : byte) :
  escapeStringToBytes buf c = option_map (app buf) (escapeStringToBytes [] c).
Proof.
  unfold escapeStringToBytes.
  repeat match goal with |- context [if ?b then _ else _] => destruct b end;
    try reflexivity.
  destruct (lookup unicodeHex (byte_val c)); reflexivity.
Qed.

Lemma escapeStringToBytes_nil (c : byte) :
  escapeStringToBytes [] c = Some (escapedForm c).
Proof. destruct c; vm_compute; reflexivity. Qed.

Lemma escapeStringToBytes_spec (buf : list byte) (c : byte) :
  escapeStringToBytes buf c = Some (buf ++ escapedForm c).
Proof. rewrite escapeStringToBytes_app, escapeStringToBytes_nil. reflexivity. Qed.

Lemma safeSet_spec (c : byte) :
  byte_val c < 128 -> isSafe c = Some (safeByte c).
Proof.
  destruct c; intros H; try (vm_compute; reflexivity); vm_compute in H; discriminate.
Qed.

Lemma safeByte_verbatim (c : byte) : safeByte c = true -> escapedForm c = [c].
Proof. destruct c; intros H; try reflexivity; vm_compute in H; discriminate. Qed.

Lemma high_verbatim (c : byte) : 128 <= byte_val c -> escapedForm c = [c].
Proof.
  destruct c; intros H; try reflexivity; exfalso; apply H; vm_compute; reflexivity.
Qed.

Lemma escapedOnly_escapedForm (c : byte) (rest : list byte) :
  escapedOnly (escapedForm c ++ rest) = escapedOnly rest.
Proof. destruct c; reflexivity. Qed.

Lemma len_cons {A : Type} (x : A) (l : list A) : len (x :: l) = 1 + len l.
Proof. unfold len. cbn [List.length]. lia. Qed.

Lemma first_cases (p0 : byte) :
  128 <= byte_val p0 ->
  In (utf8.first p0) [241; 2; 19; 3; 35; 52; 4; 68].
Proof.
  intros H. unfold utf8.first.
  destruct (Z.ltb_spec (byte_val p0) 128); [lia |].
  repeat match goal with
         | |- context [if ?b then _ else _] => destruct b
         end; cbn; tauto.
Qed.

Lemma len_nil {A : Type} : len (@nil A) = 0.
Proof. reflexivity. Qed.

Ltac split_ltb :=
  match goal with
  | |- context [?a <? ?b] => destruct (Z.ltb_spec a b)
  | |- context [?a <=? ?b] => destruct (Z.leb_spec a b)
  | |- context [?a >=? ?b] => destruct (Z.geb_spec a b)
  end.

Ltac eval_closed :=
  repeat match goal with
         | |- context [Z.land ?a ?b] =>
             let v := eval vm_compute in (Z.land a b) in
             change (Z.land a b) with v
         | |- context [Z.shiftr ?a ?b] =>
             let v := eval vm_compute in (Z.shiftr a b) in
             change (Z.shiftr a b) with v
         | |- context [utf8.acceptRanges ?a] =>
             let v := eval vm_compute in (utf8.acceptRanges a) in
             change (utf8.acceptRanges a) with v
         end.

Ltac known_lookups :=
  repeat match goal with
         | |- context [lookup (?a :: ?b :: ?l) 1] =>
             change (lookup (a :: b :: l) 1) with (Some b)
         | |- context [lookup (?a :: ?b :: ?c :: ?l) 2] =>
             change (lookup (a :: b :: c :: l) 2) with (Some c)
         | |- context [lookup (?a :: ?b :: ?c :: ?d :: ?l) 3] =>
             change (lookup (a :: b :: c :: d :: l) 3) with (Some d)
         | |- context [lookup [?a] 1] =>
             change (lookup [a] 1) with (@None byte)
         | |- context [lookup [?a; ?b] 2] =>
             change (lookup [a; b] 2) with (@None byte)
         | |- context [lookup [?a; ?b; ?c] 3] =>
             change (lookup [a; b; c] 3) with (@None byte)
         end.

Lemma DecodeRuneSize_spec (p0 : byte) (rest : list byte) :
  128 <= byte_val p0 ->
  1 <= utf8.DecodeRuneSize (p0 :: rest) <= len (p0 :: rest)
  /\ Forall high (firstn (Z.to_nat (utf8.DecodeRuneSize (p0 :: rest))) (p0 :: rest)).
Proof.
  intros Hp. pose proof (first_cases p0 Hp) as Hx.
  unfold utf8.DecodeRuneSize, utf8.outside, utf8.locb, utf8.hicb.
  destruct rest as [| b1 [| b2 [| b3 rest]]];
    try pose proof (len_nonneg rest);
    destruct Hx as [<- | [<- | [<- | [<- | [<- | [<- | [<- | [<- | []]]]]]]]];
    eval_closed; known_lookups; cbv beta iota; rewrite ?len_cons, ?len_nil;
    repeat (split_ltb; cbn [orb]);
    try lia;
    (split; [lia | cbn; repeat constructor; unfold high; lia]).
Qed.

(** ** Slices of a list *)

Lemma skipn_cons_lookup {A : Type} (s : list A) (i : Z) :
  0 <= i < len s ->
  exists c, lookup s i = Some c
            /\ skipn (Z.to_nat i) s = c :: skipn (Z.to_nat (i + 1)) s.
Proof.
  intros Hi. destruct (lookup_Some s i Hi) as [c Hc]. exists c. split; [exact Hc |].
  unfold lookup in Hc. destruct (Z.ltb_spec i 0); [lia |].
  replace (Z.to_nat (i + 1)) with (S (Z.to_nat i)) by lia.
  revert Hc. generalize (Z.to_nat i). clear.
  induction s as [| h t IH]; intros n Hn; destruct n; cbn in *; try discriminate.
  - now injection Hn as ->.
  - now apply IH.
Qed.

Lemma skipn_plus {A : Type} (s : list A) (i k : Z) :
  0 <= i -> 0 <= k ->
  skipn (Z.to_nat (i + k)) s = skipn (Z.to_nat k) (skipn (Z.to_nat i) s).
Proof.
  intros Hi Hk. rewrite skipn_skipn. f_equal. lia.
Qed.

Lemma slice_empty {A : Type} (s : list A) (a : Z) : slice s a a = [].
Proof. unfold slice. now rewrite Z.sub_diag. Qed.

Lemma slice_to_end {A : Type} (s : list A) (a : Z) :
  0 <= a -> slice s a (len s) = skipn (Z.to_nat a) s.
Proof.
  intros Ha. unfold slice. apply firstn_all2.
  rewrite length_skipn. unfold len. lia.
Qed.

Lemma slice_extend {A : Type} (s : list A) (a i k : Z) :
  0 <= a <= i -> 0 <= k -> i + k <= len s ->
  slice s a (i + k) = slice s a i ++ firstn (Z.to_nat k) (skipn (Z.to_nat i) s).
Proof.
  intros Ha Hk Hlen. unfold slice.
  set (t := skipn (Z.to_nat a) s).
  assert (Hskip : skipn (Z.to_nat i) s = skipn (Z.to_nat (i - a)) t).
  { unfold t. rewrite skipn_skipn. f_equal. lia. }
  rewrite Hskip.
  assert (Ht : (Z.to_nat (i - a) <= List.length t)%nat).
  { unfold t. rewrite length_skipn. unfold len in Hlen. lia. }
  rewrite <- (firstn_skipn (Z.to_nat (i - a)) t) at 1.
  replace (Z.to_nat (i + k - a))
    with (List.length (firstn (Z.to_nat (i - a)) t) + Z.to_nat k)%nat
    by (rewrite firstn_length_le by exact Ht; lia).
  apply firstn_app_2.
Qed.

Lemma slice_snoc {A : Type} (s : list A) (a i : Z) (c : A) :
  0 <= a <= i -> i < len s -> lookup s i = Some c ->
  slice s a (i + 1) = slice s a i ++ [c].
Proof.
  intros Ha Hi Hc. rewrite slice_extend by lia.
  destruct (skipn_cons_lookup s i ltac:(lia)) as [c' [Hc' ->]].
  rewrite Hc in Hc'. injection Hc' as <-. reflexivity.
Qed.

Lemma flat_map_verbatim (l : list byte) :
  Forall high l -> flat_map escapedForm l = l.
Proof.
  induction 1 as [| c l Hc _ IH]; [reflexivity |].
  cbn [flat_map]. rewrite high_verbatim by exact Hc. rewrite IH. reflexivity.
Qed.

Lemma flat_map_skip_verbatim (n : nat) (l : list byte) :
  Forall high (firstn n l) ->
  flat_map escapedForm l = firstn n l ++ flat_map escapedForm (skipn n l).
Proof.
  intros H. rewrite <- (firstn_skipn n l) at 1.
  rewrite flat_map_app, (flat_map_verbatim _ H). reflexivity.
Qed.

(** ** The scanning loops *)

Lemma stringScan_spec (fuel : nat) (s : list byte) :
  forall start i buf,
    0 <= start <= i -> i <= len s -> (Z.to_nat (len s - i) <= fuel)%nat ->
    exists start' buf',
      stringScan fuel s start i buf = Some (start', buf')
      /\ 0 <= start' <= len s
      /\ buf' ++ slice s start' (len s)
         = buf ++ slice s start i ++ flat_map escapedForm (skipn (Z.to_nat i) s).
Proof.
  induction fuel as [| fuel IH]; intros start i buf Hs Hi Hfuel.
  - assert (i = len s) by lia. subst i. cbn [stringScan].
    rewrite Z.ltb_irrefl. exists start, buf. split; [reflexivity |]. split; [lia |].
    rewrite skipn_all2 by (unfold len; lia). cbn. now rewrite app_nil_r.
  - cbn [stringScan]. destruct (Z.ltb_spec i (len s)) as [Hlt | Hge].
    2:{ assert (i = len s) by lia. subst i. exists start, buf.
        split; [reflexivity |]. split; [lia |].
        rewrite skipn_all2 by (unfold len; lia). cbn. now rewrite app_nil_r. }
    destruct (skipn_cons_lookup s i ltac:(lia)) as [c [Hc Hsk]].
    rewrite Hc.
    destruct (Z.ltb_spec (byte_val c) utf8.RuneSelf) as [Hascii | Hhigh].
    + rewrite Hsk. cbn [flat_map]. rewrite safeSet_spec by exact Hascii.
      destruct (safeByte c) eqn:Hsafe.
      * destruct (IH start (i + 1) buf ltac:(lia) ltac:(lia) ltac:(lia))
          as (st & b & E & Hst & Heq).
        exists st, b. split; [exact E |]. split; [exact Hst |].
        rewrite Heq, (slice_snoc s start i c) by (try exact Hc; lia).
        rewrite safeByte_verbatim by exact Hsafe.
        rewrite <- !app_assoc. reflexivity.
      * assert (Hb1 : (if start <? i then buf ++ slice s start i else buf)
                      = buf ++ slice s start i).
        { destruct (Z.ltb_spec start i); [reflexivity |].
          assert (start = i) by lia. subst. now rewrite slice_empty, app_nil_r. }
        rewrite Hb1, escapeStringToBytes_spec.
        destruct (IH (i + 1) (i + 1) ((buf ++ slice s start i) ++ escapedForm c)
                    ltac:(lia) ltac:(lia) ltac:(lia)) as (st & b & E & Hst & Heq).
        exists st, b. split; [exact E |]. split; [exact Hst |].
        rewrite Heq, slice_empty. cbn [app]. rewrite <- !app_assoc. reflexivity.
    + destruct (DecodeRuneSize_spec c (skipn (Z.to_nat (i + 1)) s) Hhigh)
        as [Hsize Hall].
      rewrite <- Hsk in Hsize, Hall.
      set (size := utf8.DecodeRuneSize (skipn (Z.to_nat i) s)) in *.
      assert (Hrem : len (skipn (Z.to_nat i) s) = len s - i).
      { unfold len. rewrite length_skipn. unfold len in Hlt. lia. }
      destruct (IH start (i + size) buf ltac:(lia) ltac:(lia) ltac:(lia))
        as (st & b & E & Hst & Heq).
      exists st, b. split; [exact E |]. split; [exact Hst |].
      rewrite Heq, (slice_extend s start i size) by lia.
      rewrite (skipn_plus s i size) by lia.
      rewrite (flat_map_skip_verbatim _ _ Hall).
      rewrite <- !app_assoc. reflexivity.
Qed.

Lemma appendString_spec (buf s : list byte) :
  appendString buf s = Some (buf ++ jsonString s).
Proof.
  unfold appendString, jsonString. destruct s as [| c0 s0]; [reflexivity |].
  set (s := c0 :: s0).
  destruct (stringScan_spec (List.length s) s 0 0 (buf ++ [quote]))
    as (st & b & E & Hst & Heq); try (pose proof (len_nonneg s); unfold len; lia).
  rewrite E. rewrite slice_empty in Heq. cbn [app skipn Z.to_nat] in Heq.
  assert (Hb : (if st <? len s then b ++ slice s st (len s) else b)
               = b ++ slice s st (len s)).
  { destruct (Z.ltb_spec st (len s)); [reflexivity |].
    assert (st = len s) by lia. subst st. now rewrite slice_empty, app_nil_r. }
  rewrite Hb, Heq. rewrite <- !app_assoc. reflexivity.
Qed.

Lemma bytesScan_spec (fuel : nat) (b : list byte) :
  forall i buf,
    0 <= i <= len b -> (Z.to_nat (len b - i) <= fuel)%nat ->
    bytesScan fuel b i buf
    = Some (buf ++ flat_map escapedForm (skipn (Z.to_nat i) b)).
Proof.
  induction fuel as [| fuel IH]; intros i buf Hi Hfuel.
  - assert (i = len b) by lia. subst i. cbn [bytesScan]. rewrite Z.ltb_irrefl.
    rewrite skipn_all2 by (unfold len; lia). cbn. now rewrite app_nil_r.
  - cbn [bytesScan]. destruct (Z.ltb_spec i (len b)) as [Hlt | Hge].
    2:{ assert (i = len b) by lia. subst i.
        rewrite skipn_all2 by (unfold len; lia). cbn. now rewrite app_nil_r. }
    destruct (skipn_cons_lookup b i ltac:(lia)) as [c [Hc Hsk]].
    rewrite Hc.
    destruct (Z.ltb_spec (byte_val c) utf8.RuneSelf) as [Hascii | Hhigh].
    + rewrite Hsk. cbn [flat_map]. rewrite safeSet_spec by exact Hascii.
      destruct (safeByte c) eqn:Hsafe.
      * rewrite IH by lia. rewrite safeByte_verbatim by exact Hsafe.
        rewrite <- !app_assoc. reflexivity.
      * rewrite escapeStringToBytes_spec, IH by lia.
        rewrite <- !app_assoc. reflexivity.
    + destruct (DecodeRuneSize_spec c (skipn (Z.to_nat (i + 1)) b) Hhigh)
        as [Hsize Hall].
      rewrite <- Hsk in Hsize, Hall.
      set (size := utf8.DecodeRuneSize (skipn (Z.to_nat i) b)) in *.
      assert (Hrem : len (skipn (Z.to_nat i) b) = len b - i).
      { unfold len. rewrite length_skipn. unfold len in Hlt. lia. }
      rewrite IH by lia.
      assert (Hsl : slice b i (i + size) = firstn (Z.to_nat size) (skipn (Z.to_nat i) b)).
      { rewrite (slice_extend b i i size) by lia. now rewrite slice_empty. }
      rewrite Hsl, (skipn_plus b i size) by lia.
      rewrite (flat_map_skip_verbatim _ _ Hall).
      rewrite <- !app_assoc. reflexivity.
Qed.

Lemma appendBytes_spec (buf b : list byte) :
  appendBytes buf b = Some (buf ++ jsonString b).
Proof.
  unfold appendBytes, jsonString. destruct b as [| c0 b0]; [reflexivity |].
  set (b := c0 :: b0).
  rewrite bytesScan_spec by (pose proof (len_nonneg b); unfold len; lia).
  cbn [Z.to_nat skipn]. rewrite <- !app_assoc. reflexivity.
Qed.

Lemma escapedOnly_flat_map (s : list byte) :
  escapedOnly (flat_map escapedForm s) = true.
Proof.
  induction s as [| c s IH]; [reflexivity |].
  cbn [flat_map]. now rewrite escapedOnly_escapedForm.
Qed.

Lemma flat_map_safe (s : list byte) :
  forallb safeByte s = true -> flat_map escapedForm s = s.
Proof.
  induction s as [| c s IH]; [reflexivity |]. cbn [forallb flat_map].
  intros H. apply andb_true_iff in H as [Hc Hs].
  rewrite safeByte_verbatim by exact Hc. rewrite IH by exact Hs. reflexivity.
Qed.

(** C3.  Both string encoders append the JSON string of their input: a
    quote, the escaped form of every byte, a quote.  In that content a
    control byte 0..31, a quote or a backslash occurs in escaped form
    only; the escaped form is the named escape where there is one and
    [\u00XX] for the other control bytes; a text of safe bytes stands
    between the quotes unchanged, and the empty text gives the two
    quotes. *)
Theorem string_encoders_escape (typeName : Value -> string)
  (stream : encoderStream) (s : list byte) :
  appendToBytes (stringEncoder typeName) stream (VString s)
  = Return (write stream (jsonString s)) None
  /\ appendToBytes byteSliceEncoder stream (VBytes (Some s))
     = Return (write stream (jsonString s)) None
  /\ escapedOnly (flat_map escapedForm s) = true
  /\ (forallb safeByte s = true -> jsonString s = quote :: s ++ [quote])
  /\ appendToBytes (stringEncoder typeName) stream (VString [])
     = Return (write stream [quote; quote]) None.
Proof.
  repeat split.
  - cbn. rewrite appendString_spec. reflexivity.
  - cbn. rewrite appendBytes_spec. reflexivity.
  - apply escapedOnly_flat_map.
  - intros H. unfold jsonString. now rewrite flat_map_safe.
Qed.

Lemma string_encoders_escape_witness :
  forallb safeByte (bytes "a b") = true
  /\ jsonString (bytes "a b") = quote :: bytes "a b" ++ [quote].
Proof.
  split; [reflexivity |].
  apply (string_encoders_escape Sample.typeName (mkStream []) (bytes "a b")).
  reflexivity.
Defined.

(** The escaped forms, byte by byte, on a text that has them all. *)
Example escape_sample :
  appendToBytes (stringEncoder Sample.typeName) (mkStream [])
    (VString [x0a; x09; x0d; x08; x0c; quote; backslash; x01; x1f; "a"; x7f; xc3; xa9]%byte)
  = Return (mkStream (quote :: bytes "\n\t\r\b\f\" ++ quote
                        :: bytes "\\\u0001\u001fa" ++ [x7f; xc3; xa9; quote]%byte)) None.
Proof. vm_compute. reflexivity. Qed.

(* ================================================================== *)
(** * Results: nil values and the scalar encoders *)
(* ================================================================== *)

(** C6.  After a nil pointer at the root of the struct encoder, and after
    a nil byte slice, the buffer holds what it held before followed by
    exactly the four bytes [n], [u], [l], [l], and no error is reported. *)
Theorem nil_renders_null (isEmptyValue : Value -> bool) (e : structEncoder)
  (stream : encoderStream) :
  (exists stream',
      structEncoder_appendToBytes isEmptyValue e stream (VPtr None)
      = Return stream' None
      /\ buffer stream' = buffer stream ++ ["n"; "u"; "l"; "l"]%byte)
  /\ (exists stream',
         appendToBytes byteSliceEncoder stream (VBytes None) = Return stream' None
         /\ buffer stream' = buffer stream ++ ["n"; "u"; "l"; "l"]%byte)
  /\ nullString = ["n"; "u"; "l"; "l"]%byte
  /\ len nullString = 4.
Proof.
  split; [| split; [| split; reflexivity]].
  - exists (write stream nullString). split; reflexivity.
  - exists (write stream nullString). split; reflexivity.
Qed.

(** C5.  The float encoders do not append the decimal numeral of every
    integral value: the numeral comes from [appendInt], which loses the
    zero of a digit pair below ten between 10 000 and 100 000 000.  For
    the value 10005 both append the bytes 0, 0, '1', '0', '5'. *)
Theorem appendFloat_10005_loses_zero
  (AppendFloat : list byte -> float64 -> byte -> Z -> Z -> list byte) :
  appendFloat64 AppendFloat (mkStream []) (f64.ofZ 10005)
  = Return (mkStream [x00; x00; "1"; "0"; "5"]%byte) None
  /\ appendFloat32 AppendFloat (mkStream []) (f32.ofZ 10005)
     = Return (mkStream [x00; x00; "1"; "0"; "5"]%byte) None
  /\ decimal 10005 = bytes "10005".
Proof. repeat split; vm_compute; reflexivity. Qed.

(** The two branches of [appendFloat64] on sample values: integral values
    in range go to [appendInt] (the smallest [int64] included, and -0 as
    0), everything else to [strconv.AppendFloat] with format ['g'] and
    precision 6. *)
Example appendFloat64_samples
  (AppendFloat : list byte -> float64 -> byte -> Z -> Z -> list byte) :
  appendFloat64 AppendFloat (mkStream []) (f64.ofZ (-42))
  = Return (mkStream (bytes "-42")) None
  /\ appendFloat64 AppendFloat (mkStream []) (f64.ofZ MinInt64)
     = Return (mkStream (bytes "-9223372036854775808")) None
  /\ appendFloat64 AppendFloat (mkStream []) (S754_zero true)
     = Return (mkStream (bytes "0")) None
  /\ (forall f, In f [S754_finite false 6755399441055744 (-52); S754_nan;
                      S754_infinity false; S754_infinity true;
                      f64.ofZ 9223372036854775808] ->
        appendFloat64 AppendFloat (mkStream []) f
        = Return (mkStream (AppendFloat [] f "g"%byte 6 64)) None).
Proof.
  split; [vm_compute; reflexivity |].
  split; [vm_compute; reflexivity |].
  split; [vm_compute; reflexivity |].
  intros f Hf. cbn [In] in Hf.
  repeat (destruct Hf as [<- | Hf]; [vm_compute; reflexivity |]). contradiction.
Qed.

Lemma assign_total (buf : option (list byte)) :
  (exists b, buf = Some b) -> exists s, assign buf = Return s None.
Proof. intros [b ->]. cbn. eauto. Qed.

Lemma appendFloat64_total AppendFloat (stream : encoderStream) (f : float64) :
  exists s, appendFloat64 AppendFloat stream f = Return s None.
Proof.
  unfold appendFloat64.
  destruct (_ && _); [apply assign_total, appendInt_total | eauto].
Qed.

Lemma appendFloat32_total AppendFloat (stream : encoderStream) (f : float32) :
  exists s, appendFloat32 AppendFloat stream f = Return s None.
Proof.
  unfold appendFloat32.
  destruct (_ && _); [apply assign_total, appendInt_total | eauto].
Qed.

(** C10.  Every leaf encoder returns, and returns the nil error, on every
    value of its kind (the fallback encoder on every value at all); the
    encoder for unsupported map keys never does: on every value that has
    a type it returns an error and leaves the stream as it was. *)
Theorem leaf_encoders_return_nil
  (AppendFloat : list byte -> float64 -> byte -> Z -> Z -> list byte)
  (typeName : Value -> string) (stream : encoderStream) :
  (forall v, exists s, appendToBytes nullEncoder stream v = Return s None)
  /\ (forall b, exists s, appendToBytes boolEncoder stream (VBool b) = Return s None)
  /\ (forall i, exists s, appendToBytes intEncoder stream (VInt i) = Return s None)
  /\ (forall u, exists s, appendToBytes uintEncoder stream (VUint u) = Return s None)
  /\ (forall f, exists s,
        appendToBytes (float32Encoder AppendFloat) stream (VFloat f) = Return s None)
  /\ (forall f, exists s,
        appendToBytes (float64Encoder AppendFloat) stream (VFloat f) = Return s None)
  /\ (forall t, exists s,
        appendToBytes (stringEncoder typeName) stream (VString t) = Return s None)
  /\ (forall b, exists s,
        appendToBytes byteSliceEncoder stream (VBytes b) = Return s None)
  /\ (forall v, exists s,
        appendToBytes (defaultEncoder typeName) stream v = Return s None)
  /\ (forall v, v = VInvalid
                \/ exists err,
                     appendToBytes (noSupportEncoder typeName) stream v
                     = Return stream (Some err)).
Proof.
  repeat split.
  - intros v. cbn. eauto.
  - intros [|]; cbn; eauto.
  - intros i. cbn. apply assign_total, appendInt_total.
  - intros u. cbn. apply assign_total, appendUint_total.
    unfold uint64. apply Z.mod_pos_bound. reflexivity.
  - intros f. cbn. apply appendFloat32_total.
  - intros f. cbn. apply appendFloat64_total.
  - intros t. cbn. rewrite appendString_spec. cbn. eauto.
  - intros [b |]; cbn; [rewrite appendBytes_spec; cbn |]; eauto.
  - intros v. cbn. rewrite appendString_spec. cbn. eauto.
  - intros v. destruct v; cbn; eauto.
Qed.

(* ================================================================== *)
(** * Results: the struct encoder *)
(* ================================================================== *)

Lemma write_write (stream : encoderStream) (a b : list byte) :
  write (write stream a) b = write stream (a ++ b).
Proof. unfold write. cbn. now rewrite app_assoc. Qed.

Lemma write_nil (stream : encoderStream) : write stream [] = stream.
Proof. destruct stream. unfold write. cbn. now rewrite app_nil_r. Qed.

Lemma reserve_eq (stream : encoderStream) (estimatedSize : Z) :
  reserve stream estimatedSize = stream.
Proof. now destruct stream. Qed.

Lemma writeName_eq (stream : encoderStream) (field : structField) (out : list byte) :
  write (writeName stream field) out = write stream (member (name field) out).
Proof.
  unfold writeName, member. rewrite !write_write. f_equal.
Qed.

Lemma joinFrom_false (x : list byte) (rest : list (list byte)) :
  joinFrom false (x :: rest) = ","%byte :: joinComma (x :: rest).
Proof.
  revert x. induction rest as [| y rest IH]; intros x.
  - cbn. now rewrite app_nil_r.
  - cbn [joinFrom joinComma] in *. rewrite IH. reflexivity.
Qed.

Lemma joinFrom_true (items : list (list byte)) :
  joinFrom true items = joinComma items.
Proof.
  destruct items as [| x [| y rest]]; [reflexivity | cbn; now rewrite app_nil_r |].
  change (joinFrom true (x :: y :: rest)) with (x ++ joinFrom false (y :: rest)).
  rewrite joinFrom_false. reflexivity.
Qed.

Section StructResults.

Variable isEmptyValue : Value -> bool.

(** The loop with [omitempty], field by field. *)
Lemma encodeFieldsWithOmitEmptyLoop_spec (src : Value) (fs : list structField)
  (os : list (option (list byte))) :
  Forall2 (fieldOutcome isEmptyValue src) fs os ->
  forall firstField stream,
    encodeFieldsWithOmitEmptyLoop isEmptyValue fs firstField stream src
    = Return (write stream (joinFrom firstField (kept fs os))) None.
Proof.
  induction 1 as [| field o fs os Hf _ IH]; intros firstField stream.
  - cbn. now rewrite write_nil.
  - cbn [encodeFieldsWithOmitEmptyLoop kept]. destruct o as [out |].
    + destruct Hf as (f & -> & -> & Henc).
      rewrite Henc. cbn [andThen]. rewrite IH.
      rewrite writeName_eq, write_write. cbn [joinFrom].
      destruct firstField; cbn [negb].
      * reflexivity.
      * rewrite write_write. reflexivity.
    + destruct Hf as (f & -> & -> & ->). cbn [andb]. apply IH.
Qed.

Lemma emits_outcomes (src : Value) (fs : list structField) (outs : list (list byte)) :
  Forall2 (emits isEmptyValue src) fs outs ->
  Forall2 (fieldOutcome isEmptyValue src) fs (map Some outs)
  /\ kept fs (map Some outs) = members (map name fs) outs.
Proof.
  induction 1 as [| field out fs outs Hf _ [IH1 IH2]]; cbn; [split; constructor |].
  split; [constructor; assumption | now rewrite IH2].
Qed.

Lemma kept_app (fs1 fs2 : list structField) (os1 os2 : list (option (list byte))) :
  List.length fs1 = List.length os1 ->
  kept (fs1 ++ fs2) (os1 ++ os2) = kept fs1 os1 ++ kept fs2 os2.
Proof.
  revert os1. induction fs1 as [| f fs1 IH]; intros [| o os1] Hl; try discriminate.
  - reflexivity.
  - cbn in Hl. injection Hl as Hl. cbn. destruct o; cbn; now rewrite IH.
Qed.

Lemma omitted_outcomes (src : Value) (fs : list structField) :
  Forall (omitted isEmptyValue src) fs ->
  Forall2 (fieldOutcome isEmptyValue src) fs (map (fun _ => None) fs)
  /\ kept fs (map (fun _ => None) fs) = [].
Proof.
  induction 1 as [| field fs Hf _ [IH1 IH2]]; cbn; [split; constructor |].
  split; [constructor; assumption | assumption].
Qed.

(** The encoder on a struct whose fields contribute [os]. *)
Lemma structEncoder_outcomes (e : structEncoder) (stream : encoderStream)
  (vs : list Value) (os : list (option (list byte))) :
  wellFormed e ->
  existsb omitempty (fields e) = true ->
  Forall2 (fieldOutcome isEmptyValue (VStruct vs)) (fields e) os ->
  (List.length (fields e) = 1%nat -> os = [None]) ->
  structEncoder_appendToBytes isEmptyValue e stream (VStruct vs)
  = Return (write stream (object (kept (fields e) os))) None.
Proof.
  intros [Hn Hflag] Hany Hos Hone. unfold structEncoder_appendToBytes.
  rewrite reserve_eq.
  destruct (Z.eqb_spec (numFields e) 0) as [E0 | N0].
  { rewrite Hn in E0. destruct (fields e); [discriminate | unfold len in E0; cbn in E0; lia]. }
  destruct (Z.eqb_spec (numFields e) 1) as [E1 | N1].
  - rewrite Hn in E1. unfold len in E1.
    destruct (fields e) as [| k [| k' rest]] eqn:Ef; cbn in E1; try lia.
    specialize (Hone eq_refl). subst os.
    inversion Hos as [| ? ? ? ? Hk _]; subst. destruct Hk as (f & Hf & Hom & Hem).
    unfold encodeSingleField. rewrite Ef. change (lookup [k] 0) with (Some k).
    cbv beta iota. rewrite Hf, Hom, Hem. cbn [andb kept]. rewrite write_write. reflexivity.
  - rewrite Hflag, Hany. unfold encodeFieldsWithOmitEmpty.
    rewrite (encodeFieldsWithOmitEmptyLoop_spec _ _ _ Hos). cbn [andThen].
    rewrite !write_write, joinFrom_true. reflexivity.
Qed.

(** C4.  A well-formed struct encoder, on a struct or a pointer to one:
    when exactly the field [k] is zero-valued and marked [omitempty]
    while the fields before and after it are written by their encoders,
    the output is the object of the other fields, in the order of
    declaration, with one comma between two neighbours; when every field
    is zero-valued and marked [omitempty] the output is [{}]; and without
    fields it is [{}]. *)
Theorem omitempty_drops_the_field (e : structEncoder) (stream : encoderStream)
  (vs : list Value) (src : Value) :
  (src = VStruct vs \/ src = VPtr (Some (VStruct vs))) ->
  (forall pre k post outsPre outsPost,
      wellFormed e ->
      fields e = pre ++ k :: post ->
      omitted isEmptyValue (VStruct vs) k ->
      Forall2 (emits isEmptyValue (VStruct vs)) pre outsPre ->
      Forall2 (emits isEmptyValue (VStruct vs)) post outsPost ->
      structEncoder_appendToBytes isEmptyValue e stream src
      = Return (write stream
                  (object (members (map name pre) outsPre
                           ++ members (map name post) outsPost))) None)
  /\ (wellFormed e ->
      Forall (omitted isEmptyValue (VStruct vs)) (fields e) ->
      structEncoder_appendToBytes isEmptyValue e stream src
      = Return (write stream (bytes "{}")) None)
  /\ (numFields e = 0 ->
      structEncoder_appendToBytes isEmptyValue e stream src
      = Return (write stream (bytes "{}")) None).
Proof.
  intros Hsrc.
  assert (Hderef : structEncoder_appendToBytes isEmptyValue e stream src
                   = structEncoder_appendToBytes isEmptyValue e stream (VStruct vs))
    by (destruct Hsrc as [-> | ->]; reflexivity).
  rewrite Hderef. clear Hderef Hsrc src.
  split; [| split].
  - intros pre k post outsPre outsPost Hwf Hfields Hk Hpre Hpost.
    destruct (emits_outcomes _ _ _ Hpre) as [Fpre Kpre].
    destruct (emits_outcomes _ _ _ Hpost) as [Fpost Kpost].
    assert (Hk' := Hk). destruct Hk' as (f & _ & Hom & _).
    rewrite (structEncoder_outcomes e stream vs
               (map Some outsPre ++ None :: map Some outsPost)); try assumption.
    + rewrite Hfields.
      rewrite kept_app
        by (rewrite length_map; eapply Forall2_length; eassumption).
      cbn [kept]. rewrite Kpre, Kpost. reflexivity.
    + rewrite Hfields, existsb_app. cbn [existsb]. rewrite Hom.
      now rewrite orb_true_r.
    + rewrite Hfields. apply Forall2_app; [exact Fpre |].
      constructor; [exact Hk | exact Fpost].
    + rewrite Hfields, length_app. cbn [List.length]. intros Hl.
      destruct pre; [| cbn in Hl; lia]. destruct post; [| cbn in Hl; lia].
      inversion Hpre; subst. inversion Hpost; subst. reflexivity.
  - intros Hwf Hall. destruct (fields e) as [| k rest] eqn:Ef.
    + destruct Hwf as [Hn _]. rewrite Ef in Hn. unfold structEncoder_appendToBytes.
      rewrite Hn. cbn. rewrite write_write. reflexivity.
    + destruct (omitted_outcomes _ _ Hall) as [Fall Kall].
      rewrite <- Ef in Fall, Kall.
      rewrite (structEncoder_outcomes e stream vs (map (fun _ => None) (k :: rest)));
        try assumption; rewrite ?Ef.
      * rewrite <- Ef, Kall. reflexivity.
      * inversion Hall as [| ? ? (f & _ & Hom & _) _]; subst.
        cbn [existsb]. now rewrite Hom.
      * rewrite <- Ef. exact Fall.
      * intros Hl. destruct rest; [reflexivity | discriminate].
  - intros Hn. unfold structEncoder_appendToBytes. rewrite Hn. cbn.
    rewrite write_write. reflexivity.
Qed.

End StructResults.

Lemma omitempty_drops_the_field_witness :
  structEncoder_appendToBytes Sample.isEmptyValue Sample.abc (mkStream [])
    (VStruct [VInt 5; VString []; VInt 7])
  = Return (write (mkStream [])
              (object (members [bytes "a"] [bytes "5"]
                       ++ members [bytes "c"] [bytes "7"]))) None
  /\ structEncoder_appendToBytes Sample.isEmptyValue Sample.bc (mkStream [])
       (VPtr (Some (VStruct [VInt 5; VString []; VInt 0])))
     = Return (write (mkStream []) (bytes "{}")) None
  /\ structEncoder_appendToBytes Sample.isEmptyValue Sample.none (mkStream [])
       (VStruct [])
     = Return (write (mkStream []) (bytes "{}")) None.
Proof.
  split; [| split].
  - apply (proj1 (omitempty_drops_the_field Sample.isEmptyValue Sample.abc
                    (mkStream []) [VInt 5; VString []; VInt 7] _ (or_introl eq_refl))
             [Sample.fieldA] Sample.fieldB [Sample.fieldC] [bytes "5"] [bytes "7"]).
    + split; reflexivity.
    + reflexivity.
    + exists (VString []). repeat split.
    + constructor; [| constructor]. exists (VInt 5). repeat split.
    + constructor; [| constructor]. exists (VInt 7). repeat split.
  - apply (proj1 (proj2 (omitempty_drops_the_field Sample.isEmptyValue Sample.bc
                           (mkStream []) [VInt 5; VString []; VInt 0] _
                           (or_intror eq_refl)))).
    + split; reflexivity.
    + constructor; [| constructor; [| constructor]].
      * exists (VString []). repeat split.
      * exists (VInt 0). repeat split.
  - apply (proj2 (proj2 (omitempty_drops_the_field Sample.isEmptyValue Sample.none
                           (mkStream []) [] _ (or_introl eq_refl)))).
    reflexivity.
Defined.

(** The bytes of the first sample: the key [b] is gone and one comma is
    left. *)
Example omitempty_sample :
  structEncoder_appendToBytes Sample.isEmptyValue Sample.abc (mkStream [])
    (VStruct [VInt 5; VString []; VInt 7])
  = Return (mkStream ("{"%byte :: quote :: "a"%byte :: quote :: bytes ":5,"
                      ++ quote :: "c"%byte :: quote :: bytes ":7}")) None.
Proof. vm_compute. reflexivity. Qed.

(* ================================================================== *)
(** * Results: the stream pool *)
(* ================================================================== *)

Lemma nth_replace_nth {A : Type} (l : list A) (n k : nat) (x d : A) :
  nth k (replace_nth l n x) d
  = if (Nat.eqb k n && Nat.ltb n (List.length l))%bool then x else nth k l d.
Proof.
  revert n k. induction l as [| h t IH]; intros n k.
  - cbn. rewrite andb_false_r. reflexivity.
  - destruct n as [| n], k as [| k]; cbn [replace_nth nth List.length]; try reflexivity.
    rewrite IH. reflexivity.
Qed.

Lemma nth_default_nilSlice (m : memory) (stream : nat) :
  (List.length (streams m) <= stream)%nat -> streamBuffer m stream = nilSlice.
Proof. intros H. unfold streamBuffer. now apply nth_overflow. Qed.

Lemma release_buffer (m : memory) (stream id : nat) :
  streamBuffer (releaseEncoderStream m stream) id
  = if Nat.eqb id stream then released m (streamBuffer m stream)
    else streamBuffer m id.
Proof.
  unfold releaseEncoderStream, released.
  destruct (Z.gtb_spec (s_cap (streamBuffer m stream)) 8192) as [Hbig | Hsmall].
  - unfold streamBuffer at 1. cbn [make setBuffer poolPut streams].
    rewrite nth_replace_nth.
    destruct (Nat.eqb_spec id stream) as [-> | Hne]; [| reflexivity].
    destruct (Nat.ltb_spec stream (List.length (streams m))) as [_ | Hout];
      [reflexivity |].
    rewrite nth_default_nilSlice in Hbig by exact Hout. cbn in Hbig. lia.
  - unfold streamBuffer at 1. cbn [setBuffer poolPut streams].
    rewrite nth_replace_nth.
    destruct (Nat.eqb_spec id stream) as [-> | Hne]; [| reflexivity].
    destruct (Nat.ltb_spec stream (List.length (streams m))) as [_ | Hout];
      [reflexivity |].
    fold (streamBuffer m stream). rewrite nth_default_nilSlice by exact Hout.
    reflexivity.
Qed.

Lemma release_pool (m : memory) (stream : nat) :
  encoderStreamPool (releaseEncoderStream m stream) = stream :: encoderStreamPool m.
Proof.
  unfold releaseEncoderStream.
  destruct (s_cap (streamBuffer m stream) >? 8192); reflexivity.
Qed.

Lemma released_idle (m : memory) (old : sliceHeader) : idle (released m old).
Proof.
  unfold idle, released.
  destruct (Z.gtb_spec (s_cap old) 8192); cbn; lia.
Qed.



(** ** Acquisition keeps the pool idle *)

Lemma poolInvariant_empty : poolInvariant emptyMemory /\ poolDistinct emptyMemory.
Proof. repeat split; constructor. Qed.

Lemma remove_nth_incl {A : Type} (l : list A) (n : nat) (y : A) :
  In y (remove_nth l n) -> In y l.
Proof.
  revert n. induction l as [| h t IH]; intros n Hy; [destruct n; exact Hy |].
  destruct n as [| n]; cbn in *; [now right |].
  destruct Hy as [-> | Hy]; [now left | right; eapply IH, Hy].
Qed.

Lemma remove_nth_NoDup {A : Type} (l : list A) (n : nat) (x : A) :
  NoDup l -> nth_error l n = Some x ->
  NoDup (remove_nth l n) /\ ~ In x (remove_nth l n).
Proof.
  intros Hnd. revert n. induction Hnd as [| h t Hh Hnd IH]; intros n Hx.
  - destruct n; discriminate.
  - destruct n as [| n]; cbn in *.
    + injection Hx as <-. split; assumption.
    + destruct (IH n Hx) as [IH1 IH2]. split.
      * constructor; [| exact IH1]. intros Hin. apply Hh. eapply remove_nth_incl, Hin.
      * intros [-> | Hin]; [| now apply IH2].
        apply Hh. eapply nth_error_In, Hx.
Qed.

Lemma replace_nth_length {A : Type} (l : list A) (n : nat) (x : A) :
  List.length (replace_nth l n x) = List.length l.
Proof.
  revert n. induction l as [| h t IH]; intros [| n]; cbn; try reflexivity.
  now rewrite IH.
Qed.

Lemma setBuffer_other (m : memory) (stream id : nat) (h : sliceHeader) :
  id <> stream -> streamBuffer (setBuffer m stream h) id = streamBuffer m id.
Proof.
  intros Hne. unfold streamBuffer, setBuffer. cbn [streams].
  rewrite nth_replace_nth. destruct (Nat.eqb_spec id stream); [contradiction | reflexivity].
Qed.

(** The stream a [Get] hands out has left the pool, and the pool it
    leaves behind is as idle and as distinct as before. *)
Lemma poolGet_keeps_pool (choice : nat) (m : memory) :
  poolInvariant m -> poolDistinct m ->
  let '(m', stream) := poolGet choice m in
  poolInvariant m' /\ poolDistinct m'
  /\ ~ In stream (encoderStreamPool m')
  /\ (stream < List.length (streams m'))%nat.
Proof.
  intros Hinv [Hnd Hvalid]. unfold poolGet.
  destruct (nth_error (encoderStreamPool m) choice) as [stream |] eqn:Hget.
  - destruct (remove_nth_NoDup _ _ _ Hnd Hget) as [Hnd' Hout].
    assert (Hv : forall id, In id (encoderStreamPool m) ->
                            (id < List.length (streams m))%nat)
      by (intros id Hid; exact (proj1 (Forall_forall _ _) Hvalid id Hid)).
    assert (Hi : forall id, In id (encoderStreamPool m) -> idle (streamBuffer m id))
      by (intros id Hid; exact (proj1 (Forall_forall _ _) Hinv id Hid)).
    repeat split; try assumption.
    + apply Forall_forall. intros id Hid. apply (Hi id). eapply remove_nth_incl, Hid.
    + apply Forall_forall. intros id Hid. apply (Hv id). eapply remove_nth_incl, Hid.
    + apply (Hv stream). eapply nth_error_In, Hget.
  - unfold poolNew. cbn [make arrays streams encoderStreamPool].
    assert (Hv : forall id, In id (encoderStreamPool m) ->
                            (id < List.length (streams m))%nat)
      by (intros id Hid; exact (proj1 (Forall_forall _ _) Hvalid id Hid)).
    assert (Hi : forall id, In id (encoderStreamPool m) -> idle (streamBuffer m id))
      by (intros id Hid; exact (proj1 (Forall_forall _ _) Hinv id Hid)).
    repeat split.
    + apply Forall_forall. intros id Hid. unfold streamBuffer. cbn [streams].
      rewrite app_nth1 by (apply Hv, Hid). apply (Hi id Hid).
    + assumption.
    + apply Forall_forall. intros id Hid. cbn [streams]. rewrite length_app.
      pose proof (Hv id Hid). cbn. lia.
    + intros Hin. pose proof (Hv _ Hin). lia.
    + rewrite length_app. cbn. lia.
Qed.

(** The same for [getEncoderStreamWithSize]: the buffer it may enlarge
    belongs to a stream that is out of the pool. *)
Lemma getEncoderStreamWithSize_keeps_pool (choice : nat) (m : memory)
  (estimatedSize : Z) :
  poolInvariant m -> poolDistinct m ->
  let '(m', stream) := getEncoderStreamWithSize choice m estimatedSize in
  poolInvariant m' /\ poolDistinct m' /\ ~ In stream (encoderStreamPool m').
Proof.
  intros Hinv Hdist. unfold getEncoderStreamWithSize.
  pose proof (poolGet_keeps_pool choice m Hinv Hdist) as Hget.
  destruct (poolGet choice m) as [m1 stream].
  destruct Hget as (Hinv1 & [Hnd1 Hvalid1] & Hout & Hlt).
  destruct (s_cap (streamBuffer m1 stream) <? estimatedSize).
  - cbn [make]. repeat split; cbn [setBuffer encoderStreamPool streams arrays];
      try assumption.
    + apply Forall_forall. intros id Hid.
      rewrite setBuffer_other by (intros ->; contradiction).
      apply (proj1 (Forall_forall _ _) Hinv1 id Hid).
    + apply Forall_forall. intros id Hid.
      rewrite replace_nth_length.
      apply (proj1 (Forall_forall _ _) Hvalid1 id Hid).
  - repeat split; assumption.
Qed.

(* ================================================================== *)
(** * Results: [Marshal] *)
(* ================================================================== *)

Lemma wf_allocated (m : memory) (id : nat) :
  wf m = true -> allocated m (streamBuffer m id) = true.
Proof.
  intros Hwf. unfold wf in Hwf. rewrite forallb_forall in Hwf.
  unfold streamBuffer.
  destruct (Nat.ltb_spec id (List.length (streams m))) as [Hin | Hout].
  - apply Hwf, nth_In, Hin.
  - now rewrite nth_overflow by exact Hout.
Qed.

Lemma copyOut_spec (m : memory) (h : sliceHeader) (m2 : memory) (result : sliceHeader) :
  copyOut m h = (m2, result) ->
  streams m2 = streams m
  /\ encoderStreamPool m2 = encoderStreamPool m
  /\ (exists extra, arrays m2 = arrays m ++ extra)
  /\ contents m2 result = contents m h
  /\ (forall l, s_array result = Some l ->
                l = List.length (arrays m) /\ (l < List.length (arrays m2))%nat).
Proof.
  unfold copyOut. destruct (contents m h) as [| c0 c] eqn:Hc; intros E;
    injection E as <- <-.
  - repeat split; try reflexivity; try discriminate.
    exists []. now rewrite app_nil_r.
  - repeat split; try reflexivity.
    + eexists. reflexivity.
    + unfold contents. cbn [s_array s_len arrays]. rewrite nth_middle.
      apply firstn_all2. unfold len. lia.
    + cbn in H. now injection H as <-.
    + cbn in H. injection H as <-. cbn [arrays]. rewrite length_app. cbn. lia.
Qed.

Lemma release_arrays (m : memory) (stream : nat) :
  exists extra, arrays (releaseEncoderStream m stream) = arrays m ++ extra.
Proof.
  unfold releaseEncoderStream.
  destruct (s_cap (streamBuffer m stream) >? 8192); cbn.
  - eexists. reflexivity.
  - exists []. now rewrite app_nil_r.
Qed.

Lemma contents_frame (m m' : memory) (h : sliceHeader) (extra : list (list byte)) :
  arrays m' = arrays m ++ extra ->
  (forall l, s_array h = Some l -> (l < List.length (arrays m))%nat) ->
  contents m' h = contents m h.
Proof.
  intros Harr Hl. unfold contents. destruct (s_array h) as [l |]; [| reflexivity].
  rewrite Harr, app_nth1 by (apply Hl; reflexivity). reflexivity.
Qed.

Lemma streamBuffer_same (m m' : memory) (id : nat) :
  streams m' = streams m -> streamBuffer m' id = streamBuffer m id.
Proof. intros H. unfold streamBuffer. now rewrite H. Qed.

Section MarshalResults.

Variable encodeValueToBytes : memory -> nat -> Value -> memory * status.

(** C8.  [Marshal], for the stream it acquires and whatever the encoding
    does to the store (as long as every stream still points into it):
    the stream is back in the pool on every way out, its buffer reset;
    after an error the result is the nil slice with that error; after a
    success the result shows the bytes of the stream buffer and, when it
    has a backing array at all, that array was allocated after the
    encoding and is the array of no stream. *)
Theorem Marshal_copies_and_releases (choice : nat) (m : memory) (v : Value)
  (m0 : memory) (stream : nat) (m1 : memory) (st : status) :
  getEncoderStreamWithSize choice m (estimateJSONSize v) = (m0, stream) ->
  encodeValueToBytes m0 stream v = (m1, st) ->
  wf m1 = true ->
  exists m' r,
    Marshal encodeValueToBytes choice m v = (m', r)
    /\ encoderStreamPool m' = stream :: encoderStreamPool m1
    /\ s_len (streamBuffer m' stream) = 0
    /\ match st with
       | Panicked => r = Panic
       | Finished (Some err) => r = Return nilSlice (Some err)
       | Finished None =>
           exists result,
             r = Return result None
             /\ contents m' result = contents m1 (streamBuffer m1 stream)
             /\ forall l, s_array result = Some l ->
                          (List.length (arrays m1) <= l)%nat
                          /\ forall id, s_array (streamBuffer m' id) <> Some l
       end.
Proof.
  intros Hget Henc Hwf. unfold Marshal. rewrite Hget, Henc.
  destruct st as [[err |] |].
  - eexists _, _. split; [reflexivity |]. split; [apply release_pool |].
    split; [| reflexivity].
    rewrite release_buffer, Nat.eqb_refl. apply released_idle.
  - destruct (copyOut m1 (streamBuffer m1 stream)) as [m2 result] eqn:Hcopy.
    destruct (copyOut_spec _ _ _ _ Hcopy) as (Hst & Hpool & [extra Harr] & Hcont & Hres).
    eexists _, _. split; [reflexivity |].
    split; [rewrite release_pool, Hpool; reflexivity |].
    split; [rewrite release_buffer, Nat.eqb_refl; apply released_idle |].
    exists result. split; [reflexivity |]. split.
    + rewrite <- Hcont. destruct (release_arrays m2 stream) as [extra' Harr'].
      apply (contents_frame _ _ _ _ Harr'). intros l Hl. now apply Hres.
    + intros l Hl. destruct (Hres l Hl) as [-> Hlt]. split; [lia |].
      intros id. rewrite release_buffer.
      assert (Hold : forall k, s_array (streamBuffer m2 k)
                               <> Some (List.length (arrays m1))).
      { intros k. rewrite (streamBuffer_same _ _ _ Hst).
        pose proof (wf_allocated m1 k Hwf) as Ha. unfold allocated in Ha.
        destruct (s_array (streamBuffer m1 k)) as [a |]; [| discriminate].
        apply Nat.ltb_lt in Ha. intros E. injection E as ->. lia. }
      destruct (Nat.eqb id stream); [| apply Hold].
      unfold released. destruct (s_cap (streamBuffer m2 stream) >? 8192).
      * cbn. intros E. injection E as E. lia.
      * cbn. apply Hold.
  - eexists _, _. split; [reflexivity |]. split; [apply release_pool |].
    split; [| reflexivity].
    rewrite release_buffer, Nat.eqb_refl. apply released_idle.
Qed.

End MarshalResults.

Lemma Marshal_copies_and_releases_witness :
  exists m' r,
    Marshal (runEncoder (stringEncoder Sample.typeName)) 0 emptyMemory
      (VString (bytes "ab")) = (m', r)
    /\ encoderStreamPool m' = [0%nat]
    /\ s_len (streamBuffer m' 0) = 0
    /\ exists result,
         r = Return result None
         /\ contents m' result = quote :: bytes "ab" ++ [quote]
         /\ forall l, s_array result = Some l ->
                      (1 <= l)%nat /\ forall id, s_array (streamBuffer m' id) <> Some l.
Proof.
  destruct (Marshal_copies_and_releases (runEncoder (stringEncoder Sample.typeName))
              0 emptyMemory (VString (bytes "ab")) _ _ _ _
              eq_refl eq_refl eq_refl) as (m' & r & HM & Hpool & Hlen & Hres).
  exists m', r. repeat split; try assumption.
Defined.

(* ================================================================== *)
(** * Results: what the integer parsers accept, return and reject *)
(* ================================================================== *)

Lemma uint64_small (z : Z) : 0 <= z <= MaxUint64 -> uint64 z = z.
Proof. intros H. unfold uint64, MaxUint64 in *. apply Z.mod_small. lia. Qed.

Lemma int64_small (z : Z) : MinInt64 <= z <= MaxInt64 -> int64 z = z.
Proof.
  intros H. unfold int64, MinInt64, MaxInt64 in *.
  rewrite Z.mod_small by lia. lia.
Qed.

Lemma digitOf_range (d : byte) : 0 <= digitOf d.
Proof. destruct d; vm_compute; discriminate. Qed.

Lemma validDigit_value (base : Z) (d : byte) :
  validDigit base d = true ->
  exists v, digitValue d = Some v /\ byte_val v = digitOf d /\ 0 <= digitOf d < base.
Proof.
  unfold validDigit, digitOf. pose proof (digitOf_range d) as Hd. unfold digitOf in Hd.
  destruct (digitValue d) as [v |]; [| discriminate].
  intros H. apply Z.ltb_lt in H. exists v. repeat split; lia.
Qed.

Lemma numeral_mono (base : Z) (ds : list byte) :
  1 <= base -> forall n, 0 <= n -> n <= numeral base ds n.
Proof.
  intros Hb. induction ds as [| d ds IH]; intros n Hn; [cbn; lia |].
  cbn [numeral fold_left]. pose proof (digitOf_range d).
  fold (numeral base ds (n * base + digitOf d)).
  etransitivity; [| apply IH; nia]. nia.
Qed.

Lemma numeral_app (base : Z) (p q : list byte) (n : Z) :
  numeral base (p ++ q) n = numeral base q (numeral base p n).
Proof. unfold numeral. apply fold_left_app. Qed.

Lemma parseUintDigits_exact (base : Z) (ds : list byte) :
  2 <= base <= 36 -> forallb (validDigit base) ds = true ->
  forall n, 0 <= n -> numeral base ds n <= MaxUint64 ->
            parseUintDigits ds base n = Next (numeral base ds n).
Proof.
  intros Hb. induction ds as [| d ds IH]; intros Hv n Hn Hmax; [reflexivity |].
  cbn [forallb] in Hv. apply andb_true_iff in Hv as [Hd Hds].
  destruct (validDigit_value base d Hd) as (v & Ev & Hv & Hr).
  cbn [parseUintDigits numeral fold_left] in *.
  fold (numeral base ds (n * base + digitOf d)) in *.
  rewrite Ev, Hv.
  pose proof (numeral_mono base ds ltac:(lia) (n * base + digitOf d) ltac:(nia)) as Hm.
  rewrite (uint64_small base) by (unfold MaxUint64; lia).
  destruct (Z.geb_spec (digitOf d) base) as [H | _]; [lia |].
  assert (Hq : n <= MaxUint64 / base) by (apply Z.div_le_lower_bound; nia).
  destruct (Z.gtb_spec n (MaxUint64 / base)) as [H | _]; [lia |].
  rewrite (uint64_small (n * base)) by nia.
  rewrite (uint64_small (n * base + digitOf d)) by nia.
  apply IH; try assumption. nia.
Qed.

Lemma parseIntDigits_exact (base : Z) (negative : bool) (ds : list byte) :
  2 <= base <= 36 -> forallb (validDigit base) ds = true ->
  forall n, 0 <= n -> numeral base ds n <= MaxInt64 ->
            parseIntDigits ds base negative n = Next (numeral base ds n).
Proof.
  intros Hb. induction ds as [| d ds IH]; intros Hv n Hn Hmax; [reflexivity |].
  cbn [forallb] in Hv. apply andb_true_iff in Hv as [Hd Hds].
  destruct (validDigit_value base d Hd) as (v & Ev & Hv & Hr).
  cbn [parseIntDigits numeral fold_left] in *.
  fold (numeral base ds (n * base + digitOf d)) in *.
  rewrite Ev, Hv.
  pose proof (numeral_mono base ds ltac:(lia) (n * base + digitOf d) ltac:(nia)) as Hm.
  rewrite (int64_small base) by (unfold MinInt64, MaxInt64; lia).
  destruct (Z.geb_spec (digitOf d) base) as [H | _]; [lia |].
  rewrite Z.quot_div_nonneg by (unfold MaxInt64; lia).
  assert (Hq : n <= MaxInt64 / base) by (apply Z.div_le_lower_bound; nia).
  destruct (Z.gtb_spec n (MaxInt64 / base)) as [H | _]; [lia |].
  rewrite (int64_small (n * base)) by (unfold MinInt64 in *; nia).
  rewrite (int64_small (n * base + digitOf d)) by (unfold MinInt64 in *; nia).
  apply IH; try assumption. nia.
Qed.

Lemma parseUintDigits_app (base : Z) (p q : list byte) (n : Z) :
  parseUintDigits (p ++ q) base n
  = match parseUintDigits p base n with
    | Next n' => parseUintDigits q base n'
    | Exit r => Exit r
    end.
Proof.
  revert n. induction p as [| d p IH]; intros n; [reflexivity |].
  cbn [app parseUintDigits]. destruct (digitValue d) as [v |]; [| reflexivity].
  destruct (byte_val v >=? base); [reflexivity |].
  destruct (n >? MaxUint64 / uint64 base); [reflexivity |]. apply IH.
Qed.

Lemma parseIntDigits_app (base : Z) (negative : bool) (p q : list byte) (n : Z) :
  parseIntDigits (p ++ q) base negative n
  = match parseIntDigits p base negative n with
    | Next n' => parseIntDigits q base negative n'
    | Exit r => Exit r
    end.
Proof.
  revert n. induction p as [| d p IH]; intros n; [reflexivity |].
  cbn [app parseIntDigits]. destruct (digitValue d) as [v |]; [| reflexivity].
  destruct (byte_val v >=? base); [reflexivity |].
  destruct (n >? Z.quot MaxInt64 (int64 base)); [reflexivity |]. apply IH.
Qed.

Lemma validDigit_not_sign (base : Z) (d : byte) :
  validDigit base d = true -> Byte.eqb d "+" = false /\ Byte.eqb d "-" = false.
Proof.
  destruct d; intros H; (split; reflexivity) || (vm_compute in H; discriminate H).
Qed.

Lemma len_pos_cons {A : Type} (x : A) (l : list A) : 0 < len (x :: l).
Proof. rewrite len_cons. pose proof (len_nonneg l). lia. Qed.

(** What the parsers do with the input once the sign is read. *)
Lemma parseUintFromBytes_digits (pre ds : list byte) (base bitSize : Z) :
  pre = [] \/ pre = ["+"%byte] ->
  ds <> [] ->
  (pre = [] -> exists d ds', ds = d :: ds' /\ Byte.eqb d "+" = false) ->
  parseUintFromBytes (pre ++ ds) base bitSize
  = match parseUintDigits ds base 0 with
    | Exit r => r
    | Next n =>
        if fitsUint bitSize n then Return n None
        else
          Return 0 (Some (uintRangeError bitSize))
    end.
Proof.
  intros Hpre Hds Hfirst. unfold parseUintFromBytes.
  destruct Hpre as [-> | ->].
  - destruct (Hfirst eq_refl) as (d & ds' & -> & Hd). cbn [app]. rewrite Hd.
    destruct (Z.geb_spec 0 (len (d :: ds'))) as [H | _];
      [pose proof (len_pos_cons d ds'); lia |].
    cbn [Z.to_nat skipn].
    destruct (parseUintDigits (d :: ds') base 0) as [n | r]; [| reflexivity].
    unfold fitsUint, uintRangeError.
    destruct (Z.eqb_spec bitSize 8), (Z.eqb_spec bitSize 16),
      (Z.eqb_spec bitSize 32); cbn [andb];
      repeat match goal with
             | |- context [?a >? ?b] => destruct (Z.gtb_spec a b)
             | |- context [?a <=? ?b] => destruct (Z.leb_spec a b)
             end; try reflexivity; lia.
  - destruct ds as [| d ds']; [contradiction |]. cbn [app].
    change (Byte.eqb "+" "+") with true. cbv iota.
    destruct (Z.geb_spec 1 (len ("+"%byte :: d :: ds'))) as [H | _];
      [rewrite len_cons in H; pose proof (len_pos_cons d ds'); lia |].
    change (skipn (Z.to_nat 1) ("+"%byte :: d :: ds')) with (d :: ds').
    destruct (parseUintDigits (d :: ds') base 0) as [n | r]; [| reflexivity].
    unfold fitsUint, uintRangeError.
    destruct (Z.eqb_spec bitSize 8), (Z.eqb_spec bitSize 16),
      (Z.eqb_spec bitSize 32); cbn [andb];
      repeat match goal with
             | |- context [?a >? ?b] => destruct (Z.gtb_spec a b)
             | |- context [?a <=? ?b] => destruct (Z.leb_spec a b)
             end; try reflexivity; lia.
Qed.

Lemma parseIntFromBytes_digits (pre ds : list byte) (base bitSize : Z) :
  pre = [] \/ pre = ["+"%byte] \/ pre = ["-"%byte] ->
  ds <> [] ->
  (pre = [] -> exists d ds', ds = d :: ds'
                             /\ Byte.eqb d "+" = false /\ Byte.eqb d "-" = false) ->
  let negative := match pre with ["-"%byte] => true | _ => false end in
  parseIntFromBytes (pre ++ ds) base bitSize
  = match parseIntDigits ds base negative 0 with
    | Exit r => r
    | Next n =>
        let n := if negative then int64 (- n) else n in
        if fitsInt bitSize n then Return n None
        else Return 0 (Some (intRangeError bitSize))
    end.
Proof.
  intros Hpre Hds Hfirst. unfold parseIntFromBytes.
  assert (Hfit : forall n,
             (if (bitSize =? 8) && ((n <? MinInt8) || (n >? MaxInt8))
              then Return 0 (Some "数值超出int8范围"%string)
              else if (bitSize =? 16) && ((n <? MinInt16) || (n >? MaxInt16))
              then Return 0 (Some "数值超出int16范围"%string)
              else if (bitSize =? 32) && ((n <? MinInt32) || (n >? MaxInt32))
              then Return 0 (Some "数值超出int32范围"%string)
              else Return n None)
             = (if fitsInt bitSize n then Return n None
                else Return 0 (Some (intRangeError bitSize)))).
  { intros n. unfold fitsInt, intRangeError.
    destruct (Z.eqb_spec bitSize 8), (Z.eqb_spec bitSize 16),
      (Z.eqb_spec bitSize 32); cbn [andb];
      repeat match goal with
             | |- context [?a >? ?b] => destruct (Z.gtb_spec a b)
             | |- context [?a <? ?b] => destruct (Z.ltb_spec a b)
             | |- context [?a <=? ?b] => destruct (Z.leb_spec a b)
             end; cbn [andb orb]; try reflexivity; lia. }
  destruct Hpre as [-> | [-> | ->]]; cbv zeta.
  - destruct (Hfirst eq_refl) as (d & ds' & -> & Hd & Hd'). cbn [app].
    rewrite Hd, Hd'.
    destruct (Z.geb_spec 0 (len (d :: ds'))) as [H | _];
      [pose proof (len_pos_cons d ds'); lia |].
    cbn [Z.to_nat skipn].
    destruct (parseIntDigits (d :: ds') base false 0) as [n | r]; [| reflexivity].
    apply Hfit.
  - destruct ds as [| d ds']; [contradiction |]. cbn [app].
    change (Byte.eqb "+" "+") with true. cbv iota.
    destruct (Z.geb_spec 1 (len ("+"%byte :: d :: ds'))) as [H | _];
      [rewrite len_cons in H; pose proof (len_pos_cons d ds'); lia |].
    change (skipn (Z.to_nat 1) ("+"%byte :: d :: ds')) with (d :: ds').
    destruct (parseIntDigits (d :: ds') base false 0) as [n | r]; [| reflexivity].
    apply Hfit.
  - destruct ds as [| d ds']; [contradiction |]. cbn [app].
    change (Byte.eqb "-" "+") with false. change (Byte.eqb "-" "-") with true.
    cbv iota.
    destruct (Z.geb_spec 1 (len ("-"%byte :: d :: ds'))) as [H | _];
      [rewrite len_cons in H; pose proof (len_pos_cons d ds'); lia |].
    change (skipn (Z.to_nat 1) ("-"%byte :: d :: ds')) with (d :: ds').
    destruct (parseIntDigits (d :: ds') base true 0) as [n | r]; [| reflexivity].
    apply Hfit.
Qed.

Lemma valid_first (base : Z) (ds : list byte) :
  ds <> [] -> forallb (validDigit base) ds = true ->
  exists d ds', ds = d :: ds' /\ Byte.eqb d "+" = false /\ Byte.eqb d "-" = false.
Proof.
  destruct ds as [| d ds']; [contradiction |]. intros _ H. cbn in H.
  apply andb_true_iff in H as [H _]. exists d, ds'. split; [reflexivity |].
  now apply validDigit_not_sign with base.
Qed.

Lemma parsers_exact (base bitSize : Z) (ds : list byte) :
  2 <= base <= 36 -> ds <> [] -> forallb (validDigit base) ds = true ->
  let v := numeral base ds 0 in
  (v <= MaxUint64 ->
   forall pre, pre = [] \/ pre = ["+"%byte] ->
     parseUintFromBytes (pre ++ ds) base bitSize
     = if fitsUint bitSize v then Return v None
       else Return 0 (Some (uintRangeError bitSize)))
  /\ (v <= MaxInt64 ->
      parseIntFromBytes ds base bitSize
      = (if fitsInt bitSize v then Return v None
         else Return 0 (Some (intRangeError bitSize)))
      /\ parseIntFromBytes ("+"%byte :: ds) base bitSize
         = (if fitsInt bitSize v then Return v None
            else Return 0 (Some (intRangeError bitSize)))
      /\ parseIntFromBytes ("-"%byte :: ds) base bitSize
         = (if fitsInt bitSize (- v) then Return (- v) None
            else Return 0 (Some (intRangeError bitSize)))).
Proof.
  intros Hb Hne Hv v.
  destruct (valid_first base ds Hne Hv) as (d & ds' & Eds & Hplus & Hminus).
  assert (Hv0 : 0 <= v) by (apply (numeral_mono base ds); lia).
  split.
  - intros Hmax pre Hpre.
    rewrite parseUintFromBytes_digits; try assumption.
    + rewrite parseUintDigits_exact by (assumption || lia). reflexivity.
    + intros _. eauto.
  - intros Hmax.
    pose proof (parseIntDigits_exact base false ds Hb Hv 0 ltac:(lia) Hmax) as Ef.
    pose proof (parseIntDigits_exact base true ds Hb Hv 0 ltac:(lia) Hmax) as Et.
    split; [| split].
    + rewrite (parseIntFromBytes_digits [] ds); try tauto.
      * cbv zeta. rewrite Ef. reflexivity.
      * intros _. eauto.
    + change ("+"%byte :: ds) with (["+"%byte] ++ ds).
      rewrite (parseIntFromBytes_digits ["+"%byte] ds); try tauto.
      * cbv zeta. rewrite Ef. reflexivity.
      * intros H. discriminate H.
    + change ("-"%byte :: ds) with (["-"%byte] ++ ds).
      rewrite (parseIntFromBytes_digits ["-"%byte] ds); try tauto.
      * cbv zeta. rewrite Et. fold v.
        rewrite int64_small by (unfold MinInt64, MaxInt64 in *; lia). reflexivity.
      * intros H. discriminate H.
Qed.

(** X1: in range, the parsers return the number the digits denote. *)
Theorem parse_exact_in_range (base bitSize : Z) (ds : list byte) :
  2 <= base <= 36 -> ds <> [] -> forallb (validDigit base) ds = true ->
  let v := numeral base ds 0 in
  (v <= MaxUint64 ->
   forall pre, pre = [] \/ pre = ["+"%byte] ->
     parseUintFromBytes (pre ++ ds) base bitSize
     = if fitsUint bitSize v then Return v None
       else Return 0 (Some (uintRangeError bitSize)))
  /\ (v <= MaxInt64 ->
      parseIntFromBytes ds base bitSize
      = (if fitsInt bitSize v then Return v None
         else Return 0 (Some (intRangeError bitSize)))
      /\ parseIntFromBytes ("+"%byte :: ds) base bitSize
         = (if fitsInt bitSize v then Return v None
            else Return 0 (Some (intRangeError bitSize)))
      /\ parseIntFromBytes ("-"%byte :: ds) base bitSize
         = (if fitsInt bitSize (- v) then Return (- v) None
            else Return 0 (Some (intRangeError bitSize)))).
Proof. exact (parsers_exact base bitSize ds). Qed.

Lemma parse_exact_in_range_witness :
  parseUintFromBytes (bytes "128") 10 8 = Return 128 None
  /\ parseIntFromBytes (bytes "128") 10 8 = Return 0 (Some (intRangeError 8))
  /\ parseIntFromBytes (bytes "-128") 10 8 = Return (-128) None.
Proof.
  pose proof (parse_exact_in_range 10 8 (bytes "128") ltac:(lia)
                ltac:(discriminate) eq_refl) as H.
  cbv zeta in H. destruct H as [HU HI].
  specialize (HU ltac:(vm_compute; discriminate) [] (or_introl eq_refl)).
  specialize (HI ltac:(vm_compute; discriminate)).
  destruct HI as (Hplain & _ & Hminus).
  vm_compute in HU, Hplain, Hminus |- *.
  split; [exact HU | split; [exact Hplain | exact Hminus]].
Defined.




Lemma parseUintDigits_invalid (base : Z) (c : byte) (rest : list byte) (n : Z) :
  validDigit base c = false ->
  exists msg, parseUintDigits (c :: rest) base n = Exit (Return 0 (Some msg)).
Proof.
  unfold validDigit. cbn [parseUintDigits].
  destruct (digitValue c) as [v |]; [| eauto].
  intros H. apply Z.ltb_ge in H.
  destruct (Z.geb_spec (byte_val v) base) as [_ | H']; [eauto | lia].
Qed.

Lemma parseIntDigits_invalid (base : Z) (negative : bool) (c : byte)
  (rest : list byte) (n : Z) :
  validDigit base c = false ->
  exists msg, parseIntDigits (c :: rest) base negative n = Exit (Return 0 (Some msg)).
Proof.
  unfold validDigit. cbn [parseIntDigits].
  destruct (digitValue c) as [v |]; [| eauto].
  intros H. apply Z.ltb_ge in H.
  destruct (Z.geb_spec (byte_val v) base) as [_ | H']; [eauto | lia].
Qed.

(** X3: what the parsers reject. *)
Theorem parse_rejects (base bitSize : Z) (p : list byte) (c : byte)
  (rest : list byte) :
  2 <= base <= 36 -> forallb (validDigit base) p = true ->
  validDigit base c = false ->
  (numeral base p 0 <= MaxUint64 ->
   (p <> [] \/ Byte.eqb c "+" = false ->
    failed 0 (parseUintFromBytes (p ++ c :: rest) base bitSize))
   /\ failed 0 (parseUintFromBytes ("+"%byte :: p ++ c :: rest) base bitSize))
  /\ (numeral base p 0 <= MaxInt64 ->
      (p <> [] \/ (Byte.eqb c "+" = false /\ Byte.eqb c "-" = false) ->
       failed 0 (parseIntFromBytes (p ++ c :: rest) base bitSize))
      /\ failed 0 (parseIntFromBytes ("+"%byte :: p ++ c :: rest) base bitSize)
      /\ failed 0 (parseIntFromBytes ("-"%byte :: p ++ c :: rest) base bitSize))
  /\ failed 0 (parseUintFromBytes [] base bitSize)
  /\ failed 0 (parseUintFromBytes ["+"%byte] base bitSize)
  /\ failed 0 (parseIntFromBytes [] base bitSize)
  /\ failed 0 (parseIntFromBytes ["+"%byte] base bitSize)
  /\ failed 0 (parseIntFromBytes ["-"%byte] base bitSize).
Proof.
  intros Hb Hp Hc.
  assert (Hne : p ++ c :: rest <> []) by (intros E; apply app_eq_nil in E as [_ E]; discriminate).
  assert (Hfirst : p <> [] \/ (Byte.eqb c "+" = false /\ Byte.eqb c "-" = false) ->
             exists x xs, p ++ c :: rest = x :: xs
                          /\ Byte.eqb x "+" = false /\ Byte.eqb x "-" = false).
  { intros H. destruct p as [| x xs].
    - destruct H as [H | H]; [contradiction |]. exists c, rest. now split.
    - exists x, (xs ++ c :: rest). split; [reflexivity |].
      cbn in Hp. apply andb_true_iff in Hp as [Hx _].
      now apply validDigit_not_sign with base. }
  assert (HU : numeral base p 0 <= MaxUint64 ->
               exists msg, parseUintDigits (p ++ c :: rest) base 0
                           = Exit (Return 0 (Some msg))).
  { intros Hmax. rewrite parseUintDigits_app, parseUintDigits_exact by (assumption || lia).
    now apply parseUintDigits_invalid. }
  assert (HI : forall negative, numeral base p 0 <= MaxInt64 ->
               exists msg, parseIntDigits (p ++ c :: rest) base negative 0
                           = Exit (Return 0 (Some msg))).
  { intros negative Hmax.
    rewrite parseIntDigits_app, parseIntDigits_exact by (assumption || lia).
    now apply parseIntDigits_invalid. }
  split; [| split].
  - intros Hmax. destruct (HU Hmax) as [msg Hmsg]. split.
    + intros H. exists msg.
      rewrite (parseUintFromBytes_digits [] (p ++ c :: rest));
        [now rewrite Hmsg | now left | exact Hne |].
      intros _. destruct p as [| x xs].
      * destruct H as [H | H]; [contradiction |]. exists c, rest. now split.
      * exists x, (xs ++ c :: rest). split; [reflexivity |].
        cbn in Hp. apply andb_true_iff in Hp as [Hx _].
        now apply validDigit_not_sign with base.
    + exists msg.
      change ("+"%byte :: p ++ c :: rest) with (["+"%byte] ++ (p ++ c :: rest)).
      rewrite (parseUintFromBytes_digits ["+"%byte] (p ++ c :: rest));
        [now rewrite Hmsg | now right | exact Hne | intros H; discriminate H].
  - intros Hmax. split; [| split].
    + intros H. destruct (HI false Hmax) as [msg Hmsg]. exists msg.
      rewrite (parseIntFromBytes_digits [] (p ++ c :: rest));
        [cbv zeta; now rewrite Hmsg | now left | exact Hne
        | intros _; now apply Hfirst].
    + destruct (HI false Hmax) as [msg Hmsg]. exists msg.
      change ("+"%byte :: p ++ c :: rest) with (["+"%byte] ++ (p ++ c :: rest)).
      rewrite (parseIntFromBytes_digits ["+"%byte] (p ++ c :: rest));
        [cbv zeta; now rewrite Hmsg | right; now left | exact Hne
        | intros H; discriminate H].
    + destruct (HI true Hmax) as [msg Hmsg]. exists msg.
      change ("-"%byte :: p ++ c :: rest) with (["-"%byte] ++ (p ++ c :: rest)).
      rewrite (parseIntFromBytes_digits ["-"%byte] (p ++ c :: rest));
        [cbv zeta; now rewrite Hmsg | right; now right | exact Hne
        | intros H; discriminate H].
  - repeat split; eexists; reflexivity.
Qed.

Lemma parse_rejects_witness :
  failed 0 (parseUintFromBytes (bytes "12x3") 10 64)
  /\ failed 0 (parseIntFromBytes (bytes "-12x3") 10 64).
Proof.
  destruct (parse_rejects 10 64 (bytes "12") "x" (bytes "3")
              ltac:(lia) eq_refl eq_refl) as (HU & HI & _).
  specialize (HU ltac:(vm_compute; discriminate)). destruct HU as [HU _].
  specialize (HU (or_intror eq_refl)).
  specialize (HI ltac:(vm_compute; discriminate)). destruct HI as (_ & _ & HI).
  split; [exact HU | exact HI].
Defined.

(* ---------- decimal numerals ---------- *)

Lemma digitChar_digit (d : Z) :
  0 <= d < 10 ->
  validDigit 10 (strconv.digitChar d) = true /\ digitOf (strconv.digitChar d) = d.
Proof.
  intros Hd.
  assert (Hcases : d = 0 \/ d = 1 \/ d = 2 \/ d = 3 \/ d = 4
                   \/ d = 5 \/ d = 6 \/ d = 7 \/ d = 8 \/ d = 9) by lia.
  repeat (destruct Hcases as [-> | Hcases]; [split; reflexivity |]).
  subst d. split; reflexivity.
Qed.

Lemma formatBits_numeral (fuel : nat) :
  forall u acc, 0 <= u < 10 ^ Z.of_nat fuel ->
    numeral 10 (strconv.formatBits fuel u 10 acc) 0 = numeral 10 acc u
    /\ forallb (validDigit 10) (strconv.formatBits fuel u 10 acc)
       = forallb (validDigit 10) acc.
Proof.
  induction fuel as [| fuel IH]; intros u acc Hu.
  - cbn in Hu. assert (u = 0) by lia. subst u. split; reflexivity.
  - cbn [strconv.formatBits]. destruct (Z.ltb_spec u 10) as [Hlt | Hge].
    + destruct (digitChar_digit u ltac:(lia)) as [Hv Hd].
      cbn [forallb numeral fold_left]. rewrite Hv, Hd. split; reflexivity.
    + pose proof (Z.mod_pos_bound u 10 ltac:(lia)) as Hm.
      destruct (digitChar_digit (u mod 10) Hm) as [Hv Hd].
      assert (Hq : 0 <= u / 10 < 10 ^ Z.of_nat fuel).
      { split; [apply Z.div_pos; lia |]. apply Z.div_lt_upper_bound; [lia |].
        replace (Z.of_nat (S fuel)) with (Z.of_nat fuel + 1) in Hu by lia.
        rewrite Z.pow_add_r in Hu by lia. lia. }
      destruct (IH (u / 10) (strconv.digitChar (u mod 10) :: acc) Hq) as [IH1 IH2].
      rewrite IH1, IH2. cbn [forallb numeral fold_left]. rewrite Hv, Hd.
      split; [| reflexivity].
      replace (u / 10 * 10 + u mod 10) with u
        by (pose proof (Z.div_mod u 10 ltac:(lia)); lia).
      reflexivity.
Qed.

Lemma formatBits_nonempty (fuel : nat) (u : Z) (acc : list byte) :
  strconv.formatBits (S fuel) u 10 acc <> [].
Proof.
  revert u acc. induction fuel as [| fuel IH]; intros u acc;
    cbn [strconv.formatBits]; destruct (u <? 10); try discriminate.
  apply IH.
Qed.

Lemma decimal_spec (u : Z) :
  0 <= u <= MaxUint64 ->
  decimal u <> [] /\ forallb (validDigit 10) (decimal u) = true
  /\ numeral 10 (decimal u) 0 = u.
Proof.
  intros Hu. unfold decimal.
  destruct (formatBits_numeral 64 u []) as [H1 H2].
  { split; [lia |]. eapply Z.le_lt_trans; [apply Hu | vm_compute; reflexivity]. }
  split; [apply formatBits_nonempty |]. split; [exact H2 | exact H1].
Qed.

Lemma magnitude_abs (i : Z) :
  MinInt64 <= i < 0 -> uint64 (int64 (- i)) = - i.
Proof.
  intros Hi. unfold uint64, int64, MinInt64 in *.
  destruct (Z.eq_dec i (-9223372036854775808)) as [-> | Hne]; [reflexivity |].
  rewrite (Z.mod_small (- i + 2 ^ 63)) by lia.
  replace (- i + 2 ^ 63 - 2 ^ 63) with (- i) by lia.
  apply Z.mod_small. lia.
Qed.

Lemma parseUint_decimal (u : Z) :
  0 <= u <= MaxUint64 -> parseUintFromBytes (decimal u) 10 64 = Return u None.
Proof.
  intros Hu. destruct (decimal_spec u Hu) as (Hne & Hv & Hn).
  pose proof (proj1 (parsers_exact 10 64 (decimal u) ltac:(lia) Hne Hv)) as H.
  cbv zeta in H. rewrite Hn in H. apply (H (proj2 Hu) []). now left.
Qed.

Lemma parseInt_signedDecimal (i : Z) :
  MinInt64 <= i <= MaxInt64 -> parseIntFromBytes (signedDecimal i) 10 64 = Return i None.
Proof.
  intros Hi. unfold signedDecimal. destruct (Z.ltb_spec i 0) as [Hneg | Hpos].
  - destruct (Z.eq_dec i MinInt64) as [-> | Hne]; [vm_compute; reflexivity |].
    replace (Z.abs i) with (- i) by lia.
    assert (Hu : 0 <= - i <= MaxUint64) by (unfold MinInt64, MaxUint64 in *; lia).
    destruct (decimal_spec (- i) Hu) as (Hne' & Hv & Hn).
    pose proof (proj2 (parsers_exact 10 64 (decimal (- i)) ltac:(lia) Hne' Hv)) as H.
    cbv zeta in H. rewrite Hn in H.
    destruct H as (_ & _ & H); [unfold MinInt64, MaxInt64 in *; lia |].
    cbn [app]. rewrite H, Z.opp_involutive. reflexivity.
  - replace (Z.abs i) with i by lia.
    assert (Hu : 0 <= i <= MaxUint64) by (unfold MaxInt64, MaxUint64 in *; lia).
    destruct (decimal_spec i Hu) as (Hne' & Hv & Hn).
    pose proof (proj2 (parsers_exact 10 64 (decimal i) ltac:(lia) Hne' Hv)) as H.
    cbv zeta in H. rewrite Hn in H.
    destruct H as (H & _ & _); [lia |]. exact H.
Qed.

(** X4: the parsers read every decimal numeral back. *)
Theorem parse_reads_decimal :
  (forall u, 0 <= u <= MaxUint64 ->
     parseUintFromBytes (decimal u) 10 64 = Return u None)
  /\ (forall i, MinInt64 <= i <= MaxInt64 ->
        parseIntFromBytes (signedDecimal i) 10 64 = Return i None).
Proof. split; [exact parseUint_decimal | exact parseInt_signedDecimal]. Qed.

Lemma parse_reads_decimal_witness :
  parseUintFromBytes (decimal 18446744073709551615) 10 64
  = Return 18446744073709551615 None
  /\ parseIntFromBytes (signedDecimal (-10005)) 10 64 = Return (-10005) None.
Proof.
  split.
  - apply (proj1 parse_reads_decimal). unfold MaxUint64. lia.
  - apply (proj2 parse_reads_decimal). unfold MinInt64, MaxInt64. lia.
Defined.

Lemma appendUint_outside (dst : list byte) (u : Z) :
  0 <= u -> u < 10000 \/ 100000000 <= u ->
  appendUint dst u 10 = Some (dst ++ decimal u).
Proof.
  intros Hu [Hs | Hl]; [apply appendUint_small; lia | apply appendUint_large; lia].
Qed.

(** X5: outside of the range of the pair loop the renderers are exact, and
    parsing gives the number back. *)
Theorem append_exact_outside_mid_range :
  (forall dst u, 0 <= u <= MaxUint64 -> u < 10000 \/ 100000000 <= u ->
     appendUint dst u 10 = Some (dst ++ decimal u)
     /\ parseUintFromBytes (decimal u) 10 64 = Return u None)
  /\ (forall dst i, MinInt64 <= i <= MaxInt64 ->
        Z.abs i < 10000 \/ 100000000 <= Z.abs i ->
        appendInt dst i 10 = Some (dst ++ signedDecimal i)
        /\ parseIntFromBytes (signedDecimal i) 10 64 = Return i None).
Proof.
  split.
  - intros dst u Hu Hr. split; [apply appendUint_outside; lia | now apply parseUint_decimal].
  - intros dst i Hi Hr. split; [| now apply parseInt_signedDecimal].
    unfold appendInt, signedDecimal. destruct (Z.ltb_spec i 0) as [Hneg | Hpos].
    + rewrite magnitude_abs by lia. replace (Z.abs i) with (- i) by lia.
      rewrite appendUint_outside by lia. now rewrite <- app_assoc.
    + rewrite uint64_small by (unfold MaxInt64, MaxUint64 in *; lia).
      replace (Z.abs i) with i by lia. apply appendUint_outside; lia.
Qed.

Lemma append_exact_outside_mid_range_witness :
  (appendUint [] 123456789 10 = Some ([] ++ decimal 123456789)
   /\ parseUintFromBytes (decimal 123456789) 10 64 = Return 123456789 None)
  /\ (appendInt [] (-9999) 10 = Some ([] ++ signedDecimal (-9999))
      /\ parseIntFromBytes (signedDecimal (-9999)) 10 64 = Return (-9999) None).
Proof.
  split.
  - apply (proj1 append_exact_outside_mid_range); [unfold MaxUint64 |]; lia.
  - apply (proj2 append_exact_outside_mid_range); [unfold MinInt64, MaxInt64 |]; lia.
Defined.

(* ================================================================== *)
(** * Results: when the float parser panics *)
(* ================================================================== *)

(** The integer loop: where it stops, and that it flags digits only. *)
Lemma floatIntPart_spec (rest : list byte) :
  forall i n sawDigit,
    match floatIntPart rest i n sawDigit with
    | Exit r => failed f64.zero r
    | Next (i', _, saw') =>
        i <= i' <= i + len rest
        /\ (i' = i -> startsWithExpMark rest = true \/ rest = [])
        /\ (saw' = true -> sawDigit = true \/ existsb isDigit rest = true)
    end.
Proof.
  induction rest as [| c rest IH]; intros i n saw.
  - cbn. repeat split; auto; lia.
  - cbn [floatIntPart startsWithExpMark existsb]. rewrite len_cons.
    pose proof (len_nonneg rest).
    destruct (Byte.eqb c ".").
    { repeat split; auto; lia. }
    destruct (isExpMark c).
    { repeat split; auto; lia. }
    destruct (isDigit c); [| eexists; reflexivity].
    specialize (IH (i + 1) (f64.add (f64.mul n (f64.ofZ 10)) (digitFloat c)) true).
    destruct (floatIntPart rest (i + 1) _ true) as [[[i' n'] saw'] | r]; [| exact IH].
    destruct IH as (Hi & _ & _). repeat split; auto; lia.
Qed.

Lemma floatFracPart_spec (rest : list byte) :
  forall i n decimal sawDigit,
    match floatFracPart rest i n decimal sawDigit with
    | Exit r => failed f64.zero r
    | Next (i', _, saw') =>
        i <= i' <= i + len rest
        /\ (saw' = true -> sawDigit = true \/ existsb isDigit rest = true)
    end.
Proof.
  induction rest as [| c rest IH]; intros i n decimal saw.
  - cbn. repeat split; auto; lia.
  - cbn [floatFracPart existsb]. rewrite len_cons. pose proof (len_nonneg rest).
    destruct (isExpMark c).
    { repeat split; auto; lia. }
    destruct (isDigit c); [| eexists; reflexivity].
    specialize (IH (i + 1) (f64.add n (f64.mul decimal (digitFloat c)))
                  (f64.mul decimal f64.tenth) true).
    destruct (floatFracPart rest (i + 1) _ _ true) as [[[i' n'] saw'] | r]; [| exact IH].
    destruct IH as (Hi & _). repeat split; auto; lia.
Qed.

Lemma floatExpDigits_spec (rest : list byte) :
  forall exp,
    match floatExpDigits rest exp with
    | Exit r => failed f64.zero r
    | Next _ => True
    end.
Proof.
  induction rest as [| c rest IH]; intros exp; [exact I |].
  cbn [floatExpDigits]. destruct (isDigit c); [apply IH | eexists; reflexivity].
Qed.

Lemma floatExponent_spec (b : list byte) (i : Z) (n : float64) :
  0 <= i ->
  match floatExponent b i n with
  | Exit r => failed f64.zero r
  | Next _ => True
  end.
Proof.
  intros Hi. unfold floatExponent.
  destruct (Z.geb_spec (i + 1) (len b)) as [_ | Hlt]; [eexists; reflexivity |].
  destruct (lookup_Some b (i + 1) ltac:(lia)) as [c ->].
  assert (Hcont : forall j, 0 <= j ->
            match
              (if j >=? len b
               then Exit (Return f64.zero (Some "无效的指数格式"%string))
               else
                 match lookup b j with
                 | None => @Exit float64 float64 Panic
                 | Some c0 =>
                     if (byte_val c0 <? byte_val "0") || (byte_val c0 >? byte_val "9")
                     then Exit (Return f64.zero (Some "无效的指数格式"%string))
                     else
                       match floatExpDigits (skipn (Z.to_nat j) b) 0 with
                       | Exit r => Exit r
                       | Next exp => Next n
                       end
                 end)
            with
            | Exit r => failed f64.zero r
            | Next _ => True
            end).
  { intros j Hj. destruct (Z.geb_spec j (len b)) as [_ | Hj']; [eexists; reflexivity |].
    destruct (lookup_Some b j ltac:(lia)) as [c0 ->].
    destruct (_ || _); [eexists; reflexivity |].
    pose proof (floatExpDigits_spec (skipn (Z.to_nat j) b) 0) as H.
    destruct (floatExpDigits _ 0); [exact I | exact H]. }
  destruct (Byte.eqb c "+"); [| destruct (Byte.eqb c "-")].
  - specialize (Hcont (i + 1 + 1) ltac:(lia)).
    destruct (i + 1 + 1 >=? len b); [exact Hcont |].
    destruct (lookup b (i + 1 + 1)); [| exact Hcont].
    destruct (_ || _); [exact Hcont |].
    destruct (floatExpDigits _ 0); [exact I | exact Hcont].
  - specialize (Hcont (i + 1 + 1) ltac:(lia)).
    destruct (i + 1 + 1 >=? len b); [exact Hcont |].
    destruct (lookup b (i + 1 + 1)); [| exact Hcont].
    destruct (_ || _); [exact Hcont |].
    destruct (floatExpDigits _ 0); [exact I | exact Hcont].
  - specialize (Hcont (i + 1) ltac:(lia)).
    destruct (i + 1 >=? len b); [exact Hcont |].
    destruct (lookup b (i + 1)); [| exact Hcont].
    destruct (_ || _); [exact Hcont |].
    destruct (floatExpDigits _ 0); [exact I | exact Hcont].
Qed.

Lemma existsb_skipn {A : Type} (f : A -> bool) (k : nat) (l : list A) :
  existsb f (skipn k l) = true -> existsb f l = true.
Proof.
  revert l. induction k as [| k IH]; intros l H; [exact H |].
  destruct l as [| x l]; [exact H |]. cbn in *. rewrite (IH l H). apply orb_true_r.
Qed.

(** Away from a leading exponent mark the parser returns, and it returns an
    error when the input has no digit. *)
Lemma parseFloat_returns (b : list byte) (bitSize : Z) :
  startsWithExpMark b = false ->
  match parseFloatFromBytes b bitSize with
  | Panic => False
  | Return v err =>
      existsb isDigit b = false -> v = f64.zero /\ err <> None
  end.
Proof.
  intros Hstart. destruct b as [| c0 tl]; [cbn; split; [reflexivity | discriminate] |].
  unfold parseFloatFromBytes.
  set (b := c0 :: tl) in *.
  assert (Hlen : len b = 1 + len tl) by apply len_cons.
  pose proof (len_nonneg tl) as Htl.
  (* the state after the integer loop *)
  assert (Hint : forall (negative : bool) i0 (rest : list byte),
             (i0 = 1 /\ rest = tl) \/ (i0 = 0 /\ rest = b) ->
             match floatIntPart rest i0 f64.zero false with
             | Exit r => failed f64.zero r
             | Next (i, _, saw) =>
                 1 <= i <= len b /\ (saw = true -> existsb isDigit b = true)
             end).
  { intros _ i0 rest Hcase.
    pose proof (floatIntPart_spec rest i0 f64.zero false) as H.
    destruct (floatIntPart rest i0 f64.zero false) as [[[i n] saw] | r]; [| exact H].
    destruct H as (Hi & Hstop & Hsaw).
    destruct Hcase as [[-> ->] | [-> ->]].
    - split; [lia |]. intros Hs. destruct (Hsaw Hs) as [H | H]; [discriminate |].
      unfold b. cbn. rewrite H. apply orb_true_r.
    - split.
      + split; [| lia]. destruct (Z.eq_dec i 0) as [E | E]; [| lia].
        destruct (Hstop E) as [H | H]; [congruence | discriminate].
      + intros Hs. destruct (Hsaw Hs) as [H | H]; [discriminate | exact H]. }
  assert (Htail : forall (negative : bool) i n saw,
             1 <= i <= len b -> (saw = true -> existsb isDigit b = true) ->
             match
               (let frac :=
                  if i <? len b then
                    match lookup b (i - 1) with
                    | None => Exit Panic
                    | Some c =>
                        if Byte.eqb c "." then
                          floatFracPart (skipn (Z.to_nat i) b) i n f64.tenth saw
                        else Next (i, n, saw)
                    end
                  else Next (i, n, saw) in
                match frac with
                | Exit r => r
                | Next (i, n, sawDigit) =>
                    if negb sawDigit then Return f64.zero (Some "无效的数字格式"%string)
                    else
                      let expo :=
                        if i <? len b then
                          match lookup b i with
                          | None => Exit Panic
                          | Some c =>
                              if isExpMark c then floatExponent b i n else Next n
                          end
                        else Next n in
                      match expo with
                      | Exit r => r
                      | Next n =>
                          let n := if negative then f64.neg n else n in
                          if bitSize =? 32 then Return (to_float64 (to_float32 n)) None
                          else Return n None
                      end
                end)
             with
             | Panic => False
             | Return v err => existsb isDigit b = false -> v = f64.zero /\ err <> None
             end).
  { intros negative i n saw Hi Hsaw. cbv zeta.
    assert (Hfrac : match
                      (if i <? len b then
                         match lookup b (i - 1) with
                         | None => Exit Panic
                         | Some c =>
                             if Byte.eqb c "." then
                               floatFracPart (skipn (Z.to_nat i) b) i n f64.tenth saw
                             else Next (i, n, saw)
                         end
                       else Next (i, n, saw))
                    with
                    | Exit r => failed f64.zero r
                    | Next (i', _, saw') =>
                        1 <= i' /\ (saw' = true -> existsb isDigit b = true)
                    end).
    { destruct (Z.ltb_spec i (len b)) as [Hlt | _]; [| split; [lia | exact Hsaw]].
      destruct (lookup_Some b (i - 1) ltac:(lia)) as [c ->].
      destruct (Byte.eqb c "."); [| split; [lia | exact Hsaw]].
      pose proof (floatFracPart_spec (skipn (Z.to_nat i) b) i n f64.tenth saw) as H.
      destruct (floatFracPart _ i n f64.tenth saw) as [[[i' n'] saw'] | r]; [| exact H].
      destruct H as (Hi' & Hs'). split; [lia |].
      intros Hs. destruct (Hs' Hs) as [H | H]; [now apply Hsaw |].
      eapply existsb_skipn, H. }
    destruct (if i <? len b then _ else _) as [[[i' n'] saw'] | r].
    2:{ destruct Hfrac as [msg ->]. intros _. split; [reflexivity | discriminate]. }
    destruct Hfrac as [Hi' Hs'].
    destruct saw'; cbn [negb].
    2:{ intros _. split; [reflexivity | discriminate]. }
    assert (Hdig : existsb isDigit b = true) by now apply Hs'.
    assert (Hexpo : match
                      (if i' <? len b then
                         match lookup b i' with
                         | None => Exit Panic
                         | Some c => if isExpMark c then floatExponent b i' n' else Next n'
                         end
                       else Next n')
                    with
                    | Exit r => failed f64.zero r
                    | Next _ => True
                    end).
    { destruct (Z.ltb_spec i' (len b)) as [Hlt | _]; [| exact I].
      destruct (lookup_Some b i' ltac:(lia)) as [c ->].
      destruct (isExpMark c); [| exact I]. apply floatExponent_spec. lia. }
    destruct (if i' <? len b then _ else _) as [n'' | r].
    - destruct (bitSize =? 32); intros H; congruence.
    - destruct Hexpo as [msg ->]. intros H. congruence. }
  destruct (Byte.eqb c0 "+") eqn:Eplus; [| destruct (Byte.eqb c0 "-") eqn:Eminus].
  - change (skipn (Z.to_nat 1) b) with tl.
    pose proof (Hint false 1 tl (or_introl (conj eq_refl eq_refl))) as H.
    destruct (floatIntPart tl 1 f64.zero false) as [[[i n] saw] | r].
    + destruct H as [Hi Hs]. apply (Htail false i n saw Hi Hs).
    + destruct H as [msg ->]. intros _. split; [reflexivity | discriminate].
  - change (skipn (Z.to_nat 1) b) with tl.
    pose proof (Hint true 1 tl (or_introl (conj eq_refl eq_refl))) as H.
    destruct (floatIntPart tl 1 f64.zero false) as [[[i n] saw] | r].
    + destruct H as [Hi Hs]. apply (Htail true i n saw Hi Hs).
    + destruct H as [msg ->]. intros _. split; [reflexivity | discriminate].
  - change (skipn (Z.to_nat 0) b) with b.
    pose proof (Hint false 0 b (or_intror (conj eq_refl eq_refl))) as H.
    destruct (floatIntPart b 0 f64.zero false) as [[[i n] saw] | r].
    + destruct H as [Hi Hs]. apply (Htail false i n saw Hi Hs).
    + destruct H as [msg ->]. intros _. split; [reflexivity | discriminate].
Qed.

Lemma parseFloat_leading_mark (b : list byte) (bitSize : Z) :
  startsWithExpMark b = true -> parseFloatFromBytes b bitSize = Panic.
Proof.
  destruct b as [| c rest]; [discriminate |]. cbn [startsWithExpMark]. intros Hc.
  assert (Hp : Byte.eqb c "+" = false /\ Byte.eqb c "-" = false).
  { unfold isExpMark in Hc. apply orb_true_iff in Hc as [H | H];
      apply Byte.byte_dec_bl in H; subst c; split; reflexivity. }
  destruct Hp as [Hplus Hminus].
  unfold parseFloatFromBytes. rewrite Hplus, Hminus.
  change (skipn (Z.to_nat 0) (c :: rest)) with (c :: rest).
  cbn [floatIntPart].
  replace (Byte.eqb c ".") with false
    by (unfold isExpMark in Hc; apply orb_true_iff in Hc as [H | H];
        apply Byte.byte_dec_bl in H; subst c; reflexivity).
  rewrite Hc.
  destruct (Z.ltb_spec 0 (len (c :: rest))) as [_ | H];
    [reflexivity | rewrite len_cons in H; pose proof (len_nonneg rest); lia].
Qed.

(** X6: the panic set of the float parser, and inputs without a digit. *)
Theorem parseFloat_outcomes (b : list byte) (bitSize : Z) :
  (parseFloatFromBytes b bitSize = Panic <-> startsWithExpMark b = true)
  /\ (startsWithExpMark b = false -> existsb isDigit b = false ->
      failed f64.zero (parseFloatFromBytes b bitSize)).
Proof.
  split; [split |].
  - intros HP. destruct (startsWithExpMark b) eqn:E; [reflexivity |].
    pose proof (parseFloat_returns b bitSize E) as H. rewrite HP in H. contradiction.
  - apply parseFloat_leading_mark.
  - intros Hs Hd. pose proof (parseFloat_returns b bitSize Hs) as H.
    destruct (parseFloatFromBytes b bitSize) as [v err |]; [| contradiction].
    destruct (H Hd) as [-> Herr]. destruct err as [msg |]; [| contradiction].
    now exists msg.
Qed.

Lemma parseFloat_outcomes_witness :
  parseFloatFromBytes (bytes "e5") 64 = Panic
  /\ failed f64.zero (parseFloatFromBytes (bytes "+.") 64).
Proof.
  split.
  - exact (proj2 (proj1 (parseFloat_outcomes (bytes "e5") 64)) eq_refl).
  - exact (proj2 (parseFloat_outcomes (bytes "+.") 64) eq_refl eq_refl).
Defined.

(* ================================================================== *)
(** * Results: the pair loop of [appendUintOptimized], byte for byte *)
(* ================================================================== *)

Lemma set_nth_middle {A : Type} (a b : list A) (z x : A) :
  set_nth (a ++ z :: b) (List.length a) x = Some (a ++ x :: b).
Proof.
  induction a as [| h a IH]; [reflexivity |]. cbn. now rewrite IH.
Qed.

Lemma store_middle {A : Type} (a b : list A) (z x : A) (pos : Z) :
  pos = len a -> store (a ++ z :: b) pos x = Some (a ++ x :: b).
Proof.
  intros ->. unfold store, len.
  destruct (Z.ltb_spec (Z.of_nat (List.length a)) 0); [lia |].
  rewrite Nat2Z.id. apply set_nth_middle.
Qed.

Lemma split_last {A : Type} (l : list A) :
  1 <= len l -> exists l' z, l = l' ++ [z] /\ len l' = len l - 1.
Proof.
  intros H. destruct (exists_last (l := l)) as (l' & z & ->).
  - intros ->. cbn in H. lia.
  - exists l', z. split; [reflexivity |]. rewrite len_app. cbn. lia.
Qed.

Lemma singleDigits_lookup (r : Z) :
  0 <= r < 10 -> lookup singleDigits r = Some (strconv.digitChar r).
Proof.
  intros Hr.
  assert (Hcases : r = 0 \/ r = 1 \/ r = 2 \/ r = 3 \/ r = 4
                   \/ r = 5 \/ r = 6 \/ r = 7 \/ r = 8 \/ r = 9) by lia.
  repeat (destruct Hcases as [-> | Hcases]; [reflexivity |]).
  subst r. reflexivity.
Qed.

Lemma pairsBytes_small (fuel : nat) (u : Z) : u < 100 -> pairsBytes fuel u = pairBytes u.
Proof.
  intros Hu. destruct fuel; [reflexivity |]. cbn [pairsBytes].
  destruct (Z.geb_spec u 100); [lia | reflexivity].
Qed.

(** The pair loop on a span [pre ++ mid ++ post]: it fills the end of
    [mid] and leaves [pre] and [post] alone. *)
Lemma fillPairs_spec (fuel : nat) :
  forall u pre mid post,
    0 <= u < 100 * 100 ^ Z.of_nat fuel -> 1 <= len mid -> u < 10 ^ len mid ->
    exists mid' junk low u',
      fillPairs fuel (pre ++ mid ++ post) (len pre + len mid - 1) u
      = Some (pre ++ mid' ++ low ++ post, len pre + len mid' - 1, u')
      /\ 0 <= u' < 100 /\ 1 <= len mid' /\ u' < 10 ^ len mid'
      /\ mid = mid' ++ junk /\ len junk = len low
      /\ pairsBytes fuel u = pairBytes u' ++ low.
Proof.
  induction fuel as [| fuel IH]; intros u pre mid post Hu Hmid Hb.
  - cbn [fillPairs]. cbn in Hu.
    destruct (Z.geb_spec u 100) as [H | _]; [lia |].
    exists mid, [], [], u. cbn [app]. rewrite !app_nil_r.
    repeat split; try lia; reflexivity.
  - cbn [fillPairs pairsBytes].
    destruct (Z.geb_spec u 100) as [Hge | Hlt].
    2:{ exists mid, [], [], u. cbn [app]. rewrite !app_nil_r.
        repeat split; try lia; reflexivity. }
    assert (Hp2 : 2 <= len mid - 1)
      by (apply (pow10_pos_ge u (len mid - 1) 2);
          [cbn; lia | now replace (len mid - 1 + 1) with (len mid) by lia | lia]).
    assert (Hq : 0 <= u / 100 < 100 * 100 ^ Z.of_nat fuel).
    { split; [apply Z.div_pos; lia |].
      apply Z.div_lt_upper_bound; [lia |].
      replace (Z.of_nat (S fuel)) with (Z.of_nat fuel + 1) in Hu by lia.
      rewrite Z.pow_add_r in Hu by lia. lia. }
    assert (Hqb : u / 100 < 10 ^ (len mid - 2)).
    { apply Z.div_lt_upper_bound; [lia |].
      replace (len mid) with (2 + (len mid - 2)) in Hb by lia.
      rewrite Z.pow_add_r in Hb by lia. lia. }
    pose proof (Z.mod_pos_bound u 100 ltac:(lia)) as Hr.
    destruct (split_last mid ltac:(lia)) as (m1 & z2 & -> & Hm1).
    rewrite len_app in *. change (len [z2]) with 1 in *.
    destruct (Z.ltb_spec (u mod 100) 10) as [Hr10 | Hr10].
    + rewrite singleDigits_lookup by lia.
      replace (pre ++ (m1 ++ [z2]) ++ post) with ((pre ++ m1) ++ z2 :: post)
        by (rewrite <- !app_assoc; reflexivity).
      rewrite store_middle by (rewrite len_app; lia).
      destruct (IH (u / 100) pre m1 (strconv.digitChar (u mod 100) :: post) Hq
                  ltac:(lia)) as (mid' & junk & low & u' & E & Hu' & Hm' & Hb' & Em & Hj & Hp).
      { eapply Z.lt_le_trans; [exact Hqb |]. apply Z.pow_le_mono_r; lia. }
      exists mid', (junk ++ [z2]), (low ++ [strconv.digitChar (u mod 100)]), u'.
      replace ((pre ++ m1) ++ strconv.digitChar (u mod 100) :: post)
        with (pre ++ m1 ++ strconv.digitChar (u mod 100) :: post)
        by (rewrite <- !app_assoc; reflexivity).
      replace (len pre + (len m1 + 1) - 1 - 1) with (len pre + len m1 - 1) by lia.
      rewrite E. repeat split; try lia.
      * rewrite <- !app_assoc. reflexivity.
      * rewrite Em, <- app_assoc. reflexivity.
      * rewrite !len_app. cbn. lia.
      * rewrite Hp. unfold pairBytes at 2.
        destruct (Z.ltb_spec (u mod 100) 10); [| lia].
        rewrite <- app_assoc. reflexivity.
    + rewrite digits_two by lia. rewrite lookup_pair_1, lookup_pair_0.
      destruct (split_last m1 ltac:(lia)) as (m2 & z1 & -> & Hm2).
      rewrite len_app in *. change (len [z1]) with 1 in *.
      replace (pre ++ ((m2 ++ [z1]) ++ [z2]) ++ post)
        with ((pre ++ m2 ++ [z1]) ++ z2 :: post)
        by (rewrite <- !app_assoc; reflexivity).
      rewrite store_middle by (rewrite !len_app; cbn; lia).
      replace ((pre ++ m2 ++ [z1]) ++ strconv.digitChar ((u mod 100) mod 10) :: post)
        with ((pre ++ m2) ++ z1 :: strconv.digitChar ((u mod 100) mod 10) :: post)
        by (rewrite <- !app_assoc; reflexivity).
      rewrite store_middle by (rewrite !len_app; cbn; lia).
      destruct (IH (u / 100) pre m2
                  (strconv.digitChar (u mod 100 / 10)
                   :: strconv.digitChar ((u mod 100) mod 10) :: post) Hq
                  ltac:(lia)) as (mid' & junk & low & u' & E & Hu' & Hm' & Hb' & Em & Hj & Hp).
      { replace (len m2) with (len m2 + 1 + 1 - 2) by lia. exact Hqb. }
      exists mid', (junk ++ [z1; z2]),
        (low ++ [strconv.digitChar (u mod 100 / 10);
                 strconv.digitChar ((u mod 100) mod 10)]), u'.
      replace ((pre ++ m2) ++ strconv.digitChar (u mod 100 / 10)
               :: strconv.digitChar ((u mod 100) mod 10) :: post)
        with (pre ++ m2 ++ strconv.digitChar (u mod 100 / 10)
              :: strconv.digitChar ((u mod 100) mod 10) :: post)
        by (rewrite <- !app_assoc; reflexivity).
      replace (len pre + (len m2 + 1 + 1) - 1 - 2) with (len pre + len m2 - 1) by lia.
      rewrite E. repeat split; try lia.
      * rewrite <- !app_assoc. reflexivity.
      * rewrite Em, <- !app_assoc. reflexivity.
      * rewrite !len_app. cbn. lia.
      * rewrite Hp. unfold pairBytes at 2.
        destruct (Z.ltb_spec (u mod 100) 10); [lia |].
        rewrite <- app_assoc. reflexivity.
Qed.

Lemma countDigits_decimal (fuel : nat) :
  forall u digitCount acc, 0 <= u ->
    len (strconv.formatBits fuel u 10 acc)
    = countDigits fuel u digitCount - digitCount + len acc.
Proof.
  induction fuel as [| fuel IH]; intros u dc acc Hu; [cbn; lia |].
  cbn [strconv.formatBits countDigits].
  destruct (Z.ltb_spec u 10) as [Hlt | Hge].
  - rewrite Z.div_small by lia. cbn [Z.eqb]. rewrite len_cons. lia.
  - destruct (Z.eqb_spec (u / 10) 0) as [E | _].
    { apply Z.div_small_iff in E; lia. }
    rewrite (IH (u / 10) (dc + 1)) by (apply Z.div_pos; lia).
    rewrite len_cons. lia.
Qed.

Lemma repeat_prefix {A : Type} (x : A) (n : nat) (a b : list A) :
  repeat x n = a ++ b -> a = repeat x (List.length a).
Proof.
  revert n. induction a as [| h a IH]; intros n E; [reflexivity |].
  destruct n as [| n]; [discriminate |]. cbn in E. injection E as <- E.
  cbn. f_equal. eapply IH, E.
Qed.

Lemma pairBytes_len (r : Z) : len (pairBytes r) = if r <? 10 then 1 else 2.
Proof. unfold pairBytes. destruct (r <? 10); reflexivity. Qed.

(** [appendUintOptimized], byte for byte: the bytes of [dst], then zero
    bytes where a pair below ten took one place instead of two, then the
    digits the pair loop wrote. *)
Lemma appendUintOptimized_spec (dst : list byte) (u : Z) :
  0 <= u <= MaxUint64 ->
  exists k,
    appendUintOptimized dst u = Some (dst ++ repeat x00 k ++ pairsBytes 64 u)
    /\ Z.of_nat k + len (pairsBytes 64 u) = len (decimal u).
Proof.
  intros Hu. unfold appendUintOptimized.
  assert (H64 : 0 <= u < 10 ^ Z.of_nat 64)
    by (split; [lia |]; eapply Z.le_lt_trans; [apply Hu | vm_compute; reflexivity]).
  destruct (countDigits_bound 64 u 0 ltac:(lia) H64) as [Hn Hb].
  assert (Hdec : len (decimal u) = countDigits 64 u 0).
  { unfold decimal. rewrite (countDigits_decimal 64 u 0 []) by lia. cbn. lia. }
  set (n := countDigits 64 u 0) in *. rewrite Z.sub_0_r in Hb.
  set (mid := repeat x00 (Z.to_nat n)).
  assert (Hmid : len mid = n) by (unfold mid; rewrite len_repeat; lia).
  destruct (fillPairs_spec 64 u dst mid []) as
    (mid' & junk & low & u' & E & Hu' & Hm' & Hb' & Em & Hj & Hp).
  - split; [lia |]. eapply Z.le_lt_trans; [apply Hu | vm_compute; reflexivity].
  - lia.
  - now rewrite Hmid.
  - rewrite app_nil_r in E. replace (len dst + n - 1) with (len dst + len mid - 1) by lia.
    rewrite E. rewrite app_nil_r.
    destruct (Z.geb_spec u' 10) as [Hge | Hlt].
    + assert (1 <= len mid' - 1)
        by (apply (pow10_pos_ge u' (len mid' - 1) 1);
            [cbn; lia | now replace (len mid' - 1 + 1) with (len mid') by lia | lia]).
      rewrite digits_two by lia. rewrite lookup_pair_1, lookup_pair_0.
      destruct (split_last mid' ltac:(lia)) as (m1 & z2 & -> & Hm1).
      destruct (split_last m1 ltac:(lia)) as (m2 & z1 & -> & Hm2).
      rewrite !len_app in *. change (len [z1]) with 1 in *. change (len [z2]) with 1 in *.
      replace (dst ++ ((m2 ++ [z1]) ++ [z2]) ++ low)
        with ((dst ++ m2 ++ [z1]) ++ z2 :: low)
        by (rewrite <- !app_assoc; reflexivity).
      rewrite store_middle by (rewrite !len_app; cbn; lia).
      replace ((dst ++ m2 ++ [z1]) ++ strconv.digitChar (u' mod 10) :: low)
        with ((dst ++ m2) ++ z1 :: strconv.digitChar (u' mod 10) :: low)
        by (rewrite <- !app_assoc; reflexivity).
      rewrite store_middle by (rewrite !len_app; cbn; lia).
      exists (List.length m2). split.
      * f_equal. rewrite <- app_assoc. f_equal.
        rewrite <- !app_assoc in Em.
        rewrite <- (repeat_prefix _ _ _ _ Em). rewrite Hp. unfold pairBytes.
        destruct (Z.ltb_spec u' 10); [lia | reflexivity].
      * rewrite Hp, len_app, pairBytes_len.
        destruct (Z.ltb_spec u' 10); [lia |].
        assert (len mid = len m2 + 1 + 1 + len junk)
          by (rewrite Em, !len_app; cbn; lia).
        unfold len in *. lia.
    + rewrite singleDigits_lookup by lia.
      destruct (split_last mid' ltac:(lia)) as (m1 & z2 & -> & Hm1).
      rewrite !len_app in *. change (len [z2]) with 1 in *.
      replace (dst ++ (m1 ++ [z2]) ++ low) with ((dst ++ m1) ++ z2 :: low)
        by (rewrite <- !app_assoc; reflexivity).
      rewrite store_middle by (rewrite !len_app; cbn; lia).
      exists (List.length m1). split.
      * f_equal. rewrite <- app_assoc. f_equal.
        rewrite <- !app_assoc in Em.
        rewrite <- (repeat_prefix _ _ _ _ Em). rewrite Hp. unfold pairBytes.
        destruct (Z.ltb_spec u' 10); [reflexivity | lia].
      * rewrite Hp, len_app, pairBytes_len.
        destruct (Z.ltb_spec u' 10); [| lia].
        assert (len mid = len m1 + 1 + len junk)
          by (rewrite Em, !len_app; cbn; lia).
        unfold len in *. lia.
Qed.

(* ---------- when the pair loop agrees with the decimal numeral ---------- *)

Lemma formatBits_len_acc (fuel : nat) (u : Z) (acc : list byte) :
  0 <= u ->
  len (strconv.formatBits fuel u 10 acc) = len (strconv.formatBits fuel u 10 []) + len acc.
Proof.
  intros Hu. rewrite (countDigits_decimal fuel u 0 acc), (countDigits_decimal fuel u 0 [])
    by assumption. cbn. lia.
Qed.

Lemma pair_digits (u : Z) :
  0 <= u ->
  u mod 100 / 10 = (u / 10) mod 10 /\ (u mod 100) mod 10 = u mod 10.
Proof.
  intros Hu.
  pose proof (Z.div_mod u 10 ltac:(lia)). pose proof (Z.mod_pos_bound u 10 ltac:(lia)).
  pose proof (Z.div_mod u 100 ltac:(lia)). pose proof (Z.mod_pos_bound u 100 ltac:(lia)).
  pose proof (Z.div_mod (u / 10) 10 ltac:(lia)).
  pose proof (Z.mod_pos_bound (u / 10) 10 ltac:(lia)).
  pose proof (Z.div_mod (u mod 100) 10 ltac:(lia)).
  pose proof (Z.mod_pos_bound (u mod 100) 10 ltac:(lia)).
  assert (u / 10 / 10 = u / 100) by (rewrite Z.div_div by lia; reflexivity).
  lia.
Qed.

(** Two rounds of the library formatter on a number of three digits or
    more. *)
Lemma formatBits_two (fuel : nat) (u : Z) (acc : list byte) :
  100 <= u ->
  strconv.formatBits (S (S fuel)) u 10 acc
  = strconv.formatBits fuel (u / 100) 10
      (strconv.digitChar (u mod 100 / 10) :: strconv.digitChar ((u mod 100) mod 10) :: acc).
Proof.
  intros Hu. cbn [strconv.formatBits].
  destruct (Z.ltb_spec u 10); [lia |].
  destruct (Z.ltb_spec (u / 10) 10) as [H' | _].
  { assert (10 <= u / 10) by (apply Z.div_le_lower_bound; lia). lia. }
  destruct (pair_digits u ltac:(lia)) as [-> ->].
  rewrite Z.div_div by lia. reflexivity.
Qed.

Lemma pow10_fuel (fuel : nat) (u k : Z) :
  10 ^ k <= u -> u < 10 ^ Z.of_nat fuel -> 0 <= k -> (Z.to_nat k < fuel)%nat.
Proof.
  intros Hlo Hhi Hk.
  destruct (Nat.lt_ge_cases (Z.to_nat k) fuel) as [H | H]; [exact H |].
  exfalso. assert (10 ^ Z.of_nat fuel <= 10 ^ k) by (apply Z.pow_le_mono_r; lia). lia.
Qed.

Lemma div100_fuel (fuel : nat) (u : Z) :
  0 <= u < 10 ^ Z.of_nat (S (S fuel)) -> u / 100 < 10 ^ Z.of_nat fuel.
Proof.
  intros Hu. apply Z.div_lt_upper_bound; [lia |].
  replace (Z.of_nat (S (S fuel))) with (2 + Z.of_nat fuel) in Hu by lia.
  rewrite Z.pow_add_r in Hu by lia. lia.
Qed.

Lemma pairs_decimal (p : nat) :
  forall u (f : nat) acc,
    0 <= u < 100 * 100 ^ Z.of_nat p -> (0 < f)%nat -> u < 10 ^ Z.of_nat f ->
    len (pairsBytes p u) <= len (strconv.formatBits f u 10 [])
    /\ (pairsFull p u = true -> strconv.formatBits f u 10 acc = pairsBytes p u ++ acc)
    /\ (pairsFull p u = false ->
        len (pairsBytes p u) < len (strconv.formatBits f u 10 [])).
Proof.
  assert (Hsmall : forall u (f : nat) acc, 0 <= u < 100 -> (0 < f)%nat ->
            u < 10 ^ Z.of_nat f ->
            strconv.formatBits f u 10 acc = pairBytes u ++ acc).
  { intros u f acc Hu Hf Hb. unfold pairBytes.
    destruct f as [| f]; [lia |]. cbn [strconv.formatBits].
    destruct (Z.ltb_spec u 10) as [Hlt | Hge]; [reflexivity |].
    assert (Hf' : (1 < S f)%nat) by (apply (pow10_fuel (S f) u 1); cbn; lia).
    destruct f as [| f]; [lia |]. cbn [strconv.formatBits].
    destruct (Z.ltb_spec (u / 10) 10) as [_ | H]; [reflexivity |].
    assert (u / 10 < 10) by (apply Z.div_lt_upper_bound; lia). lia. }
  induction p as [| p IH]; intros u f acc Hu Hf Hb.
  - cbn in Hu. cbn [pairsBytes pairsFull].
    rewrite (Hsmall u f []), app_nil_r by lia.
    split; [lia |]. split; [intros _; apply Hsmall; lia | discriminate].
  - cbn [pairsBytes pairsFull].
    destruct (Z.geb_spec u 100) as [Hge | Hlt].
    2:{ rewrite (Hsmall u f []), app_nil_r by lia.
        split; [lia |]. split; [intros _; apply Hsmall; lia | discriminate]. }
    assert (Hf2 : (2 < f)%nat) by (apply (pow10_fuel f u 2); cbn; lia).
    destruct f as [| [| f]]; try lia.
    assert (Hq : 0 <= u / 100 < 100 * 100 ^ Z.of_nat p).
    { split; [apply Z.div_pos; lia |].
      apply Z.div_lt_upper_bound; [lia |].
      replace (Z.of_nat (S p)) with (Z.of_nat p + 1) in Hu by lia.
      rewrite Z.pow_add_r in Hu by lia. lia. }
    pose proof (div100_fuel f u ltac:(lia)) as Hqf.
    assert (Hf0 : (0 < f)%nat) by lia.
    pose proof (Z.mod_pos_bound u 100 ltac:(lia)) as Hr.
    rewrite !formatBits_two by lia.
    rewrite (formatBits_len_acc f (u / 100) [_; _]) by lia.
    destruct (IH (u / 100) f
                (strconv.digitChar (u mod 100 / 10)
                 :: strconv.digitChar ((u mod 100) mod 10) :: acc) Hq Hf0 Hqf)
      as (Hle & Hfull & Hshort).
    rewrite len_app, pairBytes_len. change (len [_; _]) with 2.
    destruct (Z.ltb_spec (u mod 100) 10) as [Hr10 | Hr10];
      destruct (Z.leb_spec 10 (u mod 100)) as [Hr10' | Hr10']; try lia; cbn [andb].
    split; [lia |]. split.
    + intros Hp. rewrite (Hfull Hp). unfold pairBytes.
      destruct (Z.ltb_spec (u mod 100) 10); [lia |].
      rewrite <- app_assoc. reflexivity.
    + intros Hp. specialize (Hshort Hp). lia.
Qed.

Lemma Some_inj {A : Type} (a b : A) : Some a = Some b -> a = b.
Proof. intros H. now injection H. Qed.

Lemma decimal_head_digit (u : Z) (k : nat) (rest : list byte) :
  0 <= u <= MaxUint64 -> decimal u = repeat x00 k ++ rest -> k = 0%nat.
Proof.
  intros Hu E. destruct k as [| k]; [reflexivity |]. exfalso.
  destruct (decimal_spec u Hu) as (_ & Hv & _). rewrite E in Hv.
  cbn in Hv. discriminate Hv.
Qed.

Lemma appendUint_mid_range_core (dst : list byte) (u : Z) :
  10000 <= u < 100000000 ->
  (exists k,
      appendUint dst u 10 = Some (dst ++ repeat x00 k ++ pairsBytes 64 u)
      /\ Z.of_nat k + len (pairsBytes 64 u) = len (decimal u))
  /\ (appendUint dst u 10 = Some (dst ++ decimal u) <-> pairsFull 64 u = true).
Proof.
  intros Hu.
  assert (Hmax : 0 <= u <= MaxUint64) by (unfold MaxUint64; lia).
  assert (Happ : appendUint dst u 10 = appendUintOptimized dst u).
  { unfold appendUint.
    destruct (Z.ltb_spec u 10); [lia |]. destruct (Z.ltb_spec u 10000); [lia |].
    destruct (Z.ltb_spec u 100000000); [reflexivity | lia]. }
  destruct (appendUintOptimized_spec dst u Hmax) as (k & E & Hk).
  rewrite Happ, E.
  assert (H100 : 0 <= u < 100 * 100 ^ Z.of_nat 64)
    by (split; [lia |]; eapply Z.lt_trans; [apply Hu | vm_compute; reflexivity]).
  assert (H10 : u < 10 ^ Z.of_nat 64)
    by (eapply Z.lt_trans; [apply Hu | vm_compute; reflexivity]).
  destruct (pairs_decimal 64 u 64 [] H100 ltac:(lia) H10) as (_ & Hfull & Hshort).
  split; [exists k; split; [reflexivity | exact Hk] |]. split.
  - intros Eq. apply Some_inj in Eq. apply app_inv_head in Eq.
    symmetry in Eq. pose proof (decimal_head_digit u k _ Hmax Eq) as ->.
    destruct (pairsFull 64 u) eqn:Ef; [reflexivity |].
    specialize (Hshort eq_refl). fold (decimal u) in Hshort.
    cbn [repeat app] in Eq. rewrite Eq in Hshort. lia.
  - intros Ef. specialize (Hfull Ef). fold (decimal u) in Hfull.
    rewrite app_nil_r in Hfull.
    assert (k = 0%nat) by (rewrite Hfull in Hk; lia). subst k. now rewrite Hfull.
Qed.

(** X7: [appendUint] between 10 000 and 100 000 000, byte for byte. *)
Theorem appendUint_mid_range (dst : list byte) (u : Z) :
  10000 <= u < 100000000 ->
  (exists k,
      appendUint dst u 10 = Some (dst ++ repeat x00 k ++ pairsBytes 64 u)
      /\ Z.of_nat k + len (pairsBytes 64 u) = len (decimal u))
  /\ (appendUint dst u 10 = Some (dst ++ decimal u) <-> pairsFull 64 u = true).
Proof. exact (appendUint_mid_range_core dst u). Qed.

Lemma appendUint_mid_range_witness :
  appendUint [] 12345678 10 = Some ([] ++ decimal 12345678)
  /\ appendUint [] 10005 10 <> Some ([] ++ decimal 10005).
Proof.
  split.
  - apply (proj2 (appendUint_mid_range [] 12345678 ltac:(lia))).
    vm_compute. reflexivity.
  - intros E. apply (proj2 (appendUint_mid_range [] 10005 ltac:(lia))) in E.
    vm_compute in E. discriminate E.
Defined.

(** X8: [appendInt] appends: the bytes of [dst] stay, and as many bytes
    follow as the decimal numeral has (with its sign). *)
Theorem appendInt_appends (dst : list byte) (i : Z) :
  MinInt64 <= i <= MaxInt64 ->
  exists out,
    appendInt dst i 10 = Some (dst ++ out)
    /\ len out = len (decimal (Z.abs i)) + (if i <? 0 then 1 else 0).
Proof.
  intros Hi.
  assert (HU : forall d u, 0 <= u <= MaxUint64 ->
             exists out, appendUint d u 10 = Some (d ++ out) /\ len out = len (decimal u)).
  { intros d u Hu.
    destruct (Z.ltb_spec u 10000) as [Hs | Hs].
    { exists (decimal u). split; [apply appendUint_small; lia | reflexivity]. }
    destruct (Z.ltb_spec u 100000000) as [Hm | Hl].
    2:{ exists (decimal u). split; [apply appendUint_large; lia | reflexivity]. }
    destruct (proj1 (appendUint_mid_range_core d u ltac:(lia))) as (k & E & Hk).
    exists (repeat x00 k ++ pairsBytes 64 u). split; [exact E |].
    rewrite len_app, len_repeat. exact Hk. }
  unfold appendInt. destruct (Z.ltb_spec i 0) as [Hneg | Hpos].
  - rewrite magnitude_abs by lia.
    destruct (HU (dst ++ ["-"%byte]) (- i)) as (out & E & Hl);
      [unfold MinInt64, MaxUint64 in *; lia |].
    exists ("-"%byte :: out). rewrite E, <- app_assoc. split; [reflexivity |].
    rewrite len_cons, Hl. replace (Z.abs i) with (- i) by lia. lia.
  - rewrite uint64_small by (unfold MaxInt64, MaxUint64 in *; lia).
    destruct (HU dst i) as (out & E & Hl); [unfold MaxInt64, MaxUint64 in *; lia |].
    exists out. split; [exact E |]. rewrite Hl. replace (Z.abs i) with i by lia. lia.
Qed.

Lemma appendInt_appends_witness :
  exists out,
    appendInt [] (-10005) 10 = Some ([] ++ out)
    /\ len out = len (decimal (Z.abs (-10005))) + (if -10005 <? 0 then 1 else 0).
Proof.
  apply (appendInt_appends [] (-10005)). unfold MinInt64, MaxInt64. lia.
Defined.

(* ================================================================== *)
(** * Results: every path of the struct encoder *)
(* ================================================================== *)

Lemma joinFrom_app (firstField : bool) (xs ys : list (list byte)) :
  joinFrom firstField (xs ++ ys)
  = joinFrom firstField xs ++ joinFrom (firstField && noneKept xs) ys.
Proof.
  destruct xs as [| x xs]; cbn [app joinFrom noneKept].
  - now rewrite andb_true_r.
  - rewrite andb_false_r, <- !app_assoc. do 2 f_equal.
    induction xs as [| y xs IH]; [reflexivity |].
    cbn [app joinFrom]. rewrite <- !app_assoc. now rewrite IH.
Qed.

Section StructPaths.

Variable isEmptyValue : Value -> bool.

(** The loop with [omitempty] over fields whose outcomes are known, with
    more fields to come. *)
Lemma encodeFieldsWithOmitEmptyLoop_app (src : Value) (pre : list structField)
  (os : list (option (list byte))) (rest : list structField) :
  Forall2 (fieldOutcome isEmptyValue src) pre os ->
  forall firstField stream,
    encodeFieldsWithOmitEmptyLoop isEmptyValue (pre ++ rest) firstField stream src
    = encodeFieldsWithOmitEmptyLoop isEmptyValue rest
        (firstField && noneKept (kept pre os))
        (write stream (joinFrom firstField (kept pre os))) src.
Proof.
  induction 1 as [| field o fs os Hf _ IH]; intros firstField stream.
  - cbn [app kept joinFrom noneKept]. now rewrite write_nil, andb_true_r.
  - cbn [app encodeFieldsWithOmitEmptyLoop kept]. destruct o as [out |].
    + destruct Hf as (f & -> & -> & Henc).
      rewrite Henc. cbn [andThen]. rewrite IH.
      rewrite writeName_eq, write_write. cbn [joinFrom noneKept].
      rewrite andb_false_r. cbn [andb].
      destruct firstField; cbn [negb].
      * reflexivity.
      * rewrite write_write. reflexivity.
    + destruct Hf as (f & -> & -> & ->). cbn [andb]. apply IH.
Qed.

(** The loop without [omitempty] does the same where no field carries
    the mark. *)
Lemma encodeFieldsFastLoop_app (src : Value) (pre : list structField)
  (os : list (option (list byte))) (rest : list structField) :
  Forall2 (fieldOutcome isEmptyValue src) pre os ->
  existsb omitempty pre = false ->
  forall i stream,
    0 <= i ->
    encodeFieldsFastLoop (pre ++ rest) i stream src
    = encodeFieldsFastLoop rest (i + len pre)
        (write stream (joinFrom (i =? 0) (kept pre os))) src
      /\ (i =? 0) && noneKept (kept pre os) = (i + len pre =? 0).
Proof.
  induction 1 as [| field o fs os Hf _ IH]; intros Hno i stream Hi.
  - cbn [app kept joinFrom noneKept]. rewrite write_nil, andb_true_r.
    change (len []) with 0. now rewrite Z.add_0_r.
  - cbn [existsb] in Hno. apply orb_false_iff in Hno as [Hom Hno].
    cbn [app encodeFieldsFastLoop kept]. destruct o as [out |].
    + destruct Hf as (f & -> & _ & Henc).
      rewrite Henc. cbn [andThen].
      destruct (IH Hno (i + 1) (write
                 (writeName (if i >? 0 then write stream [","%byte] else stream) field)
                 out) ltac:(lia)) as [E _].
      rewrite E. rewrite len_cons. cbn [noneKept]. rewrite andb_false_r.
      split.
      * replace (i + 1 + len fs) with (i + (1 + len fs)) by lia. f_equal.
        rewrite writeName_eq, write_write. cbn [joinFrom].
        replace (i + 1 =? 0) with false by (symmetry; apply Z.eqb_neq; lia).
        destruct (Z.eqb_spec i 0) as [-> | Hne].
        { reflexivity. }
        { replace (i >? 0) with true by (symmetry; apply Z.gtb_lt; lia).
          rewrite write_write. reflexivity. }
      * symmetry. apply Z.eqb_neq. pose proof (len_nonneg fs). lia.
    + destruct Hf as (f & _ & Hom' & _). congruence.
Qed.

(** The fields before a failing one are written, then the name of the
    failing one and what its encoder left. *)
Lemma struct_paths (e : structEncoder) (stream : encoderStream) (vs : list Value)
  (os : list (option (list byte))) :
  wellFormed e ->
  Forall2 (fieldOutcome isEmptyValue (VStruct vs)) (fields e) os ->
  structEncoder_appendToBytes isEmptyValue e stream (VStruct vs)
  = Return (write stream (object (kept (fields e) os))) None.
Proof.
  intros [Hn Hflag] Hos. unfold structEncoder_appendToBytes.
  rewrite reserve_eq.
  destruct (Z.eqb_spec (numFields e) 0) as [E0 | N0].
  { rewrite Hn in E0. destruct (fields e) eqn:Ef; [| rewrite len_cons in E0; pose proof (len_nonneg l); lia].
    inversion Hos; subst. rewrite write_write. reflexivity. }
  destruct (Z.eqb_spec (numFields e) 1) as [E1 | N1].
  - rewrite Hn in E1.
    destruct (fields e) as [| k [| k' rest]] eqn:Ef;
      [discriminate | |
       rewrite !len_cons in E1; pose proof (len_nonneg rest); lia].
    inversion Hos as [| ? o ? os' Hk Hnil]; subst. inversion Hnil; subst.
    unfold encodeSingleField. rewrite Ef. change (lookup [k] 0) with (Some k).
    cbv beta iota. destruct o as [out |].
    + destruct Hk as (f & Hf & Hom & Hem). rewrite Hf, Hom, Hem. cbn [andThen kept].
      rewrite writeName_eq, !write_write. unfold object. cbn [joinComma].
      reflexivity.
    + destruct Hk as (f & Hf & Hom & Hem). rewrite Hf, Hom, Hem. cbn [andb kept].
      rewrite write_write. reflexivity.
  - rewrite Hflag. destruct (existsb omitempty (fields e)) eqn:Hany.
    + unfold encodeFieldsWithOmitEmpty.
      rewrite (encodeFieldsWithOmitEmptyLoop_spec _ _ _ _ Hos). cbn [andThen].
      rewrite !write_write, joinFrom_true. reflexivity.
    + unfold encodeFieldsFast.
      pose proof (encodeFieldsFastLoop_app (VStruct vs) (fields e) os [] Hos Hany 0
                    (write stream ["{"%byte]) ltac:(lia)) as [E _].
      rewrite app_nil_r in E. rewrite E. cbn [encodeFieldsFastLoop andThen].
      change (0 =? 0) with true. rewrite !write_write, joinFrom_true. reflexivity.
Qed.

Lemma struct_pointer (e : structEncoder) (stream : encoderStream) (vs : list Value) :
  structEncoder_appendToBytes isEmptyValue e stream (VPtr (Some (VStruct vs)))
  = structEncoder_appendToBytes isEmptyValue e stream (VStruct vs).
Proof. reflexivity. Qed.

(** X9: the struct encoder on every path. *)
Theorem struct_renders_kept_fields (e : structEncoder) (stream : encoderStream)
  (vs : list Value) (src : Value) (os : list (option (list byte))) :
  wellFormed e ->
  src = VStruct vs \/ src = VPtr (Some (VStruct vs)) ->
  Forall2 (fieldOutcome isEmptyValue (VStruct vs)) (fields e) os ->
  structEncoder_appendToBytes isEmptyValue e stream src
  = Return (write stream (object (kept (fields e) os))) None.
Proof.
  intros Hwf [-> | ->] Hos; [| rewrite struct_pointer]; now apply struct_paths.
Qed.

Lemma struct_error_paths (e : structEncoder) (stream : encoderStream)
  (vs : list Value) (pre : list structField) (k : structField)
  (post : list structField) (os : list (option (list byte))) (f : Value)
  (partial : list byte) (err : error) :
  wellFormed e ->
  fields e = pre ++ k :: post ->
  Forall2 (fieldOutcome isEmptyValue (VStruct vs)) pre os ->
  reflect.Field (VStruct vs) (index k) = Some f ->
  omitempty k && isEmptyValue f = false ->
  (forall s, appendToBytes (encoder k) s f = Return (write s partial) (Some err)) ->
  structEncoder_appendToBytes isEmptyValue e stream (VStruct vs)
  = Return (write stream
              ("{"%byte :: joinComma (kept pre os ++ [member (name k) partial])))
      (Some err).
Proof.
  intros [Hn Hflag] Ef Hos Hf Hom Henc. unfold structEncoder_appendToBytes.
  rewrite reserve_eq.
  assert (Hlen : len (fields e) = len pre + 1 + len post).
  { rewrite Ef. unfold len. rewrite length_app. cbn [List.length]. lia. }
  pose proof (len_nonneg pre) as Hp. pose proof (len_nonneg post) as Hq.
  destruct (Z.eqb_spec (numFields e) 0) as [E0 | N0]; [lia |].
  destruct (Z.eqb_spec (numFields e) 1) as [E1 | N1].
  - assert (pre = []) by (destruct pre; [reflexivity | rewrite len_cons in *; pose proof (len_nonneg pre); lia]).
    assert (post = []) by (destruct post; [reflexivity | rewrite len_cons in *; pose proof (len_nonneg post); lia]).
    subst pre post. inversion Hos; subst. cbn [app] in Ef.
    unfold encodeSingleField. rewrite Ef. change (lookup [k] 0) with (Some k).
    cbv beta iota. rewrite Hf, Hom, Henc. cbn [andThen kept app joinComma].
    rewrite writeName_eq, write_write. reflexivity.
  - rewrite Hflag. rewrite <- joinFrom_true, joinFrom_app. cbn [andb joinFrom].
    rewrite app_nil_r.
    destruct (existsb omitempty (fields e)) eqn:Hany.
    + unfold encodeFieldsWithOmitEmpty. rewrite Ef.
      rewrite (encodeFieldsWithOmitEmptyLoop_app _ _ _ (k :: post) Hos).
      cbn [andb encodeFieldsWithOmitEmptyLoop]. rewrite Hf, Hom, Henc.
      cbn [andThen]. rewrite writeName_eq.
      destruct (noneKept (kept pre os)); cbn [negb];
        rewrite !write_write; cbn [app]; rewrite <- ?app_assoc; reflexivity.
    + unfold encodeFieldsFast. rewrite Ef in Hany |- *.
      rewrite existsb_app in Hany. apply orb_false_iff in Hany as [Hany _].
      pose proof (encodeFieldsFastLoop_app (VStruct vs) pre os (k :: post) Hos Hany 0
                    (write stream ["{"%byte]) ltac:(lia)) as [E Hfirst].
      rewrite E. cbn [encodeFieldsFastLoop]. rewrite Hf, Henc. cbn [andThen].
      change (0 =? 0) with true in *. cbn [andb] in Hfirst. rewrite Hfirst.
      rewrite writeName_eq. cbn [Z.add].
      destruct (Z.eqb_spec (len pre) 0) as [E0 | N0'].
      * replace (len pre >? 0) with false by (rewrite E0; reflexivity).
        rewrite !write_write. cbn [app]. rewrite <- ?app_assoc. reflexivity.
      * replace (len pre >? 0) with true by (symmetry; apply Z.gtb_lt; lia).
        rewrite !write_write. cbn [app]. rewrite <- ?app_assoc. reflexivity.
Qed.

(** X10: an error of a field encoder ends the struct. *)
Theorem struct_field_error_aborts (e : structEncoder) (stream : encoderStream)
  (vs : list Value) (src : Value) (pre : list structField) (k : structField)
  (post : list structField) (os : list (option (list byte))) (f : Value)
  (partial : list byte) (err : error) :
  wellFormed e ->
  src = VStruct vs \/ src = VPtr (Some (VStruct vs)) ->
  fields e = pre ++ k :: post ->
  Forall2 (fieldOutcome isEmptyValue (VStruct vs)) pre os ->
  reflect.Field (VStruct vs) (index k) = Some f ->
  omitempty k && isEmptyValue f = false ->
  (forall s, appendToBytes (encoder k) s f = Return (write s partial) (Some err)) ->
  structEncoder_appendToBytes isEmptyValue e stream src
  = Return (write stream
              ("{"%byte :: joinComma (kept pre os ++ [member (name k) partial])))
      (Some err).
Proof.
  intros Hwf [-> | ->] Ef Hos Hf Hom Henc; [| rewrite struct_pointer];
    now apply struct_error_paths with post f.
Qed.

End StructPaths.

Lemma struct_renders_kept_fields_witness :
  structEncoder_appendToBytes Sample.isEmptyValue
    (mkStructEncoder [Sample.fieldA; mkField (bytes "d") 1 false intEncoder] 2 false)
    (mkStream []) (VPtr (Some (VStruct [VInt 5; VInt 0])))
  = Return (write (mkStream [])
              (object (kept [Sample.fieldA; mkField (bytes "d") 1 false intEncoder]
                         [Some (bytes "5"); Some (bytes "0")]))) None.
Proof.
  apply (struct_renders_kept_fields Sample.isEmptyValue
           (mkStructEncoder [Sample.fieldA; mkField (bytes "d") 1 false intEncoder]
              2 false)
           (mkStream []) [VInt 5; VInt 0] _ [Some (bytes "5"); Some (bytes "0")]).
  - split; reflexivity.
  - right. reflexivity.
  - constructor; [| constructor; [| constructor]].
    + exists (VInt 5). repeat split.
    + exists (VInt 0). repeat split.
Defined.

Lemma struct_field_error_aborts_witness :
  structEncoder_appendToBytes Sample.isEmptyValue
    (mkStructEncoder
       [Sample.fieldA; mkField (bytes "k") 1 false (noSupportEncoder Sample.typeName);
        Sample.fieldC] 3 true)
    (mkStream []) (VStruct [VInt 5; VInt 7; VInt 9])
  = Return (write (mkStream [])
              ("{"%byte :: joinComma (kept [Sample.fieldA] [Some (bytes "5")]
                                      ++ [member (bytes "k") []])))
      (Some "unsupported map key type: int"%string).
Proof.
  apply (struct_field_error_aborts Sample.isEmptyValue
           (mkStructEncoder
              [Sample.fieldA;
               mkField (bytes "k") 1 false (noSupportEncoder Sample.typeName);
               Sample.fieldC] 3 true)
           (mkStream []) [VInt 5; VInt 7; VInt 9] _
           [Sample.fieldA]
           (mkField (bytes "k") 1 false (noSupportEncoder Sample.typeName))
           [Sample.fieldC] [Some (bytes "5")] (VInt 7)).
  - split; reflexivity.
  - left. reflexivity.
  - reflexivity.
  - constructor; [| constructor]. exists (VInt 5). repeat split.
  - reflexivity.
  - reflexivity.
  - intros s. rewrite write_nil. reflexivity.
Defined.

(* ================================================================== *)
(** * Results: the string encoders are faithful *)
(* ================================================================== *)

Lemma unescape_escapedForm (c : byte) (rest : list byte) :
  unescape (escapedForm c ++ rest) = option_map (cons c) (unescape rest).
Proof. destruct c; reflexivity. Qed.

Lemma unescape_flat_map (s : list byte) :
  unescape (flat_map escapedForm s) = Some s.
Proof.
  induction s as [| c s IH]; [reflexivity |].
  cbn [flat_map]. now rewrite unescape_escapedForm, IH.
Qed.

Lemma jsonString_inj (s t : list byte) : jsonString s = jsonString t -> s = t.
Proof.
  unfold jsonString. intros E. injection E as E.
  apply app_inj_tail in E as [E _].
  apply (f_equal unescape) in E. rewrite !unescape_flat_map in E. congruence.
Qed.

Lemma write_inj (stream : encoderStream) (a b : list byte) :
  write stream a = write stream b -> a = b.
Proof.
  unfold write. intros E. injection E as E. now apply app_inv_head in E.
Qed.

(** X11: the string encoders lose nothing. *)
Theorem string_encoders_faithful (typeName : Value -> string)
  (stream : encoderStream) (s : list byte) :
  (exists out,
      appendToBytes (stringEncoder typeName) stream (VString s)
      = Return (write stream (quote :: out ++ [quote])) None
      /\ appendToBytes byteSliceEncoder stream (VBytes (Some s))
         = Return (write stream (quote :: out ++ [quote])) None
      /\ unescape out = Some s)
  /\ (forall t,
        appendToBytes (stringEncoder typeName) stream (VString s)
        = appendToBytes (stringEncoder typeName) stream (VString t) -> s = t)
  /\ (forall t,
        appendToBytes byteSliceEncoder stream (VBytes (Some s))
        = appendToBytes byteSliceEncoder stream (VBytes (Some t)) -> s = t).
Proof.
  assert (HS : forall u, appendToBytes (stringEncoder typeName) stream (VString u)
                         = Return (write stream (jsonString u)) None).
  { intros u. cbn. rewrite appendString_spec. reflexivity. }
  assert (HB : forall u, appendToBytes byteSliceEncoder stream (VBytes (Some u))
                         = Return (write stream (jsonString u)) None).
  { intros u. cbn. rewrite appendBytes_spec. reflexivity. }
  split; [| split].
  - exists (flat_map escapedForm s). rewrite HS, HB.
    repeat split. apply unescape_flat_map.
  - intros t E. rewrite !HS in E. injection E as E.
    now apply app_inv_head, jsonString_inj in E.
  - intros t E. rewrite !HB in E. injection E as E.
    now apply app_inv_head, jsonString_inj in E.
Qed.

Lemma escapedForm_len (c : byte) :
  1 <= len (escapedForm c) <= 6
  /\ (len (escapedForm c) = 1 <-> needsEscape c = false).
Proof. destruct c; vm_compute; repeat split; congruence. Qed.

Lemma flat_map_escapedForm_len (s : list byte) :
  len s <= len (flat_map escapedForm s) <= 6 * len s
  /\ (len (flat_map escapedForm s) = len s <-> existsb needsEscape s = false).
Proof.
  induction s as [| c s [IHb IHe]]; [vm_compute; repeat split; congruence |].
  cbn [flat_map existsb]. rewrite len_app, !len_cons.
  destruct (escapedForm_len c) as [Hb He].
  split; [lia |]. rewrite orb_false_iff. split.
  - intros E. split; [apply He | apply IHe]; lia.
  - intros [E1 E2]. apply He in E1. apply IHe in E2. lia.
Qed.

(** X12: how much the string encoders write. *)
Theorem string_encoders_growth (typeName : Value -> string)
  (stream : encoderStream) (s : list byte) :
  exists stream',
    appendToBytes (stringEncoder typeName) stream (VString s) = Return stream' None
    /\ appendToBytes byteSliceEncoder stream (VBytes (Some s)) = Return stream' None
    /\ firstn (List.length (buffer stream)) (buffer stream') = buffer stream
    /\ len (buffer stream) + len s + 2 <= len (buffer stream')
       <= len (buffer stream) + 6 * len s + 2
    /\ (len (buffer stream') = len (buffer stream) + len s + 2
        <-> existsb needsEscape s = false).
Proof.
  exists (write stream (jsonString s)).
  assert (HS : appendToBytes (stringEncoder typeName) stream (VString s)
               = Return (write stream (jsonString s)) None).
  { cbn. rewrite appendString_spec. reflexivity. }
  assert (HB : appendToBytes byteSliceEncoder stream (VBytes (Some s))
               = Return (write stream (jsonString s)) None).
  { cbn. rewrite appendBytes_spec. reflexivity. }
  assert (HL : len (buffer (write stream (jsonString s)))
               = len (buffer stream) + len (flat_map escapedForm s) + 2).
  { unfold write, jsonString. cbn [buffer].
    rewrite len_app, len_cons, len_app, len_cons. change (len []) with 0. lia. }
  destruct (flat_map_escapedForm_len s) as [Hb He].
  split; [exact HS | split; [exact HB | split; [| split]]].
  - unfold write. cbn [buffer].
    rewrite firstn_app, Nat.sub_diag, firstn_all. cbn [firstn]. apply app_nil_r.
  - rewrite HL. lia.
  - rewrite HL. split; intros E; [apply He | apply He in E]; lia.
Qed.

(* ================================================================== *)
(** * Results: the pool between calls of [Marshal] *)
(* ================================================================== *)

Lemma contents_empty (m : memory) (h : sliceHeader) : s_len h = 0 -> contents m h = [].
Proof.
  intros E. unfold contents. rewrite E. now destruct (s_array h).
Qed.

Lemma allocated_mono (m m' : memory) (h : sliceHeader) :
  (List.length (arrays m) <= List.length (arrays m'))%nat ->
  allocated m h = true -> allocated m' h = true.
Proof.
  unfold allocated. intros Hle. destruct (s_array h) as [l |]; [| easy].
  rewrite !Nat.ltb_lt. lia.
Qed.

Lemma wf_intro (m : memory) :
  (forall h, In h (streams m) -> allocated m h = true) -> wf m = true.
Proof. intros H. unfold wf. now apply forallb_forall. Qed.

Lemma wf_elim (m : memory) (h : sliceHeader) :
  wf m = true -> In h (streams m) -> allocated m h = true.
Proof. unfold wf. rewrite forallb_forall. auto. Qed.

Lemma In_replace_nth {A : Type} (l : list A) (n : nat) (x y : A) :
  In y (replace_nth l n x) -> y = x \/ In y l.
Proof.
  revert n. induction l as [| h t IH]; intros n Hy; [now right |].
  destruct n as [| n]; cbn in Hy.
  - destruct Hy as [<- | Hy]; [now left | right; now right].
  - destruct Hy as [<- | Hy]; [right; now left |].
    destruct (IH n Hy) as [-> | Hin]; [now left | right; now right].
Qed.

Lemma streamBuffer_replace (m : memory) (ss : list sliceHeader) (stream : nat)
  (h : sliceHeader) (a : list (list byte)) (p : list nat) :
  (stream < List.length (streams m))%nat ->
  streamBuffer {| arrays := a; streams := replace_nth (streams m) stream h;
                  encoderStreamPool := p |} stream = h.
Proof.
  intros Hlt. unfold streamBuffer. cbn [streams]. rewrite nth_replace_nth.
  rewrite Nat.eqb_refl. destruct (Nat.ltb_spec stream (List.length (streams m))); [reflexivity | lia].
Qed.

(** [Get] on a ready store. *)
Lemma poolGet_ready (choice : nat) (m m' : memory) (stream : nat) :
  poolReady m -> poolGet choice m = (m', stream) ->
  poolReady m' /\ ~ In stream (encoderStreamPool m')
  /\ (stream < List.length (streams m'))%nat
  /\ s_len (streamBuffer m' stream) = 0.
Proof.
  intros (Hinv & Hdist & Hwf) Hget.
  pose proof (poolGet_keeps_pool choice m Hinv Hdist) as H. rewrite Hget in H.
  destruct H as (Hinv' & Hdist' & Hout & Hlt).
  unfold poolGet in Hget.
  destruct (nth_error (encoderStreamPool m) choice) as [s |] eqn:Hnth.
  - injection Hget as <- <-.
    split; [split; [| split]; [assumption | assumption | exact Hwf] |].
    split; [assumption |]. split; [assumption |].
    apply nth_error_In in Hnth.
    exact (proj1 (proj1 (Forall_forall _ _) Hinv s Hnth)).
  - unfold poolNew in Hget. cbn [make arrays streams encoderStreamPool] in Hget.
    injection Hget as <- <-.
    split; [split; [| split]; [assumption | assumption |] |];
      [| split; [assumption |]; split; [assumption |]].
    + apply wf_intro. cbn [streams]. intros h Hh. apply in_app_or in Hh as [Hh | [<- | []]].
      * apply allocated_mono with m; [cbn [arrays]; rewrite length_app; lia |].
        now apply wf_elim.
      * unfold allocated. cbn [s_array arrays]. apply Nat.ltb_lt.
        rewrite length_app. cbn. lia.
    + unfold streamBuffer. cbn [streams]. rewrite nth_middle. reflexivity.
Qed.

(** [getEncoderStreamWithSize] on a ready store. *)
Lemma getEncoderStreamWithSize_ready (choice : nat) (m : memory) (estimatedSize : Z)
  (m' : memory) (stream : nat) :
  poolReady m -> getEncoderStreamWithSize choice m estimatedSize = (m', stream) ->
  poolReady m' /\ ~ In stream (encoderStreamPool m')
  /\ (stream < List.length (streams m'))%nat
  /\ s_len (streamBuffer m' stream) = 0
  /\ estimatedSize <= s_cap (streamBuffer m' stream).
Proof.
  intros Hready Hget. unfold getEncoderStreamWithSize in Hget.
  destruct (poolGet choice m) as [m1 s] eqn:Hpg.
  destruct (poolGet_ready choice m m1 s Hready Hpg)
    as ((Hinv & [Hnd Hvalid] & Hwf) & Hout & Hlt & Hlen).
  destruct (Z.ltb_spec (s_cap (streamBuffer m1 s)) estimatedSize) as [Hsmall | Hfits].
  - cbn [make] in Hget. injection Hget as <- <-.
    unfold setBuffer. cbn [arrays streams encoderStreamPool].
    rewrite (streamBuffer_replace m1 (streams m1)) by exact Hlt.
    cbn [s_len s_cap]. repeat split; try assumption; try lia.
    + apply Forall_forall. intros id Hid. unfold streamBuffer. cbn [streams].
      rewrite nth_replace_nth.
      destruct (Nat.eqb_spec id s) as [-> | Hne]; [contradiction |]. cbn [andb].
      exact (proj1 (Forall_forall _ _) Hinv id Hid).
    + cbn [encoderStreamPool streams]. rewrite replace_nth_length. exact Hvalid.
    + apply wf_intro. cbn [streams]. intros h Hh.
      apply In_replace_nth in Hh as [-> | Hh].
      * unfold allocated. cbn [s_array arrays]. apply Nat.ltb_lt.
        rewrite length_app. cbn. lia.
      * apply allocated_mono with m1; [cbn [arrays]; rewrite length_app; lia |].
        now apply wf_elim.
    + rewrite replace_nth_length. exact Hlt.
  - injection Hget as <- <-. repeat split; assumption.
Qed.

(** [releaseEncoderStream] on a stream that is out of the pool. *)
Lemma releaseEncoderStream_ready (m : memory) (stream : nat) :
  poolReady m -> ~ In stream (encoderStreamPool m) ->
  (stream < List.length (streams m))%nat ->
  poolReady (releaseEncoderStream m stream).
Proof.
  intros (Hinv & [Hnd Hvalid] & Hwf) Hout Hlt.
  assert (Hlen : List.length (streams (releaseEncoderStream m stream))
                 = List.length (streams m)).
  { unfold releaseEncoderStream.
    destruct (s_cap (streamBuffer m stream) >? 8192);
      cbn [make setBuffer poolPut streams]; apply replace_nth_length. }
  split; [| split; [split |]].
  - unfold poolInvariant. rewrite release_pool. constructor.
    + rewrite release_buffer, Nat.eqb_refl. apply released_idle.
    + eapply Forall_impl; [| exact Hinv]. intros id Hid. cbv beta in *.
      rewrite release_buffer. destruct (Nat.eqb id stream); [apply released_idle | exact Hid].
  - rewrite release_pool. now constructor.
  - rewrite release_pool, Hlen. constructor; assumption.
  - apply wf_intro. intros h Hh. unfold releaseEncoderStream in *.
    destruct (s_cap (streamBuffer m stream) >? 8192);
      unfold poolPut, setBuffer in *; cbn [make streams arrays] in *.
    + apply In_replace_nth in Hh as [-> | Hh].
      * unfold allocated. cbn [s_array arrays]. apply Nat.ltb_lt.
        rewrite length_app. cbn. lia.
      * apply allocated_mono with m; [cbn [arrays]; rewrite length_app; lia |].
        now apply wf_elim.
    + apply In_replace_nth in Hh as [-> | Hh].
      * unfold allocated. cbn [s_array arrays].
        pose proof (wf_allocated m stream Hwf) as Ha. exact Ha.
      * apply allocated_mono with m; [reflexivity |]. now apply wf_elim.
Qed.

(** The bytes an encoder leaves are the contents of the stream buffer. *)
Lemma storeContent_spec (m : memory) (stream : nat) (buf : list byte) :
  wf m = true -> (stream < List.length (streams m))%nat ->
  let m' := storeContent m stream buf in
  contents m' (streamBuffer m' stream) = buf
  /\ wf m' = true
  /\ encoderStreamPool m' = encoderStreamPool m
  /\ List.length (streams m') = List.length (streams m)
  /\ (forall id, id <> stream -> streamBuffer m' id = streamBuffer m id).
Proof.
  intros Hwf Hlt. cbv zeta.
  pose proof (wf_allocated m stream Hwf) as Ha. unfold allocated in Ha.
  assert (Hfirst : forall rest, firstn (Z.to_nat (len buf)) (buf ++ rest) = buf).
  { intros rest. unfold len. rewrite Nat2Z.id, firstn_app, Nat.sub_diag, firstn_all.
    cbn [firstn]. apply app_nil_r. }
  assert (Hother : forall a h p id, id <> stream ->
             streamBuffer {| arrays := a; streams := replace_nth (streams m) stream h;
                             encoderStreamPool := p |} id = streamBuffer m id).
  { intros a h p id Hne. unfold streamBuffer. cbn [streams]. rewrite nth_replace_nth.
    destruct (Nat.eqb_spec id stream); [contradiction | reflexivity]. }
  assert (Hfresh : forall c,
             let m' := {| arrays := arrays m ++ [buf ++ c];
                          streams := replace_nth (streams m) stream
                                       {| s_array := Some (List.length (arrays m));
                                          s_len := len buf; s_cap := 2 * len buf |};
                          encoderStreamPool := encoderStreamPool m |} in
             contents m' (streamBuffer m' stream) = buf
             /\ wf m' = true
             /\ encoderStreamPool m' = encoderStreamPool m
             /\ List.length (streams m') = List.length (streams m)
             /\ (forall id, id <> stream -> streamBuffer m' id = streamBuffer m id)).
  { intros c. cbv zeta. rewrite (streamBuffer_replace m (streams m)) by exact Hlt.
    split; [| split; [| split; [| split]]].
    - unfold contents. cbn [s_array s_len arrays]. rewrite nth_middle. apply Hfirst.
    - apply wf_intro. cbn [streams]. intros h Hh.
      apply In_replace_nth in Hh as [-> | Hh].
      + unfold allocated. cbn [s_array arrays]. apply Nat.ltb_lt.
        rewrite length_app. cbn. lia.
      + apply allocated_mono with m; [cbn [arrays]; rewrite length_app; lia |].
        now apply wf_elim.
    - reflexivity.
    - cbn [streams]. apply replace_nth_length.
    - intros id Hne. now apply Hother. }
  unfold storeContent.
  destruct (s_array (streamBuffer m stream)) as [l |] eqn:Harr; [| apply Hfresh].
  destruct (len buf <=? s_cap (streamBuffer m stream)); [| apply Hfresh].
  apply Nat.ltb_lt in Ha.
  rewrite (streamBuffer_replace m (streams m)) by exact Hlt.
  split; [| split; [| split; [| split]]].
  - unfold contents. cbn [s_array s_len arrays]. rewrite nth_replace_nth.
    rewrite Nat.eqb_refl. destruct (Nat.ltb_spec l (List.length (arrays m))); [| lia].
    cbn [andb]. apply Hfirst.
  - apply wf_intro. cbn [streams]. intros h Hh.
    apply In_replace_nth in Hh as [-> | Hh].
    + unfold allocated. cbn [s_array arrays]. apply Nat.ltb_lt.
      rewrite replace_nth_length. exact Ha.
    + apply allocated_mono with m; [cbn [arrays]; rewrite replace_nth_length; lia |].
      now apply wf_elim.
  - reflexivity.
  - cbn [streams]. apply replace_nth_length.
  - intros id Hne. now apply Hother.
Qed.

(** The store after the encoder ran on a stream that is out of the pool. *)
Lemma storeContent_ready (m : memory) (stream : nat) (buf : list byte) :
  poolReady m -> ~ In stream (encoderStreamPool m) ->
  (stream < List.length (streams m))%nat ->
  poolReady (storeContent m stream buf).
Proof.
  intros (Hinv & [Hnd Hvalid] & Hwf) Hout Hlt.
  destruct (storeContent_spec m stream buf Hwf Hlt) as (_ & Hwf' & Hpool & Hlen & Hother).
  split; [| split; [split |]]; try assumption.
  - unfold poolInvariant. rewrite Hpool. apply Forall_forall. intros id Hid.
    rewrite Hother by (intros ->; contradiction).
    exact (proj1 (Forall_forall _ _) Hinv id Hid).
  - now rewrite Hpool.
  - now rewrite Hpool, Hlen.
Qed.

Lemma copyOut_ready (m : memory) (h : sliceHeader) (m2 : memory) (result : sliceHeader) :
  poolReady m -> copyOut m h = (m2, result) -> poolReady m2.
Proof.
  intros (Hinv & [Hnd Hvalid] & Hwf) Hcopy.
  destruct (copyOut_spec _ _ _ _ Hcopy) as (Hst & Hpool & [extra Harr] & _ & _).
  split; [| split; [split |]].
  - unfold poolInvariant. rewrite Hpool. eapply Forall_impl; [| exact Hinv].
    intros id Hid. cbv beta in *. now rewrite (streamBuffer_same _ _ _ Hst).
  - now rewrite Hpool.
  - now rewrite Hpool, Hst.
  - apply wf_intro. rewrite Hst. intros h' Hh.
    apply allocated_mono with m; [rewrite Harr, length_app; lia |].
    now apply wf_elim.
Qed.



Lemma frame_refl (m : memory) : frame m m.
Proof. intros l H. now split. Qed.

Lemma frame_trans (m1 m2 m3 : memory) : frame m1 m2 -> frame m2 m3 -> frame m1 m3.
Proof.
  intros H12 H23 l H. destruct (H12 l H) as [H2 E2]. destruct (H23 l H2) as [H3 E3].
  split; [exact H3 | congruence].
Qed.

(** New arrays at the end, and streams that keep their array or take one
    of the new ones. *)
Lemma frame_grow (m m' : memory) (extra : list (list byte)) :
  arrays m' = arrays m ++ extra ->
  (forall id, s_array (streamBuffer m' id) = None
              \/ (exists id0, s_array (streamBuffer m' id) = s_array (streamBuffer m id0))
              \/ (exists k, s_array (streamBuffer m' id) = Some k
                            /\ (List.length (arrays m) <= k)%nat)) ->
  frame m m'.
Proof.
  intros Harr Hst l [Hl Hno]. split; [split |].
  - rewrite Harr, length_app. lia.
  - intros id. destruct (Hst id) as [E | [[id0 E] | (k & E & Hk)]]; rewrite E.
    + discriminate.
    + apply Hno.
    + intros E'. injection E' as ->. lia.
  - rewrite Harr. now apply app_nth1.
Qed.

Lemma streamBuffer_cases (m : memory) (a : list (list byte)) (p : list nat)
  (stream : nat) (h : sliceHeader) (id : nat) :
  streamBuffer {| arrays := a; streams := replace_nth (streams m) stream h;
                  encoderStreamPool := p |} id = h
  \/ streamBuffer {| arrays := a; streams := replace_nth (streams m) stream h;
                     encoderStreamPool := p |} id = streamBuffer m id.
Proof.
  unfold streamBuffer. cbn [streams]. rewrite nth_replace_nth.
  destruct (Nat.eqb id stream && Nat.ltb stream (List.length (streams m)))%bool;
    [now left | now right].
Qed.

Lemma poolGet_frame (choice : nat) (m : memory) : frame m (fst (poolGet choice m)).
Proof.
  unfold poolGet. destruct (nth_error (encoderStreamPool m) choice) as [s |].
  - apply frame_grow with []; cbn [fst arrays]; [now rewrite app_nil_r |].
    intros id. right. left. exists id. reflexivity.
  - unfold poolNew. cbn [make fst arrays streams encoderStreamPool].
    eapply frame_grow; cbn [arrays]; [reflexivity |].
    intros id. unfold streamBuffer. cbn [streams].
    destruct (Nat.lt_trichotomy id (List.length (streams m))) as [Hlt | [-> | Hgt]].
    + right. left. exists id. rewrite app_nth1 by exact Hlt. reflexivity.
    + right. right. rewrite nth_middle. cbn [s_array]. eexists. split; [reflexivity | lia].
    + left. rewrite nth_overflow; [reflexivity |]. rewrite length_app. cbn. lia.
Qed.

Lemma getEncoderStreamWithSize_frame (choice : nat) (m : memory) (estimatedSize : Z) :
  frame m (fst (getEncoderStreamWithSize choice m estimatedSize)).
Proof.
  unfold getEncoderStreamWithSize.
  pose proof (poolGet_frame choice m) as H1.
  destruct (poolGet choice m) as [m1 s]. cbn [fst] in H1.
  destruct (s_cap (streamBuffer m1 s) <? estimatedSize); [| exact H1].
  cbn [make fst]. eapply frame_trans; [exact H1 |].
  unfold setBuffer. cbn [arrays streams encoderStreamPool].
  eapply frame_grow; cbn [arrays]; [reflexivity |].
  intros id. destruct (streamBuffer_cases m1 (arrays m1 ++ [repeat x00 (Z.to_nat estimatedSize)])
                         (encoderStreamPool m1) s
                         {| s_array := Some (List.length (arrays m1)); s_len := 0;
                            s_cap := estimatedSize |} id) as [E | E].
  - right. right. eexists. split; [| reflexivity].
    etransitivity; [apply (f_equal s_array); exact E | reflexivity].
  - right. left. exists id. apply (f_equal s_array). exact E.
Qed.

Lemma releaseEncoderStream_frame (m : memory) (stream : nat) :
  frame m (releaseEncoderStream m stream).
Proof.
  unfold releaseEncoderStream.
  destruct (s_cap (streamBuffer m stream) >? 8192);
    unfold poolPut, setBuffer; cbn [make arrays streams encoderStreamPool].
  - eapply frame_grow; cbn [arrays]; [reflexivity |].
    intros id.
    match goal with
    | |- context [streamBuffer {| arrays := ?a; streams := replace_nth _ _ ?h;
                                  encoderStreamPool := ?p |} _] =>
        destruct (streamBuffer_cases m a p stream h id) as [E | E]
    end.
    + right. right. eexists. split; [| reflexivity].
      etransitivity; [apply (f_equal s_array); exact E | reflexivity].
    + right. left. exists id. apply (f_equal s_array).
      etransitivity; [| exact E]. reflexivity.
  - apply frame_grow with []; cbn [arrays]; [now rewrite app_nil_r |].
    intros id.
    match goal with
    | |- context [streamBuffer {| arrays := ?a; streams := replace_nth _ _ ?h;
                                  encoderStreamPool := ?p |} _] =>
        destruct (streamBuffer_cases m a p stream h id) as [E | E]
    end.
    + right. left. exists stream.
      etransitivity; [apply (f_equal s_array); exact E | reflexivity].
    + right. left. exists id. apply (f_equal s_array).
      etransitivity; [| exact E]. reflexivity.
Qed.

Lemma copyOut_frame (m : memory) (h : sliceHeader) : frame m (fst (copyOut m h)).
Proof.
  destruct (copyOut m h) as [m2 result] eqn:Hcopy. cbn [fst].
  destruct (copyOut_spec _ _ _ _ Hcopy) as (Hst & _ & [extra Harr] & _ & _).
  apply frame_grow with extra; [exact Harr |].
  intros id. right. left. exists id. now rewrite (streamBuffer_same _ _ _ Hst).
Qed.

(** The encoder writes into the array of its stream, or into a new one. *)
Lemma storeContent_frame (m : memory) (stream : nat) (buf : list byte) :
  frame m (storeContent m stream buf).
Proof.
  assert (Hfresh : forall c,
             frame m {| arrays := arrays m ++ [buf ++ c];
                        streams := replace_nth (streams m) stream
                                     {| s_array := Some (List.length (arrays m));
                                        s_len := len buf; s_cap := 2 * len buf |};
                        encoderStreamPool := encoderStreamPool m |}).
  { intros c. eapply frame_grow; cbn [arrays]; [reflexivity |].
    intros id.
    match goal with
    | |- context [streamBuffer {| arrays := ?a; streams := replace_nth _ _ ?h;
                                  encoderStreamPool := ?p |} _] =>
        destruct (streamBuffer_cases m a p stream h id) as [E | E]
    end.
    - right. right. eexists. split; [| reflexivity].
      etransitivity; [apply (f_equal s_array); exact E | reflexivity].
    - right. left. exists id. apply (f_equal s_array).
      etransitivity; [| exact E]. reflexivity. }
  unfold storeContent.
  destruct (s_array (streamBuffer m stream)) as [l0 |] eqn:Harr; [| apply Hfresh].
  destruct (len buf <=? s_cap (streamBuffer m stream)); [| apply Hfresh].
  intros l [Hl Hno]. split; [split |].
  - cbn [arrays]. now rewrite replace_nth_length.
  - intros id.
    match goal with
    | |- context [streamBuffer {| arrays := ?a; streams := replace_nth _ _ ?h;
                                  encoderStreamPool := ?p |} _] =>
        destruct (streamBuffer_cases m a p stream h id) as [E | E]
    end.
    + rewrite E. cbn [s_array]. rewrite <- Harr. apply Hno.
    + rewrite E. apply Hno.
  - cbn [arrays]. rewrite nth_replace_nth.
    destruct (Nat.eqb_spec l l0) as [-> | Hne]; [| reflexivity].
    exfalso. apply (Hno stream). exact Harr.
Qed.

Lemma contents_untouched (m m' : memory) (h : sliceHeader) :
  (forall l, s_array h = Some l -> nth l (arrays m') [] = nth l (arrays m) []) ->
  contents m' h = contents m h.
Proof.
  intros H. unfold contents. destruct (s_array h) as [l |]; [| reflexivity].
  now rewrite (H l eq_refl).
Qed.

(** [Marshal] with an encoder of the content level, on a ready store. *)
Lemma Marshal_runEncoder (enc : Encoder) (choice : nat) (m : memory) (v : Value) :
  poolReady m ->
  exists m' r,
    Marshal (runEncoder enc) choice m v = (m', r)
    /\ poolReady m'
    /\ frame m m'
    /\ match appendToBytes enc (mkStream []) v with
       | Return s None =>
           exists result,
             r = Return result None /\ contents m' result = buffer s
             /\ forall l, s_array result = Some l -> untouched l m'
       | Return _ (Some err) => r = Return nilSlice (Some err)
       | Panic => r = Panic
       end.
Proof.
  intros Hready. unfold Marshal.
  pose proof (getEncoderStreamWithSize_frame choice m (estimateJSONSize v)) as Hf0.
  destruct (getEncoderStreamWithSize choice m (estimateJSONSize v)) as [m0 stream] eqn:Hget.
  cbn [fst] in Hf0.
  destruct (getEncoderStreamWithSize_ready _ _ _ _ _ Hready Hget)
    as (Hready0 & Hout & Hlt & Hlen & _).
  unfold runEncoder. rewrite (contents_empty m0 _ Hlen).
  change {| buffer := [] |} with (mkStream []).
  destruct (appendToBytes enc (mkStream []) v) as [s [err |] |].
  - eexists _, _. split; [reflexivity |].
    destruct (storeContent_spec m0 stream (buffer s) (proj2 (proj2 Hready0)) Hlt)
      as (_ & _ & Hpool & Hl & _).
    split; [| split; [| reflexivity]].
    + apply releaseEncoderStream_ready;
        [now apply storeContent_ready | now rewrite Hpool | now rewrite Hl].
    + eapply frame_trans; [exact Hf0 |].
      eapply frame_trans; [apply storeContent_frame | apply releaseEncoderStream_frame].
  - destruct (storeContent_spec m0 stream (buffer s) (proj2 (proj2 Hready0)) Hlt)
      as (Hcont & Hwf1 & Hpool & Hl & _).
    pose proof (storeContent_ready m0 stream (buffer s) Hready0 Hout Hlt) as Hready1.
    pose proof (storeContent_frame m0 stream (buffer s)) as Hf1.
    set (m1 := storeContent m0 stream (buffer s)) in *.
    pose proof (copyOut_frame m1 (streamBuffer m1 stream)) as Hf2.
    destruct (copyOut m1 (streamBuffer m1 stream)) as [m2 result] eqn:Hcopy.
    cbn [fst] in Hf2.
    destruct (copyOut_spec _ _ _ _ Hcopy) as (Hst & Hpool2 & [extra Harr] & Hcont2 & Hres).
    pose proof (copyOut_ready _ _ _ _ Hready1 Hcopy) as Hready2.
    assert (Hpriv : forall l, s_array result = Some l -> untouched l m2).
    { intros l Hl'. destruct (Hres l Hl') as [-> Hlt']. split; [exact Hlt' |].
      intros id. rewrite (streamBuffer_same _ _ _ Hst).
      pose proof (wf_allocated m1 id Hwf1) as Ha. unfold allocated in Ha.
      destruct (s_array (streamBuffer m1 id)) as [a |]; [| discriminate].
      apply Nat.ltb_lt in Ha. intros E. injection E as ->. lia. }
    eexists _, _. split; [reflexivity |]. split; [| split].
    + apply releaseEncoderStream_ready;
        [exact Hready2 | now rewrite Hpool2, Hpool | now rewrite Hst, Hl].
    + eapply frame_trans; [exact Hf0 |]. eapply frame_trans; [exact Hf1 |].
      eapply frame_trans; [exact Hf2 | apply releaseEncoderStream_frame].
    + exists result. split; [reflexivity |]. split.
      * rewrite <- Hcont, <- Hcont2. apply contents_untouched. intros l Hl'.
        apply (releaseEncoderStream_frame m2 stream l (Hpriv l Hl')).
      * intros l Hl'. apply (releaseEncoderStream_frame m2 stream l (Hpriv l Hl')).
  - eexists _, _. split; [reflexivity |]. split; [| split; [| reflexivity]].
    + now apply releaseEncoderStream_ready.
    + eapply frame_trans; [exact Hf0 | apply releaseEncoderStream_frame].
Qed.



(** X15: a later call of [Marshal] leaves the bytes of an earlier result. *)
Theorem Marshal_results_are_not_overwritten (enc : Encoder) (c1 c2 : nat)
  (m : memory) (v1 v2 : Value) (s1 s2 : encoderStream) :
  poolReady m ->
  appendToBytes enc (mkStream []) v1 = Return s1 None ->
  appendToBytes enc (mkStream []) v2 = Return s2 None ->
  exists m1 r1 m2 r2,
    Marshal (runEncoder enc) c1 m v1 = (m1, Return r1 None)
    /\ Marshal (runEncoder enc) c2 m1 v2 = (m2, Return r2 None)
    /\ contents m1 r1 = buffer s1
    /\ contents m2 r2 = buffer s2
    /\ contents m2 r1 = buffer s1.
Proof.
  intros Hready E1 E2.
  destruct (Marshal_runEncoder enc c1 m v1 Hready) as (m1 & r1 & HM1 & Hr1 & _ & Hres1).
  rewrite E1 in Hres1. destruct Hres1 as (res1 & -> & Hc1 & Hp1).
  destruct (Marshal_runEncoder enc c2 m1 v2 Hr1) as (m2 & r2 & HM2 & Hr2 & Hf2 & Hres2).
  rewrite E2 in Hres2. destruct Hres2 as (res2 & -> & Hc2 & _).
  exists m1, res1, m2, res2. repeat split; try assumption.
  rewrite <- Hc1. apply contents_untouched. intros l Hl.
  apply (Hf2 l (Hp1 l Hl)).
Qed.

Lemma Marshal_results_are_not_overwritten_witness :
  exists m1 r1 m2 r2,
    Marshal (runEncoder intEncoder) 0 emptyMemory (VInt (-7)) = (m1, Return r1 None)
    /\ Marshal (runEncoder intEncoder) 0 m1 (VInt 42) = (m2, Return r2 None)
    /\ contents m1 r1 = buffer (mkStream (bytes "-7"))
    /\ contents m2 r2 = buffer (mkStream (bytes "42"))
    /\ contents m2 r1 = buffer (mkStream (bytes "-7")).
Proof.
  apply (Marshal_results_are_not_overwritten intEncoder 0 0 emptyMemory
           (VInt (-7)) (VInt 42) (mkStream (bytes "-7")) (mkStream (bytes "42"))).
  - repeat split; constructor.
  - reflexivity.
  - reflexivity.
Defined.
